(** * urllib3.multipart.encoder: a shallow embedding of the streaming
      multipart/form-data encoder and the properties of its specification.

    The Python module is embedded method by method.  Objects become records,
    a method becomes a function from the object (and its arguments) to a
    [result] holding the returned value and the object after the call, and a
    raised exception becomes [Raise].  Python integers are [Z], [bytes] is a
    list of [byte], [str] is [string] (one character per code point, code
    points up to 255). *)

From Stdlib Require Import ZArith List Bool Lia.
From Stdlib.Strings Require Import String Ascii Byte.
From Stdlib Require Import DecimalString.
Import ListNotations.
Open Scope Z_scope.

(** ** Outcomes of a call *)

(** The exceptions the module can raise or let through. *)
Inductive exn : Type :=
| TypeError                        (* BytesIO.write of something that is not bytes-like *)
| ValueError_UnableToComputeSize   (* total_len: raise ValueError("Unable to compute size", o) *)
| ValueError_unpack                (* _iter_fields: a tuple that does not unpack into four names *)
| ValueError_negative_len          (* len(o): __len__() should return >= 0 *)
| StopIteration.                   (* __next__ on a finished encoder *)

(** [Timeout] is not a Python outcome: it is what a loop of the embedding
    answers when the fuel it was given runs out. *)
Inductive result (A : Type) : Type :=
| Ok (a : A)
| Raise (e : exn)
| Timeout.
Arguments Ok {A} a.
Arguments Raise {A} e.
Arguments Timeout {A}.

Definition bind {A B : Type} (m : result A) (k : A -> result B) : result B :=
  match m with
  | Ok a => k a
  | Raise e => Raise e
  | Timeout => Timeout
  end.

Notation "x <- m ;; k" := (bind m (fun x => k))
  (at level 61, m at next level, right associativity).
Notation "' p <- m ;; k" := (bind m (fun x => match x with p => k end))
  (at level 61, p pattern, m at next level, right associativity).

Definition bytes : Type := list byte.

(** The length of a Python sequence, as a Python integer. *)
Definition zlen {A : Type} (l : list A) : Z := Z.of_nat (List.length l).

(** What the module hands to [BytesIO.write]: a bytes object, or (line 217 of
    the source) a tuple of bytes objects. *)
Inductive pyobj : Type :=
| PyBytes (b : bytes)
| PyTuple (items : list bytes).

Definition CR : byte := x0d.
Definition LF : byte := x0a.
Definition DASH : byte := x2d.
Definition CRLF : bytes := [CR; LF].

(** ** io.BytesIO *)

Module BytesIO.

(** The stored bytes and the stream position. *)
Record t : Type := mk { storage : bytes; pos : nat }.

Definition tell (s : t) : nat := pos s.

Definition getvalue (s : t) : bytes := storage s.

(** [seek(n, 0)] for a position [n >= 0]. *)
Definition seek_set (s : t) (n : nat) : t := mk (storage s) n.

(** [seek(offset, 2)]: relative to the end, clamped at 0. *)
Definition seek_end (s : t) (offset : Z) : t :=
  mk (storage s) (Z.to_nat (zlen (storage s) + offset)).

(** The bytes from the position onward. *)
Definition unread (s : t) : bytes := skipn (pos s) (storage s).

(** [read(size)]: a negative size reads to the end. *)
Definition read (s : t) (size : Z) : bytes * t :=
  let data := if size <? 0 then unread s
              else firstn (Z.to_nat size) (unread s) in
  (data, mk (storage s) (pos s + List.length data)).

(** The storage after writing [b] at position [p]: a gap past the end is
    filled with zero bytes, bytes under [b] are overwritten. *)
Definition overwrite (st : bytes) (p : nat) (b : bytes) : bytes :=
  firstn p st ++ repeat x00 (p - List.length st) ++ b
    ++ skipn (p + List.length b) st.

(** [write(b)] for a bytes object: returns the number of bytes written;
    writing no bytes changes nothing. *)
Definition write_bytes (s : t) (b : bytes) : Z * t :=
  match b with
  | [] => (0, s)
  | _ => (zlen b, mk (overwrite (storage s) (pos s) b)
                     (pos s + List.length b))
  end.

(** [write(o)]: only a bytes-like object is accepted
    ("TypeError: a bytes-like object is required, not 'tuple'"). *)
Definition write (s : t) (o : pyobj) : result (Z * t) :=
  match o with
  | PyBytes b => Ok (write_bytes s b)
  | PyTuple _ => Raise TypeError
  end.

(** [truncate()]: cut the storage at the position. *)
Definition truncate (s : t) : t := mk (firstn (pos s) (storage s)) (pos s).

(** [BytesIO(initial_bytes)]. *)
Definition init (b : bytes) : t := mk b 0.

End BytesIO.

(** ** reset *)

(** The context manager [reset(buffer)]: entering the [with] block remembers
    the position and seeks to the end, leaving it seeks back. *)
Definition reset_enter (buffer : BytesIO.t) : nat * BytesIO.t :=
  let original_position := BytesIO.tell buffer in
  (original_position, BytesIO.seek_end buffer 0).

Definition reset_exit (buffer : BytesIO.t) (original_position : nat)
  : BytesIO.t :=
  BytesIO.seek_set buffer original_position.

(** ** class _CustomBytesIO(io.BytesIO) *)

Module CustomBytesIO.

Definition t : Type := BytesIO.t.

Definition _get_end (s : t) : Z :=
  let current_pos := BytesIO.tell s in
  let s1 := BytesIO.seek_end s 0 in
  let length := Z.of_nat (BytesIO.tell s1) in
  let _s2 := BytesIO.seek_set s1 current_pos in
  length.

(** The [len] property. *)
Definition len (s : t) : Z := _get_end s - Z.of_nat (BytesIO.tell s).

(** [append]: [with reset(self): written = self.write(bytes)]. *)
Definition append (s : t) (o : pyobj) : result (Z * t) :=
  let '(original_position, s1) := reset_enter s in
  '(written, s2) <- BytesIO.write s1 o ;;
  Ok (written, reset_exit s2 original_position).

Definition smart_truncate (s : t) : t :=
  let to_be_read := len s in
  let already_read := _get_end s - to_be_read in
  if already_read >=? to_be_read then
    let '(old_bytes, s1) := BytesIO.read s (-1) in
    let s2 := BytesIO.seek_set s1 0 in
    let s3 := BytesIO.truncate s2 in
    let '(_, s4) := BytesIO.write_bytes s3 old_bytes in
    BytesIO.seek_set s4 0  (* We want to be at the beginning *)
  else s.

End CustomBytesIO.

(** ** Text and codecs *)

(** The codecs of [str.encode].  Strings hold code points up to 255, on which
    both codecs are total. *)
Inductive codec : Type := Utf8 | Latin1.

Definition utf8_char (c : ascii) : bytes :=
  let n := N_of_ascii c in
  if (n <? 128)%N then [byte_of_ascii c]
  else match Byte.of_N (192 + n / 64), Byte.of_N (128 + n mod 64) with
       | Some hi, Some lo => [hi; lo]
       | _, _ => []
       end.

Fixpoint str_encode (enc : codec) (s : string) : bytes :=
  match s with
  | EmptyString => []
  | String c s' =>
      match enc with
      | Utf8 => utf8_char c ++ str_encode enc s'
      | Latin1 => byte_of_ascii c :: str_encode enc s'
      end
  end.

(** A value that is [str] or [bytes]. *)
Inductive text : Type :=
| TStr (s : string)
| TBytes (b : bytes).

(** [encode_with]: a [str] is encoded, [bytes] come back as they are. *)
Definition encode_with (string : text) (enc : codec) : bytes :=
  match string with
  | TStr s => str_encode enc s
  | TBytes b => b
  end.

(** [_CustomBytesIO.__init__(buffer, encoding)], for the arguments the module
    passes: nothing, a [str] or a [bytes]. *)
Definition CustomBytesIO_init (buffer : option text) (enc : codec)
  : CustomBytesIO.t :=
  let buffer := match buffer with None => TBytes [] | Some b => b end in
  let bufferbytes := encode_with buffer enc in
  BytesIO.init bufferbytes.

(** ** Binary file handles *)

(** An open binary handle ([typing.BinaryIO]) over a regular file or a store
    in memory: the bytes it holds, the position [tell()] reports, and which of
    the size accessors probed by [total_len] it offers.  Every accessor it
    offers reports the size of the whole content, which is how
    [FileWrapper.__init__] reads it.  Every such handle has a [fileno]
    attribute; [fileno_supported = false] is a handle whose [fileno()] raises
    [io.UnsupportedOperation]. *)
Module BinaryIO.

Record t : Type := mk {
  content : bytes;
  pos : nat;
  has_dunder_len : bool;
  has_len : bool;
  fileno_supported : bool;
  has_getvalue : bool
}.

Definition tell (f : t) : nat := pos f.

Definition size (f : t) : Z := zlen (content f).

(** [read(length)] for the lengths the module passes, -1 or a length that
    is not negative: up to [length] bytes, to the end for -1.  (A buffered
    file refuses a length below -1 with ValueError; [Part.write_to], the
    only caller in the module, passes -1 or a positive amount.) *)
Definition read (f : t) (length : Z) : bytes * t :=
  let rest := skipn (pos f) (content f) in
  let data := if length <? 0 then rest
              else firstn (Z.to_nat length) rest in
  (data, mk (content f) (pos f + List.length data) (has_dunder_len f)
            (has_len f) (fileno_supported f) (has_getvalue f)).

End BinaryIO.

(** ** class FileWrapper *)

Module FileWrapper.

Record t : Type := mk { fd : BinaryIO.t; _total_len : Z }.

(** The [len] property. *)
Definition len (w : t) : Z := _total_len w - Z.of_nat (BinaryIO.tell (fd w)).

Definition read (w : t) (length : Z) : bytes * t :=
  let '(data, fd') := BinaryIO.read (fd w) length in
  (data, mk fd' (_total_len w)).

End FileWrapper.

(** A part body: what [coerce_data] returns. *)
Inductive sized_body : Type :=
| BCustomBytesIO (s : CustomBytesIO.t)
| BFileWrapper (w : FileWrapper.t).

Definition body_read (b : sized_body) (size : Z) : bytes * sized_body :=
  match b with
  | BCustomBytesIO s =>
      let '(data, s') := BytesIO.read s size in (data, BCustomBytesIO s')
  | BFileWrapper w =>
      let '(data, w') := FileWrapper.read w size in (data, BFileWrapper w')
  end.

(** The fields of a [Part] object ([Part.len] is set once, by [__init__]). *)
Record Part_t : Type := mkPart {
  Part_headers : bytes;
  Part_body : sized_body;
  Part_headers_unread : bool;
  Part_len : Z
}.

(** ** total_len *)

(** The objects [total_len] is called on. *)
Inductive object : Type :=
| OStr (s : string)
| OBytes (b : bytes)
| OBytesIO (s : BytesIO.t)
| OCustomBytesIO (s : CustomBytesIO.t)
| OBinaryIO (f : BinaryIO.t)
| OFileWrapper (w : FileWrapper.t)
| OPart (p : Part_t).

Definition object_of_body (b : sized_body) : object :=
  match b with
  | BCustomBytesIO s => OCustomBytesIO s
  | BFileWrapper w => OFileWrapper w
  end.

(** [hasattr(o, "__len__")], with the value of [len(o)]. *)
Definition attr_dunder_len (o : object) : option Z :=
  match o with
  | OStr s => Some (Z.of_nat (String.length s))
  | OBytes b => Some (zlen b)
  | OBinaryIO f => if BinaryIO.has_dunder_len f then Some (BinaryIO.size f) else None
  | _ => None
  end.

(** [hasattr(o, "len")], with the value of [o.len]. *)
Definition attr_len (o : object) : option Z :=
  match o with
  | OCustomBytesIO s => Some (CustomBytesIO.len s)
  | OFileWrapper w => Some (FileWrapper.len w)
  | OPart p => Some (Part_len p)
  | OBinaryIO f => if BinaryIO.has_len f then Some (BinaryIO.size f) else None
  | _ => None
  end.

(** [hasattr(o, "fileno")]; inside, [None] when [o.fileno()] raises
    [io.UnsupportedOperation], else [os.fstat(fileno).st_size]. *)
Definition attr_fileno (o : object) : option (option Z) :=
  match o with
  | OBytesIO _ | OCustomBytesIO _ => Some None
  | OBinaryIO f =>
      Some (if BinaryIO.fileno_supported f then Some (BinaryIO.size f) else None)
  | _ => None
  end.

(** [hasattr(o, "getvalue")], with the value of [o.getvalue()]. *)
Definition attr_getvalue (o : object) : option bytes :=
  match o with
  | OBytesIO s | OCustomBytesIO s => Some (BytesIO.getvalue s)
  | OBinaryIO f => if BinaryIO.has_getvalue f then Some (BinaryIO.content f) else None
  | _ => None
  end.

Definition total_len (o : object) : result Z :=
  match attr_dunder_len o with
  | Some n => Ok n
  | None =>
      match attr_len o with
      | Some n => Ok n
      | None =>
          match attr_fileno o with
          | Some (Some st_size) => Ok st_size
          | _ =>
              match attr_getvalue o with
              | Some v => Ok (zlen v)
              | None => Raise ValueError_UnableToComputeSize
              end
          end
      end
  end.

(** [FileWrapper.__init__(file_object)]. *)
Definition FileWrapper_init (file_object : BinaryIO.t) : result FileWrapper.t :=
  n <- total_len (OBinaryIO file_object) ;;
  Ok (FileWrapper.mk file_object n).

(** ** coerce_data *)

(** The data of a field: [str], [bytes], an [io.BytesIO], a [_CustomBytesIO]
    or another binary handle. *)
Inductive data : Type :=
| DStr (s : string)
| DBytes (b : bytes)
| DBytesIO (s : BytesIO.t)
| DCustomBytesIO (s : CustomBytesIO.t)
| DBinaryIO (f : BinaryIO.t).

Definition coerce_data (d : data) (enc : codec) : result sized_body :=
  match d with
  | DCustomBytesIO s => Ok (BCustomBytesIO s)
  | DBytesIO s =>
      Ok (BCustomBytesIO (CustomBytesIO_init (Some (TBytes (BytesIO.getvalue s))) enc))
  | DStr s => Ok (BCustomBytesIO (CustomBytesIO_init (Some (TStr s)) enc))
  | DBytes b => Ok (BCustomBytesIO (CustomBytesIO_init (Some (TBytes b)) enc))
  | DBinaryIO f => w <- FileWrapper_init f ;; Ok (BFileWrapper w)
  end.

(** ** class Part *)

Module Part.

Definition t : Type := Part_t.

(** [Part.__init__(headers, body)]. *)
Definition __init__ (headers : bytes) (body : sized_body) : result t :=
  n <- total_len (object_of_body body) ;;
  Ok (mkPart headers body true (zlen headers + n)).

Definition bytes_left_to_write (self : t) : result bool :=
  let to_read := 0 in
  let to_read := if Part_headers_unread self
                 then to_read + zlen (Part_headers self)
                 else to_read in
  n <- total_len (object_of_body (Part_body self)) ;;
  Ok (to_read + n >? 0).

(** The [while] loop of [write_to]; [fuel] bounds its iterations. *)
Fixpoint write_to_loop (fuel : nat) (body : sized_body)
    (buffer : CustomBytesIO.t) (size written : Z)
  : result (Z * sized_body * CustomBytesIO.t) :=
  n <- total_len (object_of_body body) ;;
  if (n >? 0) && ((size =? -1) || (written <? size)) then
    match fuel with
    | O => Timeout
    | S fuel' =>
        let amount_to_read := size in
        let amount_to_read :=
          if negb (size =? -1) then size - written else amount_to_read in
        let '(chunk, body') := body_read body amount_to_read in
        '(k, buffer') <- CustomBytesIO.append buffer (PyBytes chunk) ;;
        write_to_loop fuel' body' buffer' size (written + k)
    end
  else Ok (written, body, buffer).

Definition write_to (fuel : nat) (self : t) (buffer : CustomBytesIO.t)
    (size : Z) : result (Z * t * CustomBytesIO.t) :=
  let written := 0 in
  '(written, self, buffer) <-
    (if Part_headers_unread self then
       '(k, buffer') <-
         CustomBytesIO.append buffer (PyBytes (Part_headers self)) ;;
       Ok (written + k,
           mkPart (Part_headers self) (Part_body self) false (Part_len self),
           buffer')
     else Ok (written, self, buffer)) ;;
  '(written, body', buffer) <-
    write_to_loop fuel (Part_body self) buffer size written ;;
  Ok (written,
      mkPart (Part_headers self) body' (Part_headers_unread self)
             (Part_len self),
      buffer).

End Part.

(** ** Fields *)

Definition crlf : string := String "013" (String "010" EmptyString).

(** The value of one field: bare data, or a list or tuple
    [(filename, data)], [(filename, data, content_type)] or
    [(filename, data, content_type, headers)]; [VTupleOther] is a list or
    tuple of any other length. *)
Inductive field_value : Type :=
| VData (d : data)
| VTuple2 (file_name : string) (file_pointer : data)
| VTuple3 (file_name : string) (file_pointer : data) (file_type : text)
| VTuple4 (file_name : string) (file_pointer : data) (file_type : text)
          (file_headers : list (string * string))
| VTupleOther (length : nat).

(** The field collection: a mapping (its items in insertion order) or a
    sequence of pairs. *)
Inductive Fields : Type :=
| Mapping (items : list (string * field_value))
| Sequence (items : list (string * field_value)).

(** [urllib3.fields.RequestField], after [make_multipart]. *)
Record RequestField : Type := mkRequestField {
  rf_name : string;
  rf_data : data;
  rf_filename : option string;
  rf_headers : option (list (string * string));
  rf_content_type : option string
}.

(** ** class MultipartEncoder *)

Module MultipartEncoder.

(** The attributes of an encoder.  [_parts] is the store of the Part
    objects; the iterator [_iter_parts] and [_current_part] refer to the
    same objects, by their index in [_parts]. *)
Record t : Type := mk {
  _boundary_value : string;
  _boundary : string;
  _enc : codec;
  _encoded_boundary : pyobj;
  _fields : Fields;
  _iter_read_size : Z;
  _finished : bool;
  _current_part : option nat;
  _len : option Z;
  _buffer : CustomBytesIO.t;
  _parts : list Part.t;
  _iter_parts : nat
}.

Definition set_buffer (self : t) (b : CustomBytesIO.t) : t :=
  mk (_boundary_value self) (_boundary self) (_enc self)
     (_encoded_boundary self) (_fields self) (_iter_read_size self)
     (_finished self) (_current_part self) (_len self) b (_parts self)
     (_iter_parts self).

Definition set_finished (self : t) (f : bool) : t :=
  mk (_boundary_value self) (_boundary self) (_enc self)
     (_encoded_boundary self) (_fields self) (_iter_read_size self)
     f (_current_part self) (_len self) (_buffer self) (_parts self)
     (_iter_parts self).

Definition set_len (self : t) (n : option Z) : t :=
  mk (_boundary_value self) (_boundary self) (_enc self)
     (_encoded_boundary self) (_fields self) (_iter_read_size self)
     (_finished self) (_current_part self) n (_buffer self) (_parts self)
     (_iter_parts self).

Definition set_parts (self : t) (parts : list Part.t) (iter_parts : nat) : t :=
  mk (_boundary_value self) (_boundary self) (_enc self)
     (_encoded_boundary self) (_fields self) (_iter_read_size self)
     (_finished self) (_current_part self) (_len self) (_buffer self) parts
     iter_parts.

(** [p = self._current_part = next(self._iter_parts)]. *)
Definition advance (self : t) : t :=
  mk (_boundary_value self) (_boundary self) (_enc self)
     (_encoded_boundary self) (_fields self) (_iter_read_size self)
     (_finished self) (Some (_iter_parts self)) (_len self) (_buffer self)
     (_parts self) (S (_iter_parts self)).

(** The Part object at index [i] of the store (the empty part stands for an
    index outside it, which no method produces). *)
Definition null_part : Part.t := mkPart [] (BCustomBytesIO (BytesIO.init [])) false 0.

Definition part_at (self : t) (i : nat) : Part.t := nth i (_parts self) null_part.

Fixpoint update {A : Type} (l : list A) (i : nat) (x : A) : list A :=
  match l, i with
  | [], _ => []
  | _ :: l', O => x :: l'
  | y :: l', S i' => y :: update l' i' x
  end.

Definition set_part (self : t) (i : nat) (p : Part.t) : t :=
  set_parts self (update (_parts self) i p) (_iter_parts self).

Definition boundary (self : t) : string := _boundary self.
Definition boundary_value (self : t) : string := _boundary_value self.
Definition default_iter_read_size (self : t) : Z := _iter_read_size self.
Definition encoding (self : t) : codec := _enc self.
Definition fields (self : t) : Fields := _fields self.
Definition finished (self : t) : bool := _finished self.

Definition _write (self : t) (bytes_to_write : pyobj) : result (Z * t) :=
  '(n, b) <- CustomBytesIO.append (_buffer self) bytes_to_write ;;
  Ok (n, set_buffer self b).

Definition _write_boundary (self : t) : result (Z * t) :=
  _write self (_encoded_boundary self).

(** [with reset(self._buffer): self._buffer.seek(-2, 2);
    self._buffer.write(b"--\r\n")], then [return 2]. *)
Definition _write_closing_boundary (self : t) : Z * t :=
  let '(original_position, b1) := reset_enter (_buffer self) in
  let b2 := BytesIO.seek_end b1 (-2) in
  let '(_, b3) := BytesIO.write_bytes b2 [DASH; DASH; CR; LF] in
  let b4 := reset_exit b3 original_position in
  (2, set_buffer self b4).

Definition _next_part (self : t) : option nat * t :=
  match nth_error (_parts self) (_iter_parts self) with
  | Some _ => (Some (_iter_parts self), advance self)
  | None => (None, self)
  end.

Fixpoint sum_total_len (parts : list Part.t) : result Z :=
  match parts with
  | [] => Ok 0
  | p :: rest =>
      n <- total_len (OPart p) ;;
      m <- sum_total_len rest ;;
      Ok (n + m)
  end.

Definition _calculate_length (self : t) : result (Z * t) :=
  let boundarycrnl_len :=
    Z.of_nat (String.length (_boundary self))
    + Z.of_nat (String.length (crlf ++ crlf)%string) in
  s <- sum_total_len (_parts self) ;;
  let n := s + boundarycrnl_len * (zlen (_parts self) + 1) in
  Ok (n, set_len self (Some n)).

(** [__len__]: [self._len or self._calculate_length()]. *)
Definition __len__ (self : t) : result (Z * t) :=
  match _len self with
  | Some n => if n =? 0 then _calculate_length self else Ok (n, self)
  | None => _calculate_length self
  end.

Definition _calculate_load_amount (self : t) (read_size : Z) : result Z :=
  n <- total_len (OCustomBytesIO (_buffer self)) ;;
  let amount := read_size - n in
  Ok (if amount >? 0 then amount else 0).

(** The [while] loop of [_load]; [part] is its local variable, [fuel]
    bounds its iterations and those of the loop inside [write_to]. *)
Fixpoint _load_loop (fuel : nat) (self : t) (part : option nat) (amount : Z)
  : result t :=
  if (amount =? -1) || (amount >? 0) then
    match fuel with
    | O => Timeout
    | S fuel' =>
        let written := 0 in
        '(written, part, self) <-
          (match part with
           | Some i =>
               left <- Part.bytes_left_to_write (part_at self i) ;;
               if negb left then
                 '(k1, self) <- _write self (PyBytes CRLF) ;;
                 '(k2, self) <- _write_boundary self ;;
                 let '(part, self) := _next_part self in
                 Ok (written + k1 + k2, part, self)
               else Ok (written, part, self)
           | None => Ok (written, part, self)
           end) ;;
        match part with
        | None =>
            let '(k, self) := _write_closing_boundary self in
            Ok (set_finished self true)
        | Some i =>
            '(k, p, b) <-
              Part.write_to fuel (part_at self i) (_buffer self) amount ;;
            let self := set_buffer (set_part self i p) b in
            let written := written + k in
            let amount := if negb (amount =? -1) then amount - written
                          else amount in
            _load_loop fuel' self part amount
        end
    end
  else Ok self.

Definition _load (fuel : nat) (self : t) (amount : Z) : result t :=
  let self := set_buffer self (CustomBytesIO.smart_truncate (_buffer self)) in
  let '(part, self) :=
    match _current_part self with
    | Some i => (Some i, self)
    | None => _next_part self
    end in
  _load_loop fuel self part amount.

Definition read (fuel : nat) (self : t) (size : Z) : result (bytes * t) :=
  if _finished self then
    let '(data, b) := BytesIO.read (_buffer self) size in
    Ok (data, set_buffer self b)
  else
    let bytes_to_load := size in
    bytes_to_load <-
      (if negb (bytes_to_load =? -1) then _calculate_load_amount self size
       else Ok bytes_to_load) ;;
    self <- _load fuel self bytes_to_load ;;
    let '(data, b) := BytesIO.read (_buffer self) size in
    Ok (data, set_buffer self b).

Definition __next__ (fuel : nat) (self : t) : result (bytes * t) :=
  if _finished self then Raise StopIteration
  else read fuel self (_iter_read_size self).

(** [__iter__]: the chunks the generator yields until it returns; [steps]
    bounds their number. *)
Fixpoint __iter__ (steps fuel : nat) (self : t) : result (list bytes * t) :=
  if negb (_finished self) then
    match steps with
    | O => Timeout
    | S steps' =>
        '(chunk, self) <- read fuel self (_iter_read_size self) ;;
        '(chunks, self) <- __iter__ steps' fuel self ;;
        Ok (chunk :: chunks, self)
    end
  else Ok ([], self).

Definition content_type (self : t) : string :=
  ("multipart/form-data; boundary=" ++ _boundary_value self)%string.

(** [content_length]: the decimal text of [len(self)]; the builtin [len]
    refuses a negative result of [__len__]. *)
Definition content_length (self : t) : result (string * t) :=
  '(n, self) <- __len__ self ;;
  if n <? 0 then Raise ValueError_negative_len
  else Ok (NilZero.string_of_int (Z.to_int n), self).

(** *** Construction *)

Section Construction.

(** The collaborators outside this module: the header block
    [RequestField.render_headers] renders for a field, [bytes.decode]
    for a content type given as bytes, and the token
    [filepost.choose_boundary()] returns. *)
Variable render_headers : RequestField -> string.
Variable utf8_decode : bytes -> string.
Variable choose_boundary : string.

(** [Part.from_field(field, encoding)]. *)
Definition from_field (field : RequestField) (enc : codec)
  : result Part.t :=
  let headers := encode_with (TStr (render_headers field)) enc in
  body <- coerce_data (rf_data field) enc ;;
  Part.__init__ headers body.

(** The items [_iter_fields] walks over. *)
Definition items_of (fields : Fields) : list (string * field_value) :=
  match fields with
  | Mapping items => items
  | Sequence items => items
  end.

(** One turn of the [for] loop of [_iter_fields]: the field it yields. *)
Definition _iter_fields_step (kv : string * field_value)
  : result RequestField :=
  let '(k, v) := kv in
  '(file_name, file_pointer, file_type, file_headers) <-
    (match v with
     | VTuple2 file_name file_pointer =>
         Ok (Some file_name, file_pointer, None, None)
     | VTuple3 file_name file_pointer file_type =>
         Ok (Some file_name, file_pointer, Some file_type, None)
     | VTuple4 file_name file_pointer file_type file_headers =>
         Ok (Some file_name, file_pointer, Some file_type,
             Some file_headers)
     | VTupleOther _ => Raise ValueError_unpack
     | VData d => Ok (None, d, None, None)
     end) ;;
  let file_type :=
    match file_type with
    | Some (TBytes b) => Some (utf8_decode b)
    | Some (TStr s) => Some s
    | None => None
    end in
  Ok (mkRequestField k file_pointer file_name file_headers file_type).

(** [[Part.from_field(f, enc) for f in self._iter_fields()]]: the
    generator is advanced one field at a time, each field made into a
    Part before the next one is looked at. *)
Fixpoint parts_of (enc : codec) (items : list (string * field_value))
  : result (list Part.t) :=
  match items with
  | [] => Ok []
  | kv :: rest =>
      f <- _iter_fields_step kv ;;
      p <- from_field f enc ;;
      ps <- parts_of enc rest ;;
      Ok (p :: ps)
  end.

Definition _prepare_parts (self : t) : result (list Part.t * nat) :=
  let enc := _enc self in
  parts <- parts_of enc (items_of (_fields self)) ;;
  Ok (parts, O).

(** [__init__] up to and including the call of [_prepare_parts]
    (lines 213 to 230). *)
Definition init_attributes (fields : Fields) (boundary : option string)
    (enc : codec) (default_iter_size : Z) : result t :=
  let boundary_value :=
    match boundary with
    | None | Some EmptyString => choose_boundary
    | Some b => b
    end in
  let boundary_ := ("--" ++ boundary_value)%string in
  let encoded_boundary :=
    PyTuple [encode_with (TStr (boundary_ ++ crlf)%string) enc] in
  let self :=
    mk boundary_value boundary_ enc encoded_boundary fields
       default_iter_size false None None (CustomBytesIO_init None enc)
       [] O in
  '(parts, iter_parts) <- _prepare_parts self ;;
  Ok (set_parts self parts iter_parts).

Definition __init__ (fields : Fields) (boundary : option string)
    (enc : codec) (default_iter_size : Z) : result t :=
  self <- init_attributes fields boundary enc default_iter_size ;;
  (* Load boundary into buffer *)
  '(_, self) <- _write_boundary self ;;
  Ok self.

End Construction.

End MultipartEncoder.

(** ** readable_data *)

(** What [readable_data] returns: an object with a [read] method. *)
Inductive readable : Type :=
| RBytesIO (s : BytesIO.t)
| RCustomBytesIO (s : CustomBytesIO.t)
| RBinaryIO (f : BinaryIO.t).

(** [readable_data(data, encoding)]: data with a [read] method is returned
    as it is, a [str] or [bytes] is wrapped. *)
Definition readable_data (d : data) (enc : codec) : readable :=
  match d with
  | DBytesIO s => RBytesIO s
  | DCustomBytesIO s => RCustomBytesIO s
  | DBinaryIO f => RBinaryIO f
  | DStr s => RCustomBytesIO (CustomBytesIO_init (Some (TStr s)) enc)
  | DBytes b => RCustomBytesIO (CustomBytesIO_init (Some (TBytes b)) enc)
  end.

(** [o.read()] on such an object: the bytes and the object afterwards. *)
Definition readable_read (r : readable) (size : Z) : bytes * readable :=
  match r with
  | RBytesIO s => let '(data, s') := BytesIO.read s size in (data, RBytesIO s')
  | RCustomBytesIO s =>
      let '(data, s') := BytesIO.read s size in (data, RCustomBytesIO s')
  | RBinaryIO f =>
      let '(data, f') := BinaryIO.read f size in (data, RBinaryIO f')
  end.

(** * Notions used in the statements *)

(** ** Part bodies *)

(** The length a body reports. *)
Definition body_len (b : sized_body) : Z :=
  match b with
  | BCustomBytesIO s => CustomBytesIO.len s
  | BFileWrapper w => FileWrapper.len w
  end.

(** The bytes a body has yet to deliver. *)
Definition body_unread (b : sized_body) : bytes :=
  match b with
  | BCustomBytesIO s => BytesIO.unread s
  | BFileWrapper w =>
      skipn (BinaryIO.pos (FileWrapper.fd w)) (BinaryIO.content (FileWrapper.fd w))
  end.

(** The invariant of a wrapped handle: the total length [FileWrapper.__init__]
    recorded is the size of the handle's content. *)
Definition body_ok (b : sized_body) : Prop :=
  match b with
  | BCustomBytesIO _ => True
  | BFileWrapper w => FileWrapper._total_len w = BinaryIO.size (FileWrapper.fd w)
  end.

Definition bodies_ok (ps : list Part.t) : Prop :=
  Forall (fun p => body_ok (Part_body p)) ps.

Definition is_nil {A : Type} (l : list A) : bool :=
  match l with [] => true | _ => false end.

(** What [read(size)] takes from the unread bytes [rest]. *)
Definition taken (size : Z) (rest : bytes) : bytes :=
  if size <? 0 then rest else firstn (Z.to_nat size) rest.

(** The body bytes one call of [write_to] moves, given the bytes already
    written by the call ([written]) and the unread bytes of the body. *)
Definition body_chunk (size written : Z) (rest : bytes) : bytes :=
  if size =? -1 then rest else firstn (Z.to_nat (size - written)) rest.

(** The bytes a part has yet to write: its headers, if unsent, and the unread
    bytes of its body. *)
Definition pending (p : Part.t) : bytes :=
  (if Part_headers_unread p then Part_headers p else [])
    ++ body_unread (Part_body p).

(** A part as [Part.__init__] leaves it: headers unsent, and [len] the
    size of the header block plus the length of the body. *)
Definition fresh_part (p : Part.t) : Prop :=
  Part_headers_unread p = true
  /\ Part_len p = zlen (Part_headers p) + body_len (Part_body p)
  /\ body_ok (Part_body p).

(** ** Fields and their sizes *)

(** Whether one of the size accessors probed by [total_len] applies to the
    data of a field: a length ([__len__] or [len]), a file descriptor to
    [fstat], or [getvalue]. *)
Definition exposes_size (d : data) : bool :=
  match d with
  | DBinaryIO f =>
      BinaryIO.has_dunder_len f || BinaryIO.has_len f
      || BinaryIO.fileno_supported f || BinaryIO.has_getvalue f
  | _ => true
  end.

(** The data inside a field value of a supported shape. *)
Definition field_data (v : field_value) : option data :=
  match v with
  | VData d => Some d
  | VTuple2 _ d => Some d
  | VTuple3 _ d _ => Some d
  | VTuple4 _ d _ _ => Some d
  | VTupleOther _ => None
  end.



(** ** Lengths *)

Fixpoint sum_Z (l : list Z) : Z :=
  match l with
  | [] => 0
  | x :: l' => x + sum_Z l'
  end.

(** The total length as the specification words it: the parts' lengths plus
    [N + 1] times the length of the delimiter line [--boundary\r\n]. *)
Definition spec_total_length (self : MultipartEncoder.t) : Z :=
  let overhead_len :=
    zlen (str_encode (MultipartEncoder._enc self)
            (MultipartEncoder._boundary self ++ crlf)) in
  sum_Z (map Part_len (MultipartEncoder._parts self))
  + overhead_len * (zlen (MultipartEncoder._parts self) + 1).

(** The text the [content_length] property gives. *)
Definition content_length_value (self : MultipartEncoder.t) : result string :=
  '(c, _) <- MultipartEncoder.content_length self ;; Ok c.

(** ** Runs of an encoder *)

(** Successive calls [read(size)], one for each element of [sizes]. *)
Fixpoint reads (fuel : nat) (self : MultipartEncoder.t) (sizes : list Z)
  : result (list bytes * MultipartEncoder.t) :=
  match sizes with
  | [] => Ok ([], self)
  | size :: sizes' =>
      '(data, self) <- MultipartEncoder.read fuel self size ;;
      '(chunks, self) <- reads fuel self sizes' ;;
      Ok (data :: chunks, self)
  end.

(** The encoder after its buffer's position has moved [n] bytes on. *)
Definition advanced (self : MultipartEncoder.t) (n : nat) : MultipartEncoder.t :=
  MultipartEncoder.set_buffer self
    (BytesIO.mk (BytesIO.storage (MultipartEncoder._buffer self))
                (BytesIO.pos (MultipartEncoder._buffer self) + n)).

(** Successive calls [read(c)] until one returns no bytes, joined. *)
Fixpoint read_until_empty (steps fuel : nat) (self : MultipartEncoder.t)
    (c : Z) : result (bytes * MultipartEncoder.t) :=
  match steps with
  | O => Timeout
  | S steps' =>
      '(data, self) <- MultipartEncoder.read fuel self c ;;
      match data with
      | [] => Ok ([], self)
      | _ =>
          '(rest, self) <- read_until_empty steps' fuel self c ;;
          Ok (data ++ rest, self)
      end
  end.

(** [enc = MultipartEncoder(fields, boundary)], then [len(enc)] and
    [enc.read()]. *)
Definition length_and_drain (render_headers : RequestField -> string)
    (utf8_decode : bytes -> string) (choose_boundary : string)
    (fuel : nat) (fields : Fields) (boundary : option string)
    (enc : codec) (size : Z) : result (Z * bytes) :=
  self <- MultipartEncoder.__init__ render_headers utf8_decode choose_boundary
            fields boundary enc size ;;
  '(n, self) <- MultipartEncoder.__len__ self ;;
  '(data, _) <- MultipartEncoder.read fuel self (-1) ;;
  Ok (n, data).

(** A fresh encoder drained by one [read()]. *)
Definition single_read (render_headers : RequestField -> string)
    (utf8_decode : bytes -> string) (choose_boundary : string)
    (fuel : nat) (fields : Fields) (boundary : option string)
    (enc : codec) (size : Z) : result bytes :=
  self <- MultipartEncoder.__init__ render_headers utf8_decode choose_boundary
            fields boundary enc size ;;
  '(data, _) <- MultipartEncoder.read fuel self (-1) ;;
  Ok data.

(** A fresh encoder drained by reads of [c] bytes. *)
Definition chunked_read (render_headers : RequestField -> string)
    (utf8_decode : bytes -> string) (choose_boundary : string)
    (steps fuel : nat) (c : Z) (fields : Fields) (boundary : option string)
    (enc : codec) (size : Z) : result bytes :=
  self <- MultipartEncoder.__init__ render_headers utf8_decode choose_boundary
            fields boundary enc size ;;
  '(data, _) <- read_until_empty steps fuel self c ;;
  Ok data.

(** ** The stream of a body *)

Definition closing_bytes : bytes := [DASH; DASH; CR; LF].

(** The buffer content after [_write_closing_boundary]: [--\r\n] written two
    bytes before the end. *)
Definition closed (st : bytes) : bytes :=
  BytesIO.overwrite st (Z.to_nat (zlen st + -2)) closing_bytes.

(** What the loader appends after an exhausted part when the parts [rest]
    follow it: CRLF and the delimiter, then each part followed by CRLF and the
    delimiter. *)
Fixpoint transitions (d : bytes) (rest : list Part.t) : bytes :=
  match rest with
  | [] => CRLF ++ d
  | p :: rest' => CRLF ++ d ++ pending p ++ transitions d rest'
  end.

(** The stream of a body: the delimiter, each part followed by CRLF and the
    delimiter, and the closing bytes over the last two bytes. *)
Definition multipart_stream (d : bytes) (ps : list Part.t) : bytes :=
  closed (d ++ flat_map (fun p => pending p ++ CRLF ++ d) ps).

(** An encoder object that holds the delimiter [d] as a bytes object and has
    it loaded in its buffer, nothing read and no part begun. *)
Definition delimiter_loaded (d : bytes) (self : MultipartEncoder.t) : Prop :=
  MultipartEncoder._encoded_boundary self = PyBytes d
  /\ MultipartEncoder._buffer self = BytesIO.mk d 0
  /\ MultipartEncoder._finished self = false
  /\ MultipartEncoder._current_part self = None
  /\ MultipartEncoder._iter_parts self = O
  /\ Forall (fun p => body_ok (Part_body p) /\ 0 <= body_len (Part_body p))
            (MultipartEncoder._parts self).

(** The object [self] with [d] stored as its delimiter and loaded in its
    buffer. *)
Definition with_delimiter (d : bytes) (self : MultipartEncoder.t)
  : MultipartEncoder.t :=
  MultipartEncoder.mk
    (MultipartEncoder._boundary_value self) (MultipartEncoder._boundary self)
    (MultipartEncoder._enc self) (PyBytes d) (MultipartEncoder._fields self)
    (MultipartEncoder._iter_read_size self) (MultipartEncoder._finished self)
    (MultipartEncoder._current_part self) (MultipartEncoder._len self)
    (BytesIO.mk d 0) (MultipartEncoder._parts self)
    (MultipartEncoder._iter_parts self).

(** ** Concrete collaborators and inputs, for the examples *)

(** A header renderer: one [Content-Disposition] line naming the field, then
    the blank line. *)
Definition example_render_headers (f : RequestField) : string :=
  ("Content-Disposition: form-data; name=" ++ rf_name f ++ crlf ++ crlf)%string.

Definition example_utf8_decode (b : bytes) : string := string_of_list_byte b.

Definition example_choose_boundary : string := "b0c1d2e3f4a5968778695a4b3c2d1e0f".

Definition example_init :=
  MultipartEncoder.__init__ example_render_headers example_utf8_decode
    example_choose_boundary.

Definition example_init_attributes :=
  MultipartEncoder.init_attributes example_render_headers example_utf8_decode
    example_choose_boundary.

(** The fields [[("a", "1")]]. *)
Definition fields_a1 : Fields := Sequence [("a"%string, VData (DStr "1"))].

(** The delimiter line for the boundary [X]. *)
Definition delimiter_X : bytes := [DASH; DASH; x58; CR; LF].


(** An open file of five bytes, [hello], two of them already read. *)
Definition open_file : BinaryIO.t :=
  BinaryIO.mk [x68; x65; x6c; x6c; x6f] 2 false false true false.

(** A part with a header block of four bytes and the wrapped [open_file] as
    its body. *)
Definition example_part : Part.t :=
  mkPart [x48; x3a; CR; LF] (BFileWrapper (FileWrapper.mk open_file 5)) true 7.

Definition example_buffer : CustomBytesIO.t :=
  BytesIO.mk [DASH; DASH; x58; CR; LF] 3.

(** The object [__init__] has set up for an empty field collection with
    boundary [X] when its last statement raises, after one [read(1)]: the
    closing bytes are in the buffer, one of them read. *)
Definition finished_example : result MultipartEncoder.t :=
  self <- example_init_attributes (Sequence []) (Some "X"%string) Utf8 1 ;;
  '(_, self) <- MultipartEncoder.read 2 self 1 ;;
  Ok self.

(** ** Notions for the further properties *)

(** The position of a buffer lies within its stored bytes. *)
Definition buffer_ok (s : BytesIO.t) : Prop :=
  (BytesIO.pos s <= List.length (BytesIO.storage s))%nat.

(** The bytes the data of a field contributes to the body: a [str] encoded, a
    [bytes] as it is, the whole value of an [io.BytesIO], and what is left
    to read of a [_CustomBytesIO] or of another handle. *)
Definition data_bytes (enc : codec) (d : data) : bytes :=
  match d with
  | DStr s => str_encode enc s
  | DBytes b => b
  | DBytesIO s => BytesIO.getvalue s
  | DCustomBytesIO s => BytesIO.unread s
  | DBinaryIO f => skipn (BinaryIO.pos f) (BinaryIO.content f)
  end.

(** The position of the data, if it has one of its own, is not past its
    end. *)
Definition data_in_range (d : data) : Prop :=
  match d with
  | DCustomBytesIO s => buffer_ok s
  | DBinaryIO f => (BinaryIO.pos f <= List.length (BinaryIO.content f))%nat
  | _ => True
  end.

(** Successive calls [write_to(buffer, size)] on one part, one for each
    element of [sizes]; the number returned is the sum of theirs. *)
Fixpoint write_many (fuel : nat) (p : Part.t) (buffer : CustomBytesIO.t)
    (sizes : list Z) : result (Z * Part.t * CustomBytesIO.t) :=
  match sizes with
  | [] => Ok (0, p, buffer)
  | size :: sizes' =>
      '(k, p, buffer) <- Part.write_to fuel p buffer size ;;
      '(total, p, buffer) <- write_many fuel p buffer sizes' ;;
      Ok (k + total, p, buffer)
  end.

(** What reading leaves alone in an encoder: the boundary, the codec, the
    stored delimiter, the fields, the read size for iteration, the cached
    length, and of every part its header block and its [len]; and what only
    moves forward: the iterator over the parts and the [finished] flag. *)
Definition evolves (self self' : MultipartEncoder.t) : Prop :=
  MultipartEncoder._boundary_value self' = MultipartEncoder._boundary_value self
  /\ MultipartEncoder._boundary self' = MultipartEncoder._boundary self
  /\ MultipartEncoder._enc self' = MultipartEncoder._enc self
  /\ MultipartEncoder._encoded_boundary self'
     = MultipartEncoder._encoded_boundary self
  /\ MultipartEncoder._fields self' = MultipartEncoder._fields self
  /\ MultipartEncoder._iter_read_size self'
     = MultipartEncoder._iter_read_size self
  /\ MultipartEncoder._len self' = MultipartEncoder._len self
  /\ map Part_headers (MultipartEncoder._parts self')
     = map Part_headers (MultipartEncoder._parts self)
  /\ map Part_len (MultipartEncoder._parts self')
     = map Part_len (MultipartEncoder._parts self)
  /\ (MultipartEncoder._iter_parts self
      <= MultipartEncoder._iter_parts self')%nat
  /\ (MultipartEncoder._finished self = true ->
      MultipartEncoder._finished self' = true).

(** An encoder object over one part, [example_part], that holds the
    delimiter line for the boundary [X] as bytes and has it loaded. *)
Definition example_encoder : MultipartEncoder.t :=
  MultipartEncoder.mk "X" "--X" Utf8 (PyBytes delimiter_X)
    (Sequence [("f"%string, VData (DBinaryIO open_file))]) 4 false None None
    (BytesIO.mk delimiter_X 0) [example_part] O.

(** ** An encoder in the course of streaming *)

(** The index of the part an encoder is at: its current part, or the first
    part when none has begun. *)
Definition cursor (self : MultipartEncoder.t) : nat :=
  match MultipartEncoder._current_part self with
  | Some i => i
  | None => O
  end.

(** An encoder object at some point of streaming a body of at least one
    part, with the delimiter [d] stored as bytes: it is finished, or it is at
    a part of its store, with the iterator one past it (at the start when no
    part has begun); the position of the buffer is within it, and every body
    reports a length that is not negative. *)
Definition streaming (d : bytes) (self : MultipartEncoder.t) : Prop :=
  MultipartEncoder._encoded_boundary self = PyBytes d
  /\ buffer_ok (MultipartEncoder._buffer self)
  /\ Forall (fun p => body_ok (Part_body p) /\ 0 <= body_len (Part_body p))
            (MultipartEncoder._parts self)
  /\ (MultipartEncoder._finished self = true
      \/ ((cursor self < List.length (MultipartEncoder._parts self))%nat
          /\ MultipartEncoder._iter_parts self
             = match MultipartEncoder._current_part self with
               | Some i => S i
               | None => O
               end)).

(** The loader at work on part [i] of such an encoder. *)
Definition at_part (d : bytes) (self : MultipartEncoder.t) (i : nat) : Prop :=
  MultipartEncoder._encoded_boundary self = PyBytes d
  /\ buffer_ok (MultipartEncoder._buffer self)
  /\ Forall (fun p => body_ok (Part_body p) /\ 0 <= body_len (Part_body p))
            (MultipartEncoder._parts self)
  /\ MultipartEncoder._finished self = false
  /\ MultipartEncoder._current_part self = Some i
  /\ (i < List.length (MultipartEncoder._parts self))%nat
  /\ MultipartEncoder._iter_parts self = S i.

(** The bytes such an encoder has yet to return: the unread bytes of its
    buffer and, unless it is finished, what its current part has pending,
    the transitions to the parts after it and the closing bytes. *)
Definition remaining (d : bytes) (self : MultipartEncoder.t) : bytes :=
  BytesIO.unread (MultipartEncoder._buffer self)
  ++ (if MultipartEncoder._finished self then []
      else pending (MultipartEncoder.part_at self (cursor self))
           ++ closed (transitions d
                        (skipn (S (cursor self))
                               (MultipartEncoder._parts self)))).

(** A stream cut into pieces of the sizes asked for, one after the other; a
    negative size takes all that is left. *)
Fixpoint split_stream (sizes : list Z) (stream : bytes) : list bytes :=
  match sizes with
  | [] => []
  | size :: sizes' =>
      let data := taken size stream in
      data :: split_stream sizes' (skipn (List.length data) stream)
  end.

(** * Properties *)

(** ** The buffer *)

Lemma zlen_app {A : Type} (l1 l2 : list A) : zlen (l1 ++ l2) = zlen l1 + zlen l2.
Proof. unfold zlen. rewrite length_app. lia. Qed.

Lemma overwrite_at_end (st b : bytes) :
  BytesIO.overwrite st (List.length st) b = st ++ b.
Proof.
  unfold BytesIO.overwrite.
  rewrite firstn_all, Nat.sub_diag, skipn_all2 by lia.
  simpl. now rewrite app_nil_r.
Qed.

(** Appending bytes puts them after the stored bytes and leaves the position
    where it was. *)
Lemma append_bytes (s : CustomBytesIO.t) (b : bytes) :
  CustomBytesIO.append s (PyBytes b)
  = Ok (zlen b, BytesIO.mk (BytesIO.storage s ++ b) (BytesIO.pos s)).
Proof.
  unfold CustomBytesIO.append, reset_enter, reset_exit, BytesIO.write,
    BytesIO.write_bytes, BytesIO.seek_end, BytesIO.seek_set, BytesIO.tell,
    zlen. simpl.
  destruct b as [|x b].
  - simpl. now rewrite app_nil_r.
  - simpl. rewrite Z.add_0_r, Nat2Z.id, overwrite_at_end. reflexivity.
Qed.

(** A tuple is refused, whatever the buffer holds. *)
Lemma append_tuple (s : CustomBytesIO.t) (items : list bytes) :
  CustomBytesIO.append s (PyTuple items) = Raise TypeError.
Proof. reflexivity. Qed.

Lemma CustomBytesIO_len_eq (s : CustomBytesIO.t) :
  CustomBytesIO.len s = zlen (BytesIO.storage s) - Z.of_nat (BytesIO.pos s).
Proof.
  unfold CustomBytesIO.len, CustomBytesIO._get_end, BytesIO.seek_end,
    BytesIO.tell, zlen. simpl. rewrite Z.add_0_r, Nat2Z.id. reflexivity.
Qed.

(** ** Part bodies *)

Lemma total_len_body (b : sized_body) :
  total_len (object_of_body b) = Ok (body_len b).
Proof. destruct b; reflexivity. Qed.

Lemma total_len_part (p : Part.t) : total_len (OPart p) = Ok (Part_len p).
Proof. reflexivity. Qed.

Lemma skipn_length_Z {A : Type} (n : nat) (l : list A) :
  0 < zlen l - Z.of_nat n <-> skipn n l <> [].
Proof.
  unfold zlen. split.
  - intros H E. apply (f_equal (@List.length A)) in E.
    rewrite length_skipn in E. simpl in E. lia.
  - intros H. destruct (skipn n l) eqn:E; [congruence|].
    apply (f_equal (@List.length A)) in E. rewrite length_skipn in E.
    simpl in E. lia.
Qed.

Lemma remaining_gtb {A : Type} (n : nat) (l : list A) :
  (zlen l - Z.of_nat n >? 0) = negb (is_nil (skipn n l)).
Proof.
  destruct (Z.gtb_spec (zlen l - Z.of_nat n) 0) as [H|H].
  - apply skipn_length_Z in H. destruct (skipn n l); [congruence|reflexivity].
  - destruct (skipn n l) eqn:E; [reflexivity|].
    assert (0 < zlen l - Z.of_nat n) by (apply skipn_length_Z; congruence). lia.
Qed.

Lemma body_len_pos (b : sized_body) :
  body_ok b -> (body_len b >? 0) = negb (is_nil (body_unread b)).
Proof.
  intros Hok. destruct b as [s|w]; simpl in *.
  - rewrite CustomBytesIO_len_eq. apply remaining_gtb.
  - unfold FileWrapper.len, BinaryIO.tell, BinaryIO.size in *. rewrite Hok.
    apply remaining_gtb.
Qed.

Lemma body_read_spec (b : sized_body) (size : Z) :
  fst (body_read b size) = taken size (body_unread b)
  /\ body_unread (snd (body_read b size))
     = skipn (List.length (taken size (body_unread b))) (body_unread b)
  /\ (body_ok b -> body_ok (snd (body_read b size))).
Proof.
  destruct b as [s|w]; simpl.
  - unfold BytesIO.read, taken, BytesIO.unread. simpl.
    repeat split. now rewrite skipn_skipn, Nat.add_comm.
  - unfold FileWrapper.read, BinaryIO.read, taken. simpl.
    repeat split.
    + now rewrite skipn_skipn, Nat.add_comm.
    + intros H. exact H.
Qed.

(** ** Part.write_to *)

Lemma write_to_loop_eq (fuel : nat) (body : sized_body)
    (buffer : CustomBytesIO.t) (size written : Z) :
  Part.write_to_loop (S fuel) body buffer size written
  = (n <- total_len (object_of_body body) ;;
     if (n >? 0) && ((size =? -1) || (written <? size)) then
       let '(chunk, body') :=
         body_read body (if negb (size =? -1) then size - written else size) in
       '(k, buffer') <- CustomBytesIO.append buffer (PyBytes chunk) ;;
       Part.write_to_loop fuel body' buffer' size (written + k)
     else Ok (written, body, buffer)).
Proof. reflexivity. Qed.

Lemma write_to_loop_stop (fuel : nat) (body : sized_body)
    (buffer : CustomBytesIO.t) (size written : Z) :
  body_ok body ->
  body_unread body = [] \/ (size <> -1 /\ size <= written) ->
  Part.write_to_loop fuel body buffer size written = Ok (written, body, buffer).
Proof.
  intros Hok H.
  assert (Hc : (body_len body >? 0) && ((size =? -1) || (written <? size)) = false).
  { rewrite (body_len_pos _ Hok). destruct H as [H|[H1 H2]].
    - now rewrite H.
    - replace (size =? -1) with false by (symmetry; now apply Z.eqb_neq).
      replace (written <? size) with false by (symmetry; apply Z.ltb_ge; lia).
      now rewrite andb_false_r. }
  destruct fuel; cbn [Part.write_to_loop]; rewrite total_len_body;
    cbn [bind]; now rewrite Hc.
Qed.

Lemma write_to_loop_spec (fuel : nat) (body : sized_body)
    (buffer : CustomBytesIO.t) (size written : Z) :
  body_ok body -> (1 <= fuel)%nat ->
  let chunk := body_chunk size written (body_unread body) in
  exists body',
    Part.write_to_loop fuel body buffer size written
    = Ok (written + zlen chunk, body',
          BytesIO.mk (BytesIO.storage buffer ++ chunk) (BytesIO.pos buffer))
    /\ body_unread body' = skipn (List.length chunk) (body_unread body)
    /\ body_ok body'.
Proof.
  intros Hok Hfuel chunk. subst chunk.
  destruct fuel as [|fuel]; [lia|]. clear Hfuel.
  rewrite write_to_loop_eq, total_len_body. cbn [bind].
  rewrite (body_len_pos _ Hok).
  destruct (is_nil (body_unread body)) eqn:Hnil.
  - (* nothing left in the body *)
    destruct (body_unread body) eqn:Hun; [|discriminate].
    cbn [negb andb]. exists body. unfold body_chunk.
    destruct (size =? -1); rewrite ?firstn_nil; cbn [zlen List.length skipn];
      rewrite Z.add_0_r, app_nil_r; destruct buffer; auto.
  - cbn [negb andb].
    assert (Hne : body_unread body <> []) by (destruct (body_unread body); [discriminate|congruence]).
    destruct (body_read_spec body (if negb (size =? -1) then size - written else size))
      as (Hfst & Hsnd & Hok').
    specialize (Hok' Hok).
    destruct (body_read body (if negb (size =? -1) then size - written else size))
      as [chunk body'] eqn:Hr.
    cbn [fst snd] in *. unfold body_chunk.
    destruct (size =? -1) eqn:Hs; cbn [negb orb] in *.
    + (* unbounded: the rest of the body in one read *)
      apply Z.eqb_eq in Hs. subst size. unfold taken in *.
      change (-1 <? 0) with true in *. cbn iota in *.
      rewrite append_bytes. cbn [bind].
      rewrite write_to_loop_stop.
      * exists body'. subst chunk. repeat split; auto.
      * exact Hok'.
      * left. rewrite Hsnd. apply skipn_all.
    + destruct (written <? size) eqn:Hw.
      * (* bounded, budget not met: one read of the missing amount *)
        apply Z.ltb_lt in Hw. unfold taken in *.
        replace (size - written <? 0) with false in *
          by (symmetry; apply Z.ltb_ge; lia).
        rewrite append_bytes. cbn [bind].
        rewrite write_to_loop_stop.
        -- exists body'. subst chunk. repeat split; auto.
        -- exact Hok'.
        -- destruct (Nat.le_gt_cases (List.length (body_unread body))
                       (Z.to_nat (size - written))) as [Hle|Hgt].
           ++ left. rewrite Hsnd. rewrite firstn_all2 by exact Hle.
              apply skipn_all.
           ++ right. split; [now apply Z.eqb_neq|]. subst chunk.
              unfold zlen. rewrite length_firstn. lia.
      * (* bounded, budget already met by the headers *)
        apply Z.ltb_ge in Hw.
        replace (Z.to_nat (size - written)) with O by lia.
        cbn [firstn zlen List.length skipn].
        exists body. rewrite Z.add_0_r, app_nil_r. destruct buffer; auto.
Qed.

Lemma body_chunk_bound (size written : Z) (rest : bytes) :
  let chunk := body_chunk size written rest in
  (skipn (List.length chunk) rest = []
   \/ (size <> -1 /\ size <= written + zlen chunk))
  /\ (size <> -1 -> zlen chunk <= Z.max 0 (size - written)).
Proof.
  unfold body_chunk. destruct (size =? -1) eqn:Hs.
  - apply Z.eqb_eq in Hs. split; [left; apply skipn_all | congruence].
  - apply Z.eqb_neq in Hs. unfold zlen. rewrite length_firstn. split.
    + destruct (Nat.le_gt_cases (List.length rest) (Z.to_nat (size - written))).
      * left. apply skipn_all2. lia.
      * right. split; [exact Hs | lia].
    + intros _. lia.
Qed.

(** C7.  For every Part whose wrapped handle reports its true size and every
    budget [size], [write_to] returns, and
    - when the headers are unsent it appends the whole header block first, in
      one piece, even if that alone exceeds the budget, and it leaves the
      headers marked as sent; when they are already sent it appends no header
      byte;
    - after the headers it appends body bytes until the body is exhausted or
      the bytes written by the call reach the budget;
    - the number it returns is the number of bytes appended: the header block,
      if it was unsent, plus the body bytes, so it exceeds the budget by at
      most the size of the header block. *)
Theorem C7_write_to_headers_then_body (fuel : nat) (p : Part.t)
    (buffer : CustomBytesIO.t) (size : Z) :
  body_ok (Part_body p) -> (1 <= fuel)%nat ->
  let hdr := if Part_headers_unread p then Part_headers p else [] in
  let chunk := body_chunk size (zlen hdr) (body_unread (Part_body p)) in
  exists body',
    Part.write_to fuel p buffer size
    = Ok (zlen hdr + zlen chunk,
          mkPart (Part_headers p) body' false (Part_len p),
          BytesIO.mk (BytesIO.storage buffer ++ hdr ++ chunk)
                     (BytesIO.pos buffer))
    /\ body_unread body'
       = skipn (List.length chunk) (body_unread (Part_body p))
    /\ body_ok body'
    /\ (body_unread body' = []
        \/ (size <> -1 /\ size <= zlen hdr + zlen chunk))
    /\ (size <> -1 -> zlen chunk <= Z.max 0 (size - zlen hdr)).
Proof.
  intros Hok Hfuel hdr chunk.
  destruct (body_chunk_bound size (zlen hdr) (body_unread (Part_body p)))
    as [Hstop Hbound]. fold chunk in Hstop, Hbound.
  unfold Part.write_to.
  destruct (Part_headers_unread p) eqn:Hu.
  - rewrite append_bytes. cbn [bind Part_body Part_headers Part_headers_unread Part_len].
    destruct (write_to_loop_spec fuel (Part_body p)
                (BytesIO.mk (BytesIO.storage buffer ++ Part_headers p) (BytesIO.pos buffer))
                size (0 + zlen (Part_headers p)) Hok Hfuel)
      as (body' & Hloop & Hun & Hok').
    rewrite Hloop. cbn [bind]. exists body'.
    subst hdr chunk. cbn [BytesIO.storage BytesIO.pos] in *.
    rewrite Z.add_0_l in *. rewrite <- app_assoc.
    repeat split; auto. rewrite Hun. exact Hstop.
  - cbn [bind].
    destruct (write_to_loop_spec fuel (Part_body p) buffer size 0 Hok Hfuel)
      as (body' & Hloop & Hun & Hok').
    rewrite Hloop. cbn [bind]. exists body'.
    subst hdr chunk. change (zlen (@nil byte)) with 0 in *.
    rewrite Hu. cbn [app]. rewrite Z.add_0_l in *.
    repeat split; auto. rewrite Hun. exact Hstop.
Qed.

Lemma C7_witness :
  body_ok (Part_body example_part) /\ (1 <= 1)%nat
  /\ exists body',
       Part.write_to 1 example_part example_buffer 6
       = Ok (4 + 2,
             mkPart [x48; x3a; CR; LF] body' false 7,
             BytesIO.mk ([DASH; DASH; x58; CR; LF]
                           ++ [x48; x3a; CR; LF] ++ [x6c; x6c]) 3)
       /\ body_unread body' = [x6f]
       /\ body_ok body'
       /\ (body_unread body' = [] \/ (6 <> -1 /\ 6 <= 4 + 2))
       /\ (6 <> -1 -> 2 <= Z.max 0 (6 - 4)).
Proof.
  split; [reflexivity|]. split; [lia|].
  apply (C7_write_to_headers_then_body 1 example_part example_buffer 6);
    [reflexivity | lia].
Defined.

(** ** Construction *)

Section ConstructionFacts.

Import MultipartEncoder.

Variable render_headers : RequestField -> string.
Variable utf8_decode : bytes -> string.
Variable choose_boundary : string.

Local Abbreviation from_field := (from_field render_headers).
Local Abbreviation _iter_fields_step := (_iter_fields_step utf8_decode).
Local Abbreviation parts_of := (parts_of render_headers utf8_decode).
Local Abbreviation init_attributes :=
  (init_attributes render_headers utf8_decode choose_boundary).
Local Abbreviation __init__ :=
  (__init__ render_headers utf8_decode choose_boundary).

Lemma total_len_handle (f : BinaryIO.t) :
  total_len (OBinaryIO f)
  = if exposes_size (DBinaryIO f) then Ok (BinaryIO.size f)
    else Raise ValueError_UnableToComputeSize.
Proof.
  unfold total_len, exposes_size. simpl.
  destruct (BinaryIO.has_dunder_len f), (BinaryIO.has_len f),
    (BinaryIO.fileno_supported f), (BinaryIO.has_getvalue f); reflexivity.
Qed.

Lemma coerce_data_spec (d : data) (enc : codec) :
  if exposes_size d
  then exists b, coerce_data d enc = Ok b /\ body_ok b
  else coerce_data d enc = Raise ValueError_UnableToComputeSize.
Proof.
  destruct d as [s|b|s|s|f];
    try (simpl exposes_size; eexists; split; [reflexivity | exact I]).
  pose proof (total_len_handle f) as H.
  destruct (exposes_size (DBinaryIO f)); unfold coerce_data, FileWrapper_init;
    rewrite H; cbn [bind]; [|reflexivity].
  eexists; split; [reflexivity | reflexivity].
Qed.

Lemma from_field_spec (f : RequestField) (enc : codec) :
  if exposes_size (rf_data f)
  then exists p, from_field f enc = Ok p /\ fresh_part p
                 /\ Part_headers p = str_encode enc (render_headers f)
  else from_field f enc = Raise ValueError_UnableToComputeSize.
Proof.
  unfold MultipartEncoder.from_field.
  pose proof (coerce_data_spec (rf_data f) enc) as H.
  destruct (exposes_size (rf_data f)).
  - destruct H as (b & -> & Hok). cbn [bind].
    unfold Part.__init__. rewrite total_len_body. cbn [bind].
    eexists; split; [reflexivity|]. repeat split; auto.
  - now rewrite H.
Qed.

Lemma _iter_fields_step_spec (k : string) (v : field_value) :
  match field_data v with
  | Some d => exists f, _iter_fields_step (k, v) = Ok f
                        /\ rf_data f = d /\ rf_name f = k
  | None => _iter_fields_step (k, v) = Raise ValueError_unpack
  end.
Proof.
  destruct v; simpl; try reflexivity;
    (eexists; split; [reflexivity | split; reflexivity]).
Qed.


(** What [__init__] has set when it reaches its last statement. *)
Lemma init_attributes_spec (fields : Fields) (boundary : option string)
    (enc : codec) (default_iter_size : Z) (self : t) :
  init_attributes fields boundary enc default_iter_size = Ok self ->
  parts_of enc (items_of fields) = Ok (_parts self)
  /\ _encoded_boundary self
     = PyTuple [str_encode enc (_boundary self ++ crlf)]
  /\ _boundary self = ("--" ++ _boundary_value self)%string
  /\ _buffer self = BytesIO.mk [] 0
  /\ _finished self = false /\ _current_part self = None
  /\ _iter_parts self = O /\ _len self = None
  /\ _iter_read_size self = default_iter_size.
Proof.
  unfold MultipartEncoder.init_attributes, _prepare_parts.
  cbn [_enc _fields].
  destruct (MultipartEncoder.parts_of _ _ enc (items_of fields)) as [ps|e|];
    cbn [bind]; try discriminate.
  intros [= <-]. repeat split.
Qed.

(** The last statement of [__init__] hands the tuple to [BytesIO.write]. *)
Lemma init_raises (fields : Fields) (boundary : option string)
    (enc : codec) (default_iter_size : Z) :
  __init__ fields boundary enc default_iter_size
  = (self <- init_attributes fields boundary enc default_iter_size ;;
     Raise TypeError).
Proof.
  unfold MultipartEncoder.__init__.
  destruct (init_attributes fields boundary enc default_iter_size)
    as [self|e|] eqn:E; cbn [bind]; try reflexivity.
  apply init_attributes_spec in E. destruct E as (_ & Heb & _).
  unfold _write_boundary, _write. rewrite Heb, append_tuple. reflexivity.
Qed.

End ConstructionFacts.

(** ** C3: construction *)

Section ConstructionRaises.

Import MultipartEncoder.

Variable render_headers : RequestField -> string.
Variable utf8_decode : bytes -> string.
Variable choose_boundary : string.

Local Abbreviation from_field := (from_field render_headers).
Local Abbreviation parts_of := (parts_of render_headers utf8_decode).
Local Abbreviation init_attributes :=
  (init_attributes render_headers utf8_decode choose_boundary).
Local Abbreviation __init__ :=
  (__init__ render_headers utf8_decode choose_boundary).

Lemma parts_of_returns (enc : codec) (items : list (string * field_value)) :
  (exists ps, parts_of enc items = Ok ps)
  \/ parts_of enc items = Raise ValueError_unpack
  \/ parts_of enc items = Raise ValueError_UnableToComputeSize.
Proof.
  induction items as [|[k v] items IH].
  - left. now exists [].
  - cbn [MultipartEncoder.parts_of].
    pose proof (_iter_fields_step_spec utf8_decode k v) as Hstep.
    destruct (field_data v) as [d|].
    + destruct Hstep as (f & -> & _). cbn [bind].
      pose proof (from_field_spec render_headers f enc) as Hf.
      destruct (exposes_size (rf_data f)).
      * destruct Hf as (p & -> & _). cbn [bind].
        destruct IH as [[ps ->]|[->| ->]]; cbn [bind]; eauto.
      * rewrite Hf. cbn [bind]. auto.
    + rewrite Hstep. cbn [bind]. auto.
Qed.

Lemma init_attributes_returns (fields : Fields) (boundary : option string)
    (enc : codec) (default_iter_size : Z) :
  (exists self, init_attributes fields boundary enc default_iter_size = Ok self)
  \/ init_attributes fields boundary enc default_iter_size
     = Raise ValueError_unpack
  \/ init_attributes fields boundary enc default_iter_size
     = Raise ValueError_UnableToComputeSize.
Proof.
  unfold MultipartEncoder.init_attributes, _prepare_parts. cbn [_enc _fields].
  destruct (parts_of_returns enc (items_of fields)) as [[ps ->]|[->| ->]];
    cbn [bind]; eauto.
Qed.

(** C3.  The claim is that construction succeeds and leaves the delimiter
    line in the buffer.  The source stores a one-element tuple in
    [_encoded_boundary] (the trailing comma of line 218), and the last
    statement of [__init__] hands it to [BytesIO.write]: for every field
    collection, boundary, encoding and chunk size, construction raises.
    When the parts can be built the exception is TypeError, otherwise it is
    the exception of the first field that cannot be made into a part. *)
Theorem C3_construction_always_raises (fields : Fields)
    (boundary : option string) (enc : codec) (default_iter_size : Z) :
  __init__ fields boundary enc default_iter_size
  = (self <- init_attributes fields boundary enc default_iter_size ;;
     Raise TypeError)
  /\ exists e, __init__ fields boundary enc default_iter_size = Raise e.
Proof.
  split; [apply init_raises|]. rewrite init_raises.
  destruct (init_attributes_returns fields boundary enc default_iter_size)
    as [[self ->]|[->| ->]]; cbn [bind]; eauto.
Qed.

End ConstructionRaises.

(** [MultipartEncoder([("a", "1")], boundary="X")] raises TypeError. *)
Example construction_a1 :
  example_init fields_a1 (Some "X"%string) Utf8 32768 = Raise TypeError.
Proof. reflexivity. Qed.

(** ** C9: sizes that cannot be computed *)

Section SizeUnavailable.

Import MultipartEncoder.

Variable render_headers : RequestField -> string.
Variable utf8_decode : bytes -> string.
Variable choose_boundary : string.

Local Abbreviation from_field := (from_field render_headers).
Local Abbreviation parts_of := (parts_of render_headers utf8_decode).
Local Abbreviation init_attributes :=
  (init_attributes render_headers utf8_decode choose_boundary).
Local Abbreviation __init__ :=
  (__init__ render_headers utf8_decode choose_boundary).



End SizeUnavailable.


(** ** C8: the computed length *)

Lemma string_length_append (s1 s2 : string) :
  String.length (s1 ++ s2) = (String.length s1 + String.length s2)%nat.
Proof. induction s1 as [|c s1 IH]; simpl; [reflexivity | now rewrite IH]. Qed.

Lemma sum_total_len_eq (parts : list Part.t) :
  MultipartEncoder.sum_total_len parts = Ok (sum_Z (map Part_len parts)).
Proof.
  induction parts as [|p parts IH]; [reflexivity|].
  cbn [MultipartEncoder.sum_total_len map sum_Z].
  now rewrite total_len_part, IH.
Qed.

Lemma calculate_length_eq (self : MultipartEncoder.t) :
  let n := sum_Z (map Part_len (MultipartEncoder._parts self))
           + (Z.of_nat (String.length (MultipartEncoder._boundary self)) + 4)
             * (zlen (MultipartEncoder._parts self) + 1) in
  MultipartEncoder._calculate_length self
  = Ok (n, MultipartEncoder.set_len self (Some n)).
Proof.
  unfold MultipartEncoder._calculate_length.
  rewrite sum_total_len_eq. reflexivity.
Qed.

Section Length.

Import MultipartEncoder.

Variable render_headers : RequestField -> string.
Variable utf8_decode : bytes -> string.
Variable choose_boundary : string.

Local Abbreviation parts_of := (parts_of render_headers utf8_decode).
Local Abbreviation init_attributes :=
  (init_attributes render_headers utf8_decode choose_boundary).

Lemma parts_of_ok (enc : codec) (items : list (string * field_value))
    (ps : list Part.t) :
  parts_of enc items = Ok ps ->
  List.length ps = List.length items /\ Forall fresh_part ps.
Proof.
  revert ps. induction items as [|[k v] items IH]; intros ps.
  - intros [= <-]. split; [reflexivity | constructor].
  - cbn [MultipartEncoder.parts_of].
    destruct (_iter_fields_step utf8_decode (k, v)) as [f|e|];
      cbn [bind]; try discriminate.
    pose proof (from_field_spec render_headers f enc) as Hf.
    destruct (exposes_size (rf_data f)).
    + destruct Hf as (p & -> & Hp & _). cbn [bind].
      destruct (parts_of enc items) as [ps'|e|]; cbn [bind]; try discriminate.
      intros [= <-]. destruct (IH ps' eq_refl) as [Hlen Hfresh].
      split; [simpl; lia | now constructor].
    + rewrite Hf. discriminate.
Qed.

Lemma sum_fresh (ps : list Part.t) :
  Forall fresh_part ps ->
  sum_Z (map Part_len ps)
  = sum_Z (map (fun p => zlen (Part_headers p) + body_len (Part_body p)) ps).
Proof.
  induction 1 as [|p ps (_ & Hp & _) _ IH]; [reflexivity|].
  cbn [map sum_Z]. now rewrite Hp, IH.
Qed.

(** C8, as the code has it.  For a field collection with [N] parts the
    computed total length is the sum over the parts of header bytes plus body
    length, plus [N + 1] times an overhead of [len("--" + boundary) + 4]
    characters: that is two more than the length of the delimiter line
    [--boundary\r\n]. *)
Theorem C8_total_length_overhead (fields : Fields) (boundary : option string)
    (enc : codec) (size : Z) (self : t) :
  init_attributes fields boundary enc size = Ok self ->
  exists n,
    _calculate_length self = Ok (n, set_len self (Some n))
    /\ n = sum_Z (map (fun p => zlen (Part_headers p) + body_len (Part_body p))
                      (_parts self))
           + (Z.of_nat (String.length ("--" ++ _boundary_value self)) + 4)
             * (Z.of_nat (List.length (items_of fields)) + 1)
    /\ Z.of_nat (String.length ("--" ++ _boundary_value self)) + 4
       = Z.of_nat (String.length (_boundary self ++ crlf)) + 2.
Proof.
  intros Hinit.
  destruct (init_attributes_spec _ _ _ _ _ _ _ _ Hinit) as (Hparts & _ & Hb & _).
  destruct (parts_of_ok _ _ _ Hparts) as [Hlen Hfresh].
  eexists. split; [apply calculate_length_eq|].
  rewrite (sum_fresh _ Hfresh). unfold zlen. rewrite Hlen, Hb. split; [reflexivity|].
  rewrite !string_length_append. unfold crlf. cbn [String.length]. lia.
Qed.

End Length.

Lemma C8_witness :
  exists self n,
    example_init_attributes fields_a1 (Some "X"%string) Utf8 32768 = Ok self
    /\ MultipartEncoder._calculate_length self
       = Ok (n, MultipartEncoder.set_len self (Some n))
    /\ n = 42 + 1 + (3 + 4) * (1 + 1).
Proof.
  destruct (example_init_attributes fields_a1 (Some "X"%string) Utf8 32768)
    as [self| |] eqn:E; try discriminate.
  exists self.
  destruct (C8_total_length_overhead example_render_headers example_utf8_decode
              example_choose_boundary fields_a1 (Some "X"%string) Utf8 32768
              self E) as (n & Hcalc & Hn & _).
  exists n. split; [reflexivity|]. split; [exact Hcalc|].
  rewrite Hn. injection E as <-. reflexivity.
Defined.

(** C8 as it is worded fails on the empty field collection with boundary
    [X]: the code computes 7, the length of [--X--\r\n], whereas one delimiter
    line [--X\r\n] has 5 bytes. *)
Lemma C8_counterexample :
  exists self,
    example_init_attributes (Sequence []) (Some "X"%string) Utf8 32768 = Ok self
    /\ MultipartEncoder._calculate_length self
       = Ok (7, MultipartEncoder.set_len self (Some 7))
    /\ spec_total_length self = 5
    /\ MultipartEncoder._calculate_length self
       <> Ok (spec_total_length self,
              MultipartEncoder.set_len self (Some (spec_total_length self))).
Proof.
  eexists. split; [reflexivity|]. split; [reflexivity|].
  split; [reflexivity|]. discriminate.
Qed.

(** ** C5: reads of a finished encoder *)

Lemma content_length_set_buffer (self : MultipartEncoder.t) (b : CustomBytesIO.t) :
  content_length_value (MultipartEncoder.set_buffer self b)
  = content_length_value self.
Proof.
  unfold content_length_value, MultipartEncoder.content_length,
    MultipartEncoder.__len__.
  cbn [MultipartEncoder._len MultipartEncoder.set_buffer].
  destruct (MultipartEncoder._len self) as [n|];
    [destruct (n =? 0)|]; rewrite ?calculate_length_eq;
    cbn [bind MultipartEncoder._parts MultipartEncoder._boundary
         MultipartEncoder.set_buffer];
    match goal with |- context [?x <? 0] => destruct (x <? 0) end;
    reflexivity.
Qed.

Lemma firstn_add_skipn {A : Type} (a b : nat) (l : list A) :
  firstn a l ++ firstn b (skipn a l) = firstn (a + b) l.
Proof.
  revert l. induction a as [|a IH]; intros l; [reflexivity|].
  destruct l as [|x l]; simpl; [now rewrite firstn_nil | now rewrite IH].
Qed.

Lemma taken_prefix (size : Z) (rest : bytes) :
  taken size rest = firstn (List.length (taken size rest)) rest.
Proof.
  unfold taken. destruct (size <? 0).
  - now rewrite firstn_all.
  - rewrite length_firstn.
    destruct (Nat.le_gt_cases (Z.to_nat size) (List.length rest)).
    + now rewrite Nat.min_l.
    + rewrite Nat.min_r by lia. now rewrite !firstn_all2 by lia.
Qed.

(** One read of a finished encoder: bytes of the buffer, nothing loaded. *)
Lemma read_finished (fuel : nat) (self : MultipartEncoder.t) (size : Z) :
  MultipartEncoder._finished self = true ->
  let data := taken size (BytesIO.unread (MultipartEncoder._buffer self)) in
  MultipartEncoder.read fuel self size
  = Ok (data, advanced self (List.length data)).
Proof.
  intros Hfin. unfold MultipartEncoder.read. rewrite Hfin. reflexivity.
Qed.

Lemma advanced_unread (self : MultipartEncoder.t) (n : nat) :
  BytesIO.unread (MultipartEncoder._buffer (advanced self n))
  = skipn n (BytesIO.unread (MultipartEncoder._buffer self)).
Proof.
  unfold BytesIO.unread. simpl. now rewrite skipn_skipn, Nat.add_comm.
Qed.

Lemma advanced_advanced (self : MultipartEncoder.t) (n m : nat) :
  advanced (advanced self n) m = advanced self (n + m).
Proof. unfold advanced. simpl. now rewrite Nat.add_assoc. Qed.

(** C5.  Once [_finished] is set, any sequence of further reads returns
    without raising, and every read is served from the buffer alone: it
    returns the next bytes the buffer holds unread, as many as asked for (all
    that are left for a negative size, fewer when fewer are left), so the
    chunks are the consecutive pieces of the bytes the buffer already held
    unread.  Nothing but the position of the buffer changes (no part is
    touched, nothing is loaded, the encoder stays finished); the value of
    [content_length] stays the same; and when the buffer holds no unread
    byte, every read returns the empty bytes. *)
Theorem C5_finished_reads_only_drain_buffer (fuel : nat)
    (self : MultipartEncoder.t) (sizes : list Z) :
  MultipartEncoder._finished self = true ->
  let chunks :=
    split_stream sizes (BytesIO.unread (MultipartEncoder._buffer self)) in
  reads fuel self sizes
  = Ok (chunks, advanced self (List.length (List.concat chunks)))
  /\ List.concat chunks
     = firstn (List.length (List.concat chunks))
              (BytesIO.unread (MultipartEncoder._buffer self))
  /\ MultipartEncoder._finished
       (advanced self (List.length (List.concat chunks))) = true
  /\ content_length_value (advanced self (List.length (List.concat chunks)))
     = content_length_value self
  /\ (BytesIO.unread (MultipartEncoder._buffer self) = [] ->
      Forall (fun chunk => chunk = []) chunks).
Proof.
  revert self. induction sizes as [|size sizes IH]; intros self Hfin;
    cbv zeta.
  - cbn [split_stream reads List.concat List.length]. repeat split.
    + unfold advanced. rewrite Nat.add_0_r.
      destruct self as [? ? ? ? ? ? ? ? ? [? ?] ? ?]. reflexivity.
    + exact Hfin.
    + apply content_length_set_buffer.
    + constructor.
  - cbn [reads split_stream].
    rewrite (read_finished fuel self size Hfin). cbn [bind].
    set (data := taken size (BytesIO.unread (MultipartEncoder._buffer self))).
    destruct (IH (advanced self (List.length data)) Hfin)
      as (Hreads & Hprefix & _ & _ & Hempty).
    rewrite advanced_unread in Hreads, Hprefix, Hempty.
    set (chunks := split_stream sizes
                     (skipn (List.length data)
                        (BytesIO.unread (MultipartEncoder._buffer self)))) in *.
    rewrite Hreads. cbn [bind].
    cbn [List.concat]. rewrite length_app, advanced_advanced.
    split; [reflexivity|]. split; [|split; [|split]].
    + rewrite <- firstn_add_skipn. rewrite <- Hprefix. f_equal.
      apply taken_prefix.
    + exact Hfin.
    + apply content_length_set_buffer.
    + intros Hnil. constructor.
      * subst data. rewrite Hnil. unfold taken.
        destruct (size <? 0); [reflexivity | apply firstn_nil].
      * apply Hempty. rewrite Hnil. apply skipn_nil.
Qed.

Lemma C5_witness :
  exists self,
    finished_example = Ok self
    /\ MultipartEncoder._finished self = true
    /\ BytesIO.unread (MultipartEncoder._buffer self) = [DASH; CR; LF]
    /\ split_stream [2; 0; -1; 5] [DASH; CR; LF] = [[DASH; CR]; []; [LF]; []]
    /\ (let chunks :=
          split_stream [2; 0; -1; 5]
            (BytesIO.unread (MultipartEncoder._buffer self)) in
        reads 0 self [2; 0; -1; 5]
        = Ok (chunks, advanced self (List.length (List.concat chunks)))
        /\ List.concat chunks
           = firstn (List.length (List.concat chunks))
                    (BytesIO.unread (MultipartEncoder._buffer self))
        /\ MultipartEncoder._finished
             (advanced self (List.length (List.concat chunks))) = true
        /\ content_length_value
             (advanced self (List.length (List.concat chunks)))
           = content_length_value self
        /\ (BytesIO.unread (MultipartEncoder._buffer self) = [] ->
            Forall (fun chunk => chunk = []) chunks)).
Proof.
  eexists. split; [vm_compute; reflexivity|].
  split; [reflexivity|]. split; [reflexivity|]. split; [reflexivity|].
  apply C5_finished_reads_only_drain_buffer. reflexivity.
Defined.

(** ** C4: iteration *)

(** [__next__] is one [read] of the configured chunk size, unless the encoder
    is finished. *)
Lemma next_unfinished (fuel : nat) (self : MultipartEncoder.t) :
  MultipartEncoder._finished self = false ->
  MultipartEncoder.__next__ fuel self
  = MultipartEncoder.read fuel self (MultipartEncoder._iter_read_size self).
Proof. intros H. unfold MultipartEncoder.__next__. now rewrite H. Qed.

(** A finished encoder ends the iteration, whatever its buffer holds. *)
Lemma next_finished (fuel : nat) (self : MultipartEncoder.t) :
  MultipartEncoder._finished self = true ->
  MultipartEncoder.__next__ fuel self = Raise StopIteration.
Proof. intros H. unfold MultipartEncoder.__next__. now rewrite H. Qed.

Lemma iter_finished (steps fuel : nat) (self : MultipartEncoder.t) :
  MultipartEncoder._finished self = true ->
  MultipartEncoder.__iter__ steps fuel self = Ok ([], self).
Proof. intros H. destruct steps; simpl; now rewrite H. Qed.

(** C4.  The claim is that iteration ends only when the encoder is finished
    and its buffer is empty, so that no byte is dropped.  Each step is indeed
    one [read] of the chunk size, but [__iter__] and [__next__] test
    [_finished] alone.  The constructor hands out no encoder to iterate
    (C3); on the object it has set up by then for an empty field collection
    with boundary [X] and a chunk size of 1, iteration yields the one chunk
    [-] and ends while the buffer still holds the three unread bytes
    [-\r\n], which a [read()] of the same object returns. *)
Theorem C4_iteration_ends_with_unread_bytes :
  (forall fuel self,
     MultipartEncoder.__next__ fuel self
     = if MultipartEncoder._finished self then Raise StopIteration
       else MultipartEncoder.read fuel self
              (MultipartEncoder._iter_read_size self))
  /\ example_init (Sequence []) (Some "X"%string) Utf8 1 = Raise TypeError
  /\ exists self0 self1 self2,
    example_init_attributes (Sequence []) (Some "X"%string) Utf8 1 = Ok self0
    /\ MultipartEncoder.__next__ 2 self0
       = MultipartEncoder.read 2 self0 1
    /\ MultipartEncoder.__iter__ 3 2 self0 = Ok ([[DASH]], self1)
    /\ MultipartEncoder._finished self1 = true
    /\ BytesIO.unread (MultipartEncoder._buffer self1) = [DASH; CR; LF]
    /\ MultipartEncoder.__next__ 2 self1 = Raise StopIteration
    /\ MultipartEncoder.read 2 self1 (-1) = Ok ([DASH; CR; LF], self2)
    /\ MultipartEncoder.read 2 self0 (-1)
       = Ok ([DASH; DASH; CR; LF], self2).
Proof.
  split; [reflexivity|]. split; [reflexivity|].
  do 3 eexists. split; [vm_compute; reflexivity|].
  split; [reflexivity|]. split; [vm_compute; reflexivity|].
  repeat split.
Qed.

(** ** C1, C2, C6, C10: the stream of a constructed encoder *)

(** The delimiter as [__init__] stores it cannot be written. *)
Lemma write_boundary_tuple (self : MultipartEncoder.t) (items : list bytes) :
  MultipartEncoder._encoded_boundary self = PyTuple items ->
  MultipartEncoder._write_boundary self = Raise TypeError.
Proof.
  intros H. unfold MultipartEncoder._write_boundary, MultipartEncoder._write.
  now rewrite H, append_tuple.
Qed.

Section Stream.

Import MultipartEncoder.

Variable render_headers : RequestField -> string.
Variable utf8_decode : bytes -> string.
Variable choose_boundary : string.

Local Abbreviation parts_of := (parts_of render_headers utf8_decode).
Local Abbreviation _iter_fields_step := (_iter_fields_step utf8_decode).
Local Abbreviation init_attributes :=
  (init_attributes render_headers utf8_decode choose_boundary).
Local Abbreviation __init__ :=
  (__init__ render_headers utf8_decode choose_boundary).

(** Whatever is done with the new encoder is never reached. *)
Lemma after_init {A : Type} (k : t -> result A) (fields : Fields)
    (boundary : option string) (enc : codec) (size : Z) :
  (self <- __init__ fields boundary enc size ;; k self)
  = (self <- init_attributes fields boundary enc size ;; Raise TypeError).
Proof.
  rewrite init_raises.
  now destruct (init_attributes fields boundary enc size).
Qed.

(** [_prepare_parts] keeps the order of the fields: the k-th part carries the
    headers of the k-th field. *)
Lemma parts_of_order (enc : codec) (items : list (string * field_value))
    (ps : list Part.t) :
  parts_of enc items = Ok ps ->
  Forall2 (fun kv p => exists f, _iter_fields_step kv = Ok f
                                 /\ rf_name f = fst kv
                                 /\ Part_headers p
                                    = str_encode enc (render_headers f))
          items ps.
Proof.
  revert ps. induction items as [|[k v] items IH]; intros ps.
  - intros [= <-]. constructor.
  - cbn [MultipartEncoder.parts_of].
    pose proof (_iter_fields_step_spec utf8_decode k v) as Hstep.
    destruct (field_data v) as [d|].
    + destruct Hstep as (f & Hf & _ & Hname). rewrite Hf. cbn [bind].
      pose proof (from_field_spec render_headers f enc) as Hp.
      destruct (exposes_size (rf_data f)).
      * destruct Hp as (p & -> & _ & Hh). cbn [bind].
        destruct (parts_of enc items) as [ps'| |]; cbn [bind]; try discriminate.
        intros [= <-]. constructor; [|now apply IH].
        exists f. auto.
      * rewrite Hp. discriminate.
    + rewrite Hstep. discriminate.
Qed.

(** C1.  The claim is that the precomputed length equals the length of the
    drained stream.  No encoder comes out of the constructor (C3), so for
    every field collection [len(enc)] and [enc.read()] are never reached:
    construction raises TypeError, or the exception of the first field that
    cannot be made into a part. *)
Theorem C1_no_encoder_to_measure (fuel : nat) (fields : Fields)
    (boundary : option string) (enc : codec) (size : Z) :
  length_and_drain render_headers utf8_decode choose_boundary
    fuel fields boundary enc size
  = (self <- init_attributes fields boundary enc size ;; Raise TypeError)
  /\ exists e,
       length_and_drain render_headers utf8_decode choose_boundary
         fuel fields boundary enc size
       = Raise e.
Proof.
  unfold length_and_drain. rewrite after_init. split; [reflexivity|].
  destruct (init_attributes_returns render_headers utf8_decode choose_boundary
              fields boundary enc size) as [[self ->]|[->| ->]];
    cbn [bind]; eauto.
Qed.

(** C2.  The claim is that reads of [c] bytes and one unbounded read of a
    fresh encoder give the same bytes.  Neither run gets an encoder: both
    raise in the constructor (C3), for every chunk size and every field
    collection. *)
Theorem C2_no_encoder_to_read_in_chunks (steps fuel : nat) (c : Z)
    (fields : Fields) (boundary : option string) (enc : codec) (size : Z) :
  chunked_read render_headers utf8_decode choose_boundary
    steps fuel c fields boundary enc size
  = (self <- init_attributes fields boundary enc size ;; Raise TypeError)
  /\ single_read render_headers utf8_decode choose_boundary
       fuel fields boundary enc size
     = (self <- init_attributes fields boundary enc size ;; Raise TypeError).
Proof. unfold chunked_read, single_read. now rewrite !after_init. Qed.

(** C6.  [_prepare_parts] does put the parts in the order of the fields, but
    the stream the claim describes is never produced: the constructor raises
    (C3) before any byte can be read. *)
Theorem C6_parts_ordered_but_no_stream (fuel : nat) (fields : Fields)
    (boundary : option string) (enc : codec) (size : Z) :
  match parts_of enc (items_of fields) with
  | Ok ps =>
      Forall2 (fun kv p => exists f, _iter_fields_step kv = Ok f
                                     /\ rf_name f = fst kv
                                     /\ Part_headers p
                                        = str_encode enc (render_headers f))
              (items_of fields) ps
      /\ single_read render_headers utf8_decode choose_boundary
           fuel fields boundary enc size
         = Raise TypeError
  | Raise e =>
      single_read render_headers utf8_decode choose_boundary
        fuel fields boundary enc size
      = Raise e
  | Timeout => False
  end.
Proof.
  unfold single_read. rewrite after_init.
  unfold MultipartEncoder.init_attributes, _prepare_parts. cbn [_enc _fields].
  destruct (parts_of enc (items_of fields)) as [ps|e|] eqn:E; cbn [bind].
  - split; [now apply parts_of_order | reflexivity].
  - reflexivity.
  - destruct (parts_of_returns render_headers utf8_decode enc (items_of fields))
      as [[ps H]|[H|H]]; congruence.
Qed.

End Stream.

(** C10.  The claim is that the closing delimiter is always written over a
    trailing CRLF left by the first delimiter or by a part transition.
    Neither write happens.  For the fields [[("a", "1")]] with boundary [X]:
    construction leaves the buffer empty and its delimiter write raises
    TypeError; on the object set up so far, loading writes the part, appends
    the CRLF of the part transition and raises TypeError at the delimiter that
    should follow.  For an empty field collection, loading writes the closing
    bytes into the empty buffer, which then holds [--\r\n] and not
    [--X--\r\n]. *)
Theorem C10_no_delimiter_before_closing_write :
  exists self0 self1 self2,
    example_init_attributes fields_a1 (Some "X"%string) Utf8 32768 = Ok self0
    /\ BytesIO.storage (MultipartEncoder._buffer self0) = []
    /\ MultipartEncoder._write_boundary self0 = Raise TypeError
    /\ example_init fields_a1 (Some "X"%string) Utf8 32768 = Raise TypeError
    /\ MultipartEncoder._load 2 self0 (-1) = Raise TypeError
    /\ example_init_attributes (Sequence []) (Some "X"%string) Utf8 32768
       = Ok self1
    /\ MultipartEncoder._load 2 self1 (-1) = Ok self2
    /\ MultipartEncoder._finished self2 = true
    /\ BytesIO.storage (MultipartEncoder._buffer self2) = [DASH; DASH; CR; LF].
Proof.
  do 3 eexists. split; [vm_compute; reflexivity|].
  split; [reflexivity|]. split; [reflexivity|]. split; [reflexivity|].
  split; [reflexivity|]. split; [vm_compute; reflexivity|].
  split; [vm_compute; reflexivity|]. split; reflexivity.
Qed.

(** ** The loader on an object whose delimiter is a bytes object

    The lemmas of this part are about [_load] and [read] as they stand, on
    objects whose [_encoded_boundary] is the delimiter itself.  [__init__]
    builds no such object (C3); they show what the methods do with one. *)

Lemma update_nth_same {A : Type} (l : list A) (i : nat) (x d : A) :
  (i < List.length l)%nat -> nth i (MultipartEncoder.update l i x) d = x.
Proof.
  revert i. induction l as [|y l IH]; intros [|i] H; simpl in *; try lia; auto.
  apply IH. lia.
Qed.

Lemma update_skipn {A : Type} (l : list A) (i n : nat) (x : A) :
  (i < n)%nat -> skipn n (MultipartEncoder.update l i x) = skipn n l.
Proof.
  revert i n. induction l as [|y l IH]; intros [|i] [|n] H; simpl; try lia; auto.
  apply IH. lia.
Qed.

Lemma skipn_cons_nth {A : Type} (l : list A) (i : nat) (x : A) (rest : list A) :
  skipn i l = x :: rest ->
  nth_error l i = Some x /\ skipn (S i) l = rest /\ (i < List.length l)%nat.
Proof.
  revert i. induction l as [|y l IH]; intros [|i] H; simpl in *; try discriminate.
  - injection H as -> ->. repeat split. lia.
  - destruct (IH i H) as (H1 & H2 & H3). repeat split; auto. lia.
Qed.

Lemma skipn_nil_nth {A : Type} (l : list A) (i : nat) :
  skipn i l = [] -> nth_error l i = None.
Proof.
  intros H. apply nth_error_None.
  apply (f_equal (@List.length A)) in H. rewrite length_skipn in H.
  simpl in H. lia.
Qed.

Lemma write_closing_boundary_eq (self : MultipartEncoder.t) :
  MultipartEncoder._write_closing_boundary self
  = (2, MultipartEncoder.set_buffer self
          (BytesIO.mk (closed (BytesIO.storage (MultipartEncoder._buffer self)))
                      (BytesIO.pos (MultipartEncoder._buffer self)))).
Proof.
  unfold MultipartEncoder._write_closing_boundary, reset_enter, reset_exit,
    closed, BytesIO.seek_end, BytesIO.seek_set, BytesIO.tell,
    BytesIO.write_bytes.
  cbn [BytesIO.storage BytesIO.pos]. reflexivity.
Qed.

Lemma closed_crlf (st : bytes) : closed (st ++ CRLF) = st ++ closing_bytes.
Proof.
  unfold closed, BytesIO.overwrite, zlen.
  rewrite length_app. cbn [List.length CRLF].
  replace (Z.to_nat (Z.of_nat (List.length st + 2) + -2)) with (List.length st) by lia.
  rewrite firstn_app, firstn_all, Nat.sub_diag. cbn [firstn].
  replace (List.length st - (List.length st + 2))%nat with O by lia.
  rewrite skipn_all2 by (rewrite length_app; simpl; lia).
  cbn [repeat app]. now rewrite !app_nil_r.
Qed.

Lemma write_bytes_eq (self : MultipartEncoder.t) (b : bytes) :
  MultipartEncoder._write self (PyBytes b)
  = Ok (zlen b,
        MultipartEncoder.set_buffer self
          (BytesIO.mk (BytesIO.storage (MultipartEncoder._buffer self) ++ b)
                      (BytesIO.pos (MultipartEncoder._buffer self)))).
Proof. unfold MultipartEncoder._write. now rewrite append_bytes. Qed.

(** An unbounded [write_to] moves everything the part has pending. *)
Lemma write_to_unbounded (fuel : nat) (p : Part.t) (buffer : CustomBytesIO.t) :
  body_ok (Part_body p) -> (1 <= fuel)%nat ->
  exists body',
    Part.write_to fuel p buffer (-1)
    = Ok (zlen (pending p),
          mkPart (Part_headers p) body' false (Part_len p),
          BytesIO.mk (BytesIO.storage buffer ++ pending p) (BytesIO.pos buffer))
    /\ body_unread body' = [] /\ body_ok body'.
Proof.
  intros Hok Hfuel. unfold Part.write_to, pending.
  destruct (Part_headers_unread p) eqn:Hu.
  - rewrite append_bytes.
    cbn [bind Part_body Part_headers Part_headers_unread Part_len].
    destruct (write_to_loop_spec fuel (Part_body p)
                (BytesIO.mk (BytesIO.storage buffer ++ Part_headers p)
                            (BytesIO.pos buffer))
                (-1) (0 + zlen (Part_headers p)) Hok Hfuel)
      as (body' & Hloop & Hun & Hok').
    rewrite Hloop. cbn [bind]. exists body'.
    unfold body_chunk in *. change (-1 =? -1) with true in *. cbn iota in *.
    cbn [BytesIO.storage BytesIO.pos].
    rewrite zlen_app, <- app_assoc, Z.add_0_l.
    repeat split; auto. rewrite Hun. apply skipn_all.
  - cbn [bind].
    destruct (write_to_loop_spec fuel (Part_body p) buffer (-1) 0 Hok Hfuel)
      as (body' & Hloop & Hun & Hok').
    rewrite Hloop. cbn [bind]. exists body'.
    unfold body_chunk in *. change (-1 =? -1) with true in *. cbn iota in *.
    rewrite Hu. cbn [app]. rewrite Z.add_0_l.
    repeat split; auto. rewrite Hun. apply skipn_all.
Qed.

Lemma bytes_left_exhausted (p : Part.t) :
  body_ok (Part_body p) -> pending p = [] ->
  Part.bytes_left_to_write p = Ok false.
Proof.
  intros Hok Hp. unfold pending in Hp. apply app_eq_nil in Hp.
  destruct Hp as [Hh Hb].
  unfold Part.bytes_left_to_write. rewrite total_len_body. cbn [bind].
  f_equal.
  pose proof (body_len_pos _ Hok) as Hlen. rewrite Hb in Hlen. cbn in Hlen.
  destruct (Part_headers_unread p); [rewrite Hh|];
    change (zlen (@nil byte)) with 0; rewrite ?Z.add_0_l; exact Hlen.
Qed.

Lemma bytes_left_pending (p : Part.t) :
  body_ok (Part_body p) -> 0 <= body_len (Part_body p) ->
  Part.bytes_left_to_write p = Ok (negb (is_nil (pending p))).
Proof.
  intros Hok Hnn. unfold Part.bytes_left_to_write, pending.
  rewrite total_len_body. cbn [bind]. f_equal.
  pose proof (body_len_pos _ Hok) as Hlen.
  destruct (Part_headers_unread p).
  - destruct (Part_headers p) as [|x h] eqn:Hh.
    + exact Hlen.
    + cbn [app is_nil negb]. rewrite Z.add_0_l, Z.gtb_ltb. apply Z.ltb_lt.
      unfold zlen. cbn [List.length]. lia.
  - exact Hlen.
Qed.

Lemma load_loop_eq (fuel : nat) (self : MultipartEncoder.t)
    (part : option nat) (amount : Z) :
  MultipartEncoder._load_loop (S fuel) self part amount
  = if (amount =? -1) || (amount >? 0) then
      '(written, part, self) <-
        (match part with
         | Some i =>
             left <- Part.bytes_left_to_write (MultipartEncoder.part_at self i) ;;
             if negb left then
               '(k1, self) <- MultipartEncoder._write self (PyBytes CRLF) ;;
               '(k2, self) <- MultipartEncoder._write_boundary self ;;
               let '(part, self) := MultipartEncoder._next_part self in
               Ok (0 + k1 + k2, part, self)
             else Ok (0, part, self)
         | None => Ok (0, part, self)
         end) ;;
      match part with
      | None =>
          let '(k, self) := MultipartEncoder._write_closing_boundary self in
          Ok (MultipartEncoder.set_finished self true)
      | Some i =>
          '(k, p, b) <-
            Part.write_to (S fuel) (MultipartEncoder.part_at self i)
              (MultipartEncoder._buffer self) amount ;;
          let self :=
            MultipartEncoder.set_buffer (MultipartEncoder.set_part self i p) b in
          let written := written + k in
          let amount := if negb (amount =? -1) then amount - written
                        else amount in
          MultipartEncoder._load_loop fuel self part amount
      end
    else Ok self.
Proof. reflexivity. Qed.

Section DelimiterAsBytes.

Import MultipartEncoder.

(** The delimiter line. *)
Variable d : bytes.

(** After a part transition: the loader, called with an unbounded amount on
    an exhausted current part, appends the transitions to the parts that
    follow, closes the body and finishes. *)
Lemma load_loop_after_exhausted (rest : list Part.t) :
  forall (self : t) (i fuel : nat),
    _encoded_boundary self = PyBytes d ->
    _iter_parts self = S i ->
    skipn (S i) (_parts self) = rest ->
    pending (part_at self i) = [] ->
    body_ok (Part_body (part_at self i)) ->
    bodies_ok rest ->
    (List.length rest + 1 <= fuel)%nat ->
    exists self',
      _load_loop fuel self (Some i) (-1) = Ok self'
      /\ _buffer self'
         = BytesIO.mk (closed (BytesIO.storage (_buffer self)
                                 ++ transitions d rest))
                      (BytesIO.pos (_buffer self))
      /\ _finished self' = true.
Proof.
  induction rest as [|p rest IH]; intros self i fuel Hd Hiter Hrest Hpend Hok Hoks Hfuel;
    (destruct fuel as [|fuel]; [simpl in Hfuel; lia|]);
    rewrite load_loop_eq; change ((-1 =? -1) || (-1 >? 0)) with true; cbn iota;
    rewrite (bytes_left_exhausted _ Hok Hpend); cbn [bind negb];
    rewrite write_bytes_eq; cbn [bind];
    unfold _write_boundary; cbn [_encoded_boundary set_buffer]; rewrite Hd;
    rewrite write_bytes_eq; cbn [bind _buffer set_buffer BytesIO.storage BytesIO.pos];
    unfold _next_part; cbn [_parts _iter_parts set_buffer]; rewrite Hiter.
  - (* no part follows: the closing delimiter *)
    rewrite (skipn_nil_nth _ _ Hrest). cbn [bind].
    rewrite write_closing_boundary_eq.
    cbn [_buffer set_buffer set_finished BytesIO.storage BytesIO.pos _finished].
    eexists. split; [reflexivity|]. split; [|reflexivity].
    cbn [transitions]. now rewrite <- app_assoc.
  - (* the next part is written whole, and is exhausted in its turn *)
    destruct (skipn_cons_nth _ _ _ _ Hrest) as (Hnth & Hrest' & Hlt).
    rewrite Hnth. cbn [bind].
    pose proof (Forall_inv Hoks) as Hokp. pose proof (Forall_inv_tail Hoks) as Hoks'.
    cbn beta in Hokp.
    unfold part_at at 1. cbn [_parts advance set_buffer _buffer].
    rewrite (nth_error_nth _ _ null_part Hnth).
    destruct (write_to_unbounded (S fuel) p
                (BytesIO.mk ((BytesIO.storage (_buffer self) ++ CRLF) ++ d)
                            (BytesIO.pos (_buffer self)))
                Hokp ltac:(lia)) as (body' & Hw & Hun & Hok').
    rewrite Hw. cbn [bind negb]. change (-1 =? -1) with true. cbn iota.
    match goal with
    | |- exists s, _load_loop fuel ?st _ _ = _ /\ _ =>
        destruct (IH st (S i) fuel) as (self' & Hload & Hbuf & Hfin)
    end.
    + exact Hd.
    + cbn [_iter_parts set_buffer set_part set_parts advance]. now rewrite Hiter.
    + cbn [_parts set_buffer set_part set_parts advance].
      rewrite update_skipn by lia. exact Hrest'.
    + unfold part_at. cbn [_parts set_buffer set_part set_parts advance].
      rewrite update_nth_same by exact Hlt.
      unfold pending. cbn [Part_headers_unread Part_body]. now rewrite Hun.
    + unfold part_at. cbn [_parts set_buffer set_part set_parts advance].
      rewrite update_nth_same by exact Hlt. exact Hok'.
    + exact Hoks'.
    + simpl in Hfuel. lia.
    + exists self'. split; [exact Hload|]. split; [|exact Hfin].
      rewrite Hbuf. cbn [_buffer set_buffer BytesIO.storage BytesIO.pos transitions].
      now rewrite <- !app_assoc.
Qed.

End DelimiterAsBytes.

Lemma smart_truncate_unread (st : bytes) :
  CustomBytesIO.smart_truncate (BytesIO.mk st 0) = BytesIO.mk st 0.
Proof.
  unfold CustomBytesIO.smart_truncate. rewrite CustomBytesIO_len_eq.
  unfold CustomBytesIO._get_end, BytesIO.seek_end, BytesIO.tell, zlen.
  cbn [BytesIO.storage BytesIO.pos].
  destruct st as [|x st]; [reflexivity|].
  replace (_ >=? _) with false; [reflexivity|].
  symmetry. rewrite Z.geb_leb. apply Z.leb_gt. cbn [List.length]. lia.
Qed.

Lemma transitions_flat_map (d : bytes) (p : Part.t) (rest : list Part.t) :
  pending p ++ transitions d rest
  = flat_map (fun p => pending p ++ CRLF ++ d) (p :: rest).
Proof.
  revert p. induction rest as [|q rest IH]; intros p; cbn [transitions flat_map].
  - now rewrite app_nil_r.
  - rewrite IH. cbn [flat_map]. now rewrite <- !app_assoc.
Qed.

(** One unbounded [read] of such an object returns the whole stream, the
    parts in the order of [_parts], and leaves the encoder finished with
    nothing unread. *)
Lemma read_all_delimiter_loaded (d : bytes) (self : MultipartEncoder.t)
    (fuel : nat) :
  delimiter_loaded d self ->
  (List.length (MultipartEncoder._parts self) + 2 <= fuel)%nat ->
  exists self',
    MultipartEncoder.read fuel self (-1)
    = Ok (multipart_stream d (MultipartEncoder._parts self), self')
    /\ MultipartEncoder._finished self' = true
    /\ BytesIO.unread (MultipartEncoder._buffer self') = [].
Proof.
  intros (Hd & Hbuf & Hfin & Hcur & Hiter & Hparts) Hfuel.
  assert (Hload : exists self1,
             MultipartEncoder._load fuel self (-1) = Ok self1
             /\ MultipartEncoder._buffer self1
                = BytesIO.mk (multipart_stream d (MultipartEncoder._parts self)) 0
             /\ MultipartEncoder._finished self1 = true).
  { unfold MultipartEncoder._load, multipart_stream.
    rewrite Hbuf, smart_truncate_unread.
    cbn [MultipartEncoder._current_part MultipartEncoder.set_buffer]. rewrite Hcur.
    unfold MultipartEncoder._next_part.
    cbn [MultipartEncoder._parts MultipartEncoder._iter_parts
         MultipartEncoder.set_buffer]. rewrite Hiter.
    destruct fuel as [|fuel]; [lia|].
    destruct (MultipartEncoder._parts self) as [|p rest] eqn:Eparts.
    - (* no parts: the closing bytes at once *)
      cbn [nth_error]. rewrite load_loop_eq.
      change ((-1 =? -1) || (-1 >? 0)) with true. cbn iota. cbn [bind].
      rewrite write_closing_boundary_eq.
      cbn [MultipartEncoder._buffer MultipartEncoder.set_buffer
           MultipartEncoder.set_finished BytesIO.storage BytesIO.pos
           MultipartEncoder._finished flat_map].
      rewrite app_nil_r. eauto.
    - cbn [nth_error].
      pose proof (Forall_inv Hparts) as [Hokp Hnn]. cbn beta in Hokp, Hnn.
      assert (Hoks : bodies_ok rest).
      { apply Forall_inv_tail in Hparts. revert Hparts. apply Forall_impl. tauto. }
      rewrite <- transitions_flat_map.
      destruct (is_nil (pending p)) eqn:Hnil.
      + (* the first part has nothing to write *)
        assert (Hpend : pending p = []) by (destruct (pending p); [reflexivity|discriminate]).
        rewrite Hpend. cbn [app].
        match goal with
        | |- exists s, MultipartEncoder._load_loop _ ?st _ _ = _ /\ _ =>
            destruct (load_loop_after_exhausted d rest st O (S fuel))
              as (self' & Hl & Hb & Hf)
        end; try (cbn; auto; fail).
        * cbn [MultipartEncoder._parts MultipartEncoder.advance
               MultipartEncoder.set_buffer]. now rewrite Eparts.
        * unfold MultipartEncoder.part_at.
          cbn [MultipartEncoder._parts MultipartEncoder.advance
               MultipartEncoder.set_buffer]. now rewrite Eparts.
        * unfold MultipartEncoder.part_at.
          cbn [MultipartEncoder._parts MultipartEncoder.advance
               MultipartEncoder.set_buffer]. now rewrite Eparts.
        * cbn [List.length] in Hfuel. lia.
        * exists self'. split; [exact Hl|]. split; [|exact Hf]. exact Hb.
      + (* the first part is written whole, then the transitions *)
        rewrite load_loop_eq.
        change ((-1 =? -1) || (-1 >? 0)) with true. cbn iota.
        unfold MultipartEncoder.part_at at 1.
        cbn [MultipartEncoder._parts MultipartEncoder.advance
             MultipartEncoder.set_buffer]. rewrite Eparts. cbn [nth].
        rewrite (bytes_left_pending p Hokp Hnn), Hnil. cbn [bind negb].
        unfold MultipartEncoder.part_at at 1.
        cbn [MultipartEncoder._parts MultipartEncoder.advance
             MultipartEncoder.set_buffer MultipartEncoder._buffer].
        rewrite Eparts. cbn [nth].
        destruct (write_to_unbounded (S fuel) p (BytesIO.mk d 0) Hokp ltac:(lia))
          as (body' & Hw & Hun & Hok').
        rewrite Hw. cbn [bind negb]. change (-1 =? -1) with true. cbn iota.
        match goal with
        | |- exists s, MultipartEncoder._load_loop _ ?st _ _ = _ /\ _ =>
            destruct (load_loop_after_exhausted d rest st O fuel)
              as (self' & Hl & Hb & Hf)
        end; try (cbn; auto; fail).
        * cbn [MultipartEncoder._parts MultipartEncoder.advance
               MultipartEncoder.set_part MultipartEncoder.set_parts
               MultipartEncoder.set_buffer]. now rewrite Eparts.
        * unfold MultipartEncoder.part_at.
          cbn [MultipartEncoder._parts MultipartEncoder.advance
               MultipartEncoder.set_part MultipartEncoder.set_parts
               MultipartEncoder.set_buffer]. rewrite Eparts.
          cbn [MultipartEncoder.update nth]. unfold pending.
          cbn [Part_headers_unread Part_body]. now rewrite Hun.
        * unfold MultipartEncoder.part_at.
          cbn [MultipartEncoder._parts MultipartEncoder.advance
               MultipartEncoder.set_part MultipartEncoder.set_parts
               MultipartEncoder.set_buffer]. rewrite Eparts.
          cbn [MultipartEncoder.update nth]. exact Hok'.
        * cbn [List.length] in Hfuel. lia.
        * exists self'. split; [exact Hl|]. split; [|exact Hf].
          rewrite Hb. cbn [MultipartEncoder._buffer MultipartEncoder.set_buffer
                           BytesIO.storage BytesIO.pos].
          now rewrite <- app_assoc. }
  destruct Hload as (self1 & Hl & Hb & Hf).
  unfold MultipartEncoder.read. rewrite Hfin. cbn [negb bind].
  change (negb (-1 =? -1)) with false. cbn iota. cbn [bind].
  rewrite Hl. cbn [bind]. rewrite Hb.
  unfold BytesIO.read, BytesIO.unread. cbn [BytesIO.storage BytesIO.pos skipn].
  change (-1 <? 0) with true. cbn iota.
  eexists. split; [reflexivity|]. split; [exact Hf|].
  cbn [MultipartEncoder._buffer MultipartEncoder.set_buffer BytesIO.storage
       BytesIO.pos]. apply skipn_all.
Qed.

Lemma str_encode_app (enc : codec) (s1 s2 : string) :
  str_encode enc (s1 ++ s2) = str_encode enc s1 ++ str_encode enc s2.
Proof.
  induction s1 as [|c s1 IH]; [reflexivity|].
  destruct enc; cbn [String.append str_encode]; rewrite IH;
    [now rewrite app_assoc | reflexivity].
Qed.

Lemma str_encode_crlf (enc : codec) : str_encode enc crlf = CRLF.
Proof. destruct enc; reflexivity. Qed.

Lemma str_encode_latin1_length (s : string) :
  zlen (str_encode Latin1 s) = Z.of_nat (String.length s).
Proof.
  unfold zlen. f_equal.
  induction s as [|c s IH]; [reflexivity|]. simpl. now rewrite IH.
Qed.

Lemma stream_ends_crlf (d0 : bytes) (ps : list Part.t) :
  forall pre, exists X,
    pre ++ CRLF ++ flat_map (fun p => pending p ++ CRLF ++ d0 ++ CRLF) ps
    = X ++ CRLF.
Proof.
  induction ps as [|p ps IH]; intros pre; cbn [flat_map].
  - exists pre. now rewrite app_nil_r.
  - destruct (IH (pre ++ CRLF ++ pending p ++ CRLF ++ d0)) as [X HX].
    exists X. rewrite <- HX. now rewrite <- !app_assoc.
Qed.

Lemma flat_map_length (d : bytes) (ps : list Part.t) :
  zlen (flat_map (fun p => pending p ++ CRLF ++ d) ps)
  = sum_Z (map (fun p => zlen (pending p)) ps) + (2 + zlen d) * zlen ps.
Proof.
  induction ps as [|p ps IH].
  - unfold zlen. cbn [flat_map map sum_Z List.length]. lia.
  - cbn [flat_map map sum_Z]. rewrite !zlen_app, IH.
    unfold zlen. cbn [List.length CRLF]. lia.
Qed.

(** The stream is as long as its pieces: the bytes of the parts, and a
    delimiter with a CRLF pair for every part and for the end. *)
Lemma multipart_stream_length (d0 : bytes) (ps : list Part.t) :
  let d := d0 ++ CRLF in
  zlen (multipart_stream d ps)
  = sum_Z (map (fun p => zlen (pending p)) ps) + (zlen d + 2) * (zlen ps + 1).
Proof.
  intros d. unfold multipart_stream. subst d.
  destruct (stream_ends_crlf d0 ps d0) as [X HX].
  rewrite <- app_assoc, HX, closed_crlf.
  assert (H : zlen (X ++ CRLF)
              = zlen (d0 ++ CRLF)
                + zlen (flat_map (fun p => pending p ++ CRLF ++ d0 ++ CRLF) ps)).
  { rewrite <- HX. rewrite <- zlen_app. now rewrite <- app_assoc. }
  rewrite flat_map_length in H. rewrite !zlen_app in *.
  unfold zlen in *. cbn [List.length CRLF closing_bytes] in *. lia.
Qed.

Lemma pending_fresh_length (p : Part.t) :
  fresh_part p -> 0 <= body_len (Part_body p) ->
  zlen (pending p) = Part_len p.
Proof.
  intros (Hu & Hlen & Hok) Hnn. unfold pending. rewrite Hu, zlen_app, Hlen.
  f_equal. destruct (Part_body p) as [s|w]; cbn [body_len body_unread body_ok] in *.
  - rewrite CustomBytesIO_len_eq in *. unfold BytesIO.unread, zlen in *.
    rewrite length_skipn. lia.
  - unfold FileWrapper.len, BinaryIO.tell, BinaryIO.size, zlen in *.
    rewrite length_skipn. lia.
Qed.

Section IntendedStream.

Import MultipartEncoder.

Variable render_headers : RequestField -> string.
Variable utf8_decode : bytes -> string.
Variable choose_boundary : string.

Local Abbreviation init_attributes :=
  (init_attributes render_headers utf8_decode choose_boundary).

(** With the delimiter line stored as bytes, and a codec that gives the
    boundary one byte per character, the length the encoder computes is the
    length of the stream one unbounded read returns, and the stream carries
    the parts in the order of the fields. *)
Lemma length_matches_stream_with_delimiter (fields : Fields)
    (boundary : option string) (enc : codec) (size : Z) (self : t)
    (fuel : nat) :
  init_attributes fields boundary enc size = Ok self ->
  Forall (fun p => 0 <= body_len (Part_body p)) (_parts self) ->
  let d := str_encode enc (_boundary self ++ crlf) in
  zlen d = Z.of_nat (String.length (_boundary self)) + 2 ->
  (List.length (_parts self) + 2 <= fuel)%nat ->
  exists self' n self'',
    read fuel (with_delimiter d self) (-1)
    = Ok (multipart_stream d (_parts self), self')
    /\ __len__ (with_delimiter d self) = Ok (n, self'')
    /\ n = zlen (multipart_stream d (_parts self)).
Proof.
  intros Hinit Hnn d Hd Hfuel.
  destruct (init_attributes_spec _ _ _ _ _ _ _ _ Hinit)
    as (Hparts & _ & _ & _ & Hfin & Hcur & Hiter & Hlen & _).
  destruct (parts_of_ok _ _ _ _ _ Hparts) as [_ Hfresh].
  assert (Hloaded : delimiter_loaded d (with_delimiter d self)).
  { repeat split; auto. cbn [_parts with_delimiter].
    rewrite Forall_forall in *. intros p Hp. split; [apply Hfresh | apply Hnn]; auto. }
  destruct (read_all_delimiter_loaded d (with_delimiter d self) fuel Hloaded Hfuel)
    as (self' & Hread & _).
  exists self'. do 2 eexists. split; [exact Hread|].
  unfold __len__. cbn [_len with_delimiter]. rewrite Hlen, calculate_length_eq.
  split; [reflexivity|]. cbn [_parts _boundary with_delimiter].
  subst d. rewrite str_encode_app, str_encode_crlf in *.
  rewrite multipart_stream_length.
  rewrite Hd. f_equal; [|lia].
  clear - Hfresh Hnn. induction Hfresh as [|p ps Hp _ IH]; [reflexivity|].
  cbn [map sum_Z]. rewrite pending_fresh_length; auto.
  - f_equal. apply IH. now apply Forall_inv_tail in Hnn.
  - now apply Forall_inv in Hnn.
Qed.

(** Latin-1 gives every character one byte: there the two always agree. *)
Lemma length_matches_stream_latin1 (fields : Fields)
    (boundary : option string) (size : Z) (self : t) (fuel : nat) :
  init_attributes fields boundary Latin1 size = Ok self ->
  Forall (fun p => 0 <= body_len (Part_body p)) (_parts self) ->
  (List.length (_parts self) + 2 <= fuel)%nat ->
  let d := str_encode Latin1 (_boundary self ++ crlf) in
  exists self' n self'',
    read fuel (with_delimiter d self) (-1)
    = Ok (multipart_stream d (_parts self), self')
    /\ __len__ (with_delimiter d self) = Ok (n, self'')
    /\ n = zlen (multipart_stream d (_parts self)).
Proof.
  intros Hinit Hnn Hfuel d.
  apply (length_matches_stream_with_delimiter fields boundary Latin1 size);
    auto.
  rewrite str_encode_latin1_length, string_length_append.
  unfold crlf. cbn [String.length]. lia.
Qed.

End IntendedStream.

(** With the delimiter stored as bytes, [[("a", "1")]] and boundary [X] give
    the stream [--X\r\n], headers, [1], [\r\n--X--\r\n], whose 57 bytes are
    the computed length. *)
Example stream_a1_with_delimiter :
  exists self self' self'',
    example_init_attributes fields_a1 (Some "X"%string) Utf8 1 = Ok self
    /\ MultipartEncoder.read 3 (with_delimiter [DASH; DASH; x58; CR; LF] self) (-1)
       = Ok ([DASH; DASH; x58; CR; LF]
               ++ str_encode Utf8 (example_render_headers
                                     (mkRequestField "a" (DStr "1") None None None))
               ++ [x31] ++ CRLF ++ [DASH; DASH; x58; DASH; DASH; CR; LF],
             self')
    /\ MultipartEncoder.__len__ (with_delimiter [DASH; DASH; x58; CR; LF] self)
       = Ok (57, self'').
Proof.
  do 3 eexists. split; [vm_compute; reflexivity|].
  split; [vm_compute; reflexivity | vm_compute; reflexivity].
Qed.

(** With the delimiter stored as bytes and no fields, reading four bytes at a
    time consumes the first byte of the trailing CRLF before the closing
    bytes are written: the buffer is compacted to the one byte [\n], the
    closing write starts at position 0, and the stream reads
    [--X\r--\r\n] instead of [--X--\r\n]. *)
Example chunked_read_without_fields :
  exists self self1 self2,
    example_init_attributes (Sequence []) (Some "X"%string) Utf8 1 = Ok self
    /\ MultipartEncoder.read 2 (with_delimiter delimiter_X self) (-1)
       = Ok ([DASH; DASH; x58; DASH; DASH; CR; LF], self1)
    /\ read_until_empty 5 2 (with_delimiter delimiter_X self) 4
       = Ok ([DASH; DASH; x58; CR; DASH; DASH; CR; LF], self2).
Proof.
  do 3 eexists. split; [vm_compute; reflexivity|].
  split; vm_compute; reflexivity.
Qed.

(** With the delimiter stored as bytes, iterating over the encoder of
    [[("a", "1")]] in chunks of one byte yields the stream up to the [\r]
    after the body and ends with [\n--X--\r\n] unread in the buffer. *)
Example iteration_a1_with_delimiter :
  exists self chunks self1 self2,
    example_init_attributes fields_a1 (Some "X"%string) Utf8 1 = Ok self
    /\ MultipartEncoder.__iter__ 60 3 (with_delimiter delimiter_X self)
       = Ok (chunks, self1)
    /\ BytesIO.unread (MultipartEncoder._buffer self1)
       = [LF; DASH; DASH; x58; DASH; DASH; CR; LF]
    /\ MultipartEncoder.read 3 (with_delimiter delimiter_X self) (-1)
       = Ok (List.concat chunks ++ [LF; DASH; DASH; x58; DASH; DASH; CR; LF],
             self2).
Proof.
  do 4 eexists. split; [vm_compute; reflexivity|].
  split; [vm_compute; reflexivity|].
  split; vm_compute; reflexivity.
Qed.

(** With the delimiter stored as bytes and the boundary [é] encoded as
    UTF-8, the stream of an empty field collection has 8 bytes and the
    computed length is 7: [len(self._boundary)] counts characters. *)
Example length_of_non_ascii_boundary :
  exists self d data self1 self2,
    example_init_attributes (Sequence [])
      (Some (String (ascii_of_nat 233) EmptyString)) Utf8 1 = Ok self
    /\ d = str_encode Utf8 (MultipartEncoder._boundary self ++ crlf)
    /\ MultipartEncoder.read 2 (with_delimiter d self) (-1) = Ok (data, self1)
    /\ zlen data = 8
    /\ MultipartEncoder.__len__ (with_delimiter d self) = Ok (7, self2).
Proof.
  do 5 eexists. split; [vm_compute; reflexivity|].
  split; [reflexivity|]. split; [vm_compute; reflexivity|].
  split; vm_compute; reflexivity.
Qed.

(** * Further properties of the module *)

(** ** _CustomBytesIO *)

(** X1.  [append] puts the bytes after everything stored, wherever the
    position is: the stored bytes and the position stay as they were, the
    number returned is the number of bytes given, the unread bytes and [len]
    grow by them; a tuple is refused with TypeError. *)
Theorem append_extends_without_moving (s : CustomBytesIO.t) (b : bytes) :
  exists s',
    CustomBytesIO.append s (PyBytes b) = Ok (zlen b, s')
    /\ BytesIO.storage s' = BytesIO.storage s ++ b
    /\ BytesIO.pos s' = BytesIO.pos s
    /\ CustomBytesIO.len s' = CustomBytesIO.len s + zlen b
    /\ (buffer_ok s -> BytesIO.unread s' = BytesIO.unread s ++ b)
    /\ forall items, CustomBytesIO.append s (PyTuple items) = Raise TypeError.
Proof.
  eexists. split; [apply append_bytes|].
  cbn [BytesIO.storage BytesIO.pos]. repeat split.
  - rewrite !CustomBytesIO_len_eq. cbn [BytesIO.storage BytesIO.pos].
    rewrite zlen_app. lia.
  - intros Hok. unfold BytesIO.unread, buffer_ok in *.
    cbn [BytesIO.storage BytesIO.pos]. rewrite skipn_app.
    replace (BytesIO.pos s - List.length (BytesIO.storage s))%nat with O by lia.
    reflexivity.
Qed.

(** What [smart_truncate] does to a buffer. *)
Lemma smart_truncate_spec (s : CustomBytesIO.t) :
  let s' := CustomBytesIO.smart_truncate s in
  BytesIO.unread s' = BytesIO.unread s
  /\ (List.length (BytesIO.storage s') <= List.length (BytesIO.storage s))%nat
  /\ ((BytesIO.pos s' = O /\ BytesIO.storage s' = BytesIO.unread s)
      \/ (s' = s
          /\ (2 * BytesIO.pos s < List.length (BytesIO.storage s))%nat)).
Proof.
  unfold CustomBytesIO.smart_truncate. rewrite CustomBytesIO_len_eq.
  unfold CustomBytesIO._get_end, BytesIO.seek_end, BytesIO.tell.
  cbn [BytesIO.storage BytesIO.pos].
  assert (Hlen : (List.length (BytesIO.unread s)
                  <= List.length (BytesIO.storage s))%nat).
  { unfold BytesIO.unread. rewrite length_skipn. lia. }
  match goal with |- context [if ?c then _ else _] => destruct c eqn:E end.
  - (* compaction *)
    unfold BytesIO.read, BytesIO.seek_set, BytesIO.truncate,
      BytesIO.write_bytes.
    change (-1 <? 0) with true. cbn iota.
    cbn [BytesIO.storage BytesIO.pos firstn].
    destruct (BytesIO.unread s) as [|x rest] eqn:Hun.
    + cbn [BytesIO.storage BytesIO.pos]. unfold BytesIO.unread.
      cbn [BytesIO.storage BytesIO.pos skipn List.length].
      split; [reflexivity|]. split; [lia|]. left. split; reflexivity.
    + cbn [BytesIO.storage BytesIO.pos]. unfold BytesIO.unread at 1.
      cbn [BytesIO.storage BytesIO.pos skipn].
      assert (Ho : BytesIO.overwrite [] 0 (x :: rest) = x :: rest).
      { unfold BytesIO.overwrite. cbn [firstn List.length Nat.sub repeat app].
        rewrite skipn_nil. now rewrite app_nil_r. }
      rewrite Ho. split; [reflexivity|]. split; [exact Hlen|].
      left. split; reflexivity.
  - (* nothing to drop *)
    rewrite Z.geb_leb in E. apply Z.leb_gt in E. unfold zlen in E.
    split; [reflexivity|]. split; [lia|]. right. split; [reflexivity|]. lia.
Qed.

(** X2.  [smart_truncate] never loses an unread byte.  Either it drops the
    consumed prefix, leaving exactly the unread bytes with the position at 0,
    or it leaves the buffer alone, and then fewer bytes are consumed than are
    unread; the stored bytes never grow. *)
Theorem smart_truncate_keeps_unread (s : CustomBytesIO.t) :
  let s' := CustomBytesIO.smart_truncate s in
  BytesIO.unread s' = BytesIO.unread s
  /\ (List.length (BytesIO.storage s') <= List.length (BytesIO.storage s))%nat
  /\ ((BytesIO.pos s' = O /\ BytesIO.storage s' = BytesIO.unread s)
      \/ (s' = s
          /\ (2 * BytesIO.pos s < List.length (BytesIO.storage s))%nat)).
Proof. exact (smart_truncate_spec s). Qed.

(** ** Part bodies *)

Lemma body_len_after_read (b : sized_body) (size : Z) :
  body_len (snd (body_read b size))
  = body_len b - zlen (taken size (body_unread b)).
Proof.
  destruct b as [s|w]; cbn [body_read body_len body_unread].
  - unfold BytesIO.read. cbn [snd body_len]. rewrite !CustomBytesIO_len_eq.
    cbn [BytesIO.storage BytesIO.pos]. unfold taken, BytesIO.unread, zlen.
    destruct (size <? 0); lia.
  - unfold FileWrapper.read, BinaryIO.read. cbn [snd body_len].
    unfold FileWrapper.len, BinaryIO.tell.
    cbn [FileWrapper.fd FileWrapper._total_len BinaryIO.pos].
    unfold taken, zlen. destruct (size <? 0); lia.
Qed.

Lemma body_len_unread (b : sized_body) :
  body_ok b -> 0 <= body_len b -> body_len b = zlen (body_unread b).
Proof.
  intros Hok Hnn. destruct b as [s|w]; cbn [body_len body_unread body_ok] in *.
  - rewrite CustomBytesIO_len_eq in *. unfold BytesIO.unread, zlen in *.
    rewrite length_skipn. lia.
  - unfold FileWrapper.len, BinaryIO.tell, BinaryIO.size, zlen in *.
    rewrite length_skipn. lia.
Qed.

Lemma taken_length (size : Z) (rest : bytes) :
  (List.length (taken size rest) <= List.length rest)%nat.
Proof.
  unfold taken. destruct (size <? 0); [lia|]. rewrite length_firstn. lia.
Qed.

(** X3.  A body whose position is within its content reports as its length
    exactly the number of bytes it has left to deliver; a read of [size]
    bytes, for a [size] that is -1 or not negative, delivers the first [size]
    of them (all of them for -1) and the reported length drops by the number
    delivered. *)
Theorem body_length_counts_unread (b : sized_body) (size : Z) :
  body_ok b -> 0 <= body_len b -> -1 <= size ->
  total_len (object_of_body b) = Ok (zlen (body_unread b))
  /\ fst (body_read b size) = taken size (body_unread b)
  /\ body_unread (snd (body_read b size))
     = skipn (List.length (fst (body_read b size))) (body_unread b)
  /\ body_len (snd (body_read b size))
     = body_len b - zlen (fst (body_read b size))
  /\ 0 <= body_len (snd (body_read b size))
  /\ body_ok (snd (body_read b size)).
Proof.
  intros Hok Hnn _.
  destruct (body_read_spec b size) as (Hfst & Hsnd & Hok').
  pose proof (body_len_unread b Hok Hnn) as Hlen.
  pose proof (body_len_after_read b size) as Hlen'.
  pose proof (taken_length size (body_unread b)) as Htaken.
  rewrite total_len_body, Hlen, Hfst. repeat split; auto.
  - now rewrite <- Hlen.
  - rewrite Hlen', Hlen. unfold zlen. lia.
Qed.

Lemma X3_witness :
  body_ok (BFileWrapper (FileWrapper.mk open_file 5))
  /\ 0 <= body_len (BFileWrapper (FileWrapper.mk open_file 5))
  /\ -1 <= 2
  /\ total_len (OFileWrapper (FileWrapper.mk open_file 5)) = Ok 3
  /\ fst (body_read (BFileWrapper (FileWrapper.mk open_file 5)) 2)
     = [x6c; x6c]
  /\ body_len (snd (body_read (BFileWrapper (FileWrapper.mk open_file 5)) 2))
     = 3 - 2.
Proof.
  split; [reflexivity|]. split; [cbv; discriminate|]. split; [lia|].
  destruct (body_length_counts_unread
              (BFileWrapper (FileWrapper.mk open_file 5)) 2)
    as (H1 & H2 & _ & H4 & _); [reflexivity | cbv; discriminate | lia |].
  split; [exact H1|]. split; [exact H2|]. exact H4.
Defined.

(** ** coerce_data and Part.from_field *)

(** The body [coerce_data] returns, by the kind of data. *)
Lemma coerce_data_bytes (d : data) (enc : codec) (b : sized_body) :
  coerce_data d enc = Ok b ->
  body_unread b = data_bytes enc d
  /\ body_ok b
  /\ (data_in_range d -> body_len b = zlen (data_bytes enc d)).
Proof.
  assert (Hinit : forall bs : bytes,
             body_len (BCustomBytesIO (BytesIO.init bs)) = zlen bs).
  { intros bs. cbn [body_len]. rewrite CustomBytesIO_len_eq.
    unfold BytesIO.init. cbn [BytesIO.storage BytesIO.pos]. lia. }
  destruct d as [s|bs|s|s|f]; cbn [coerce_data data_bytes data_in_range].
  - intros [= <-]. split; [reflexivity|]. split; [exact I|].
    intros _. apply Hinit.
  - intros [= <-]. split; [reflexivity|]. split; [exact I|].
    intros _. apply Hinit.
  - intros [= <-]. split; [reflexivity|]. split; [exact I|].
    intros _. apply Hinit.
  - intros [= <-]. repeat split. intros Hr. cbn [body_len].
    rewrite CustomBytesIO_len_eq. unfold buffer_ok, BytesIO.unread, zlen in *.
    rewrite length_skipn. lia.
  - unfold FileWrapper_init.
    destruct (total_len (OBinaryIO f)) as [n| |] eqn:E; cbn [bind];
      try discriminate.
    intros [= <-]. cbn [body_unread body_ok body_len FileWrapper.fd
                        FileWrapper._total_len].
    assert (Hn : n = BinaryIO.size f).
    { rewrite total_len_handle in E.
      destruct (exposes_size (DBinaryIO f)); congruence. }
    subst n. repeat split. intros Hr.
    unfold FileWrapper.len, BinaryIO.tell, BinaryIO.size, zlen.
    cbn [FileWrapper.fd FileWrapper._total_len].
    rewrite length_skipn. lia.
Qed.

(** X4.  The body [coerce_data] makes of the data of a field delivers: the
    encoded text of a [str]; a [bytes] as it is; the whole value of an
    [io.BytesIO], also when part of it was already read; and only what is
    left to read of a [_CustomBytesIO] or of a file handle, whose consumed
    bytes are not sent.  With the position of the data within its content,
    the length the body reports is the number of those bytes. *)
Theorem coerce_data_delivers (d : data) (enc : codec) (b : sized_body) :
  coerce_data d enc = Ok b ->
  body_unread b = data_bytes enc d
  /\ body_ok b
  /\ (data_in_range d -> body_len b = zlen (data_bytes enc d)).
Proof. exact (coerce_data_bytes d enc b). Qed.

Lemma X4_witness :
  coerce_data (DBytesIO (BytesIO.mk [x68; x69] 1)) Utf8
  = Ok (BCustomBytesIO (BytesIO.mk [x68; x69] 0))
  /\ body_unread (BCustomBytesIO (BytesIO.mk [x68; x69] 0)) = [x68; x69]
  /\ body_ok (BCustomBytesIO (BytesIO.mk [x68; x69] 0))
  /\ (data_in_range (DBytesIO (BytesIO.mk [x68; x69] 1)) ->
      body_len (BCustomBytesIO (BytesIO.mk [x68; x69] 0)) = 2).
Proof.
  split; [reflexivity|].
  apply (coerce_data_delivers (DBytesIO (BytesIO.mk [x68; x69] 1)) Utf8).
  reflexivity.
Defined.

Section PartConstruction.

Variable render_headers : RequestField -> string.

(** X5.  A part made from a field has everything still to write: the
    rendered headers, encoded, followed by the bytes of the data; and with
    the position of the data within its content, [Part.len] is the number of
    those bytes, so data partly consumed beforehand counts with its remainder
    only. *)
Theorem from_field_pending (f : RequestField) (enc : codec) (p : Part.t) :
  MultipartEncoder.from_field render_headers f enc = Ok p ->
  Part_headers p = str_encode enc (render_headers f)
  /\ Part_headers_unread p = true
  /\ pending p = str_encode enc (render_headers f) ++ data_bytes enc (rf_data f)
  /\ (data_in_range (rf_data f) -> Part_len p = zlen (pending p)).
Proof.
  unfold MultipartEncoder.from_field, Part.__init__.
  destruct (coerce_data (rf_data f) enc) as [b| |] eqn:E; cbn [bind];
    try discriminate.
  rewrite total_len_body. cbn [bind]. intros [= <-].
  destruct (coerce_data_bytes _ _ _ E) as (Hun & Hok & Hlen).
  unfold pending. cbn [Part_headers Part_headers_unread Part_body Part_len].
  rewrite Hun. repeat split. intros Hr. rewrite zlen_app, Hlen; auto.
Qed.

End PartConstruction.

Lemma X5_witness :
  exists p,
    MultipartEncoder.from_field example_render_headers
      (mkRequestField "f" (DBinaryIO open_file) None None None) Utf8 = Ok p
    /\ Part_headers_unread p = true
    /\ pending p
       = str_encode Utf8 (example_render_headers
                            (mkRequestField "f" (DBinaryIO open_file)
                                            None None None))
         ++ [x6c; x6c; x6f]
    /\ Part_len p = 42 + 3.
Proof.
  eexists. split; [reflexivity|].
  destruct (from_field_pending example_render_headers
              (mkRequestField "f" (DBinaryIO open_file) None None None) Utf8 _
              eq_refl) as (_ & H2 & H3 & H4).
  split; [exact H2|]. split; [exact H3|]. reflexivity.
Defined.

(** ** Part.bytes_left_to_write and Part.write_to *)

(** X6.  For a part whose body reports a length that is not negative,
    [bytes_left_to_write] answers True exactly when something is left to
    write: headers that are unsent and not empty, or unread bytes of the
    body. *)
Theorem bytes_left_iff_pending (p : Part.t) :
  body_ok (Part_body p) -> 0 <= body_len (Part_body p) ->
  (Part.bytes_left_to_write p = Ok true <-> pending p <> [])
  /\ (Part.bytes_left_to_write p = Ok false <-> pending p = []).
Proof.
  intros Hok Hnn. rewrite (bytes_left_pending p Hok Hnn).
  destruct (pending p) as [|x rest]; cbn [is_nil negb]; split; split;
    intros H; try reflexivity; try discriminate; congruence.
Qed.

Lemma X6_witness :
  body_ok (Part_body example_part) /\ 0 <= body_len (Part_body example_part)
  /\ Part.bytes_left_to_write example_part = Ok true
  /\ pending example_part <> [].
Proof.
  split; [reflexivity|]. split; [cbv; discriminate|].
  destruct (bytes_left_iff_pending example_part) as [[H1 H2] _];
    [reflexivity | cbv; discriminate |].
  split; [reflexivity|]. apply H1. reflexivity.
Defined.

Lemma body_chunk_prefix (size written : Z) (rest : bytes) :
  body_chunk size written rest
    ++ skipn (List.length (body_chunk size written rest)) rest
  = rest.
Proof.
  unfold body_chunk. destruct (size =? -1).
  - rewrite skipn_all. apply app_nil_r.
  - rewrite length_firstn.
    destruct (Nat.le_gt_cases (Z.to_nat (size - written)) (List.length rest)).
    + rewrite Nat.min_l by lia. apply firstn_skipn.
    + rewrite Nat.min_r by lia. rewrite firstn_all2, skipn_all by lia.
      apply app_nil_r.
Qed.

(** One call of [write_to] moves a prefix of what the part has pending. *)
Lemma write_to_conserves (fuel : nat) (p : Part.t) (buffer : CustomBytesIO.t)
    (size : Z) :
  body_ok (Part_body p) -> (1 <= fuel)%nat ->
  exists w p',
    Part.write_to fuel p buffer size
    = Ok (zlen w, p',
          BytesIO.mk (BytesIO.storage buffer ++ w) (BytesIO.pos buffer))
    /\ w ++ pending p' = pending p
    /\ body_ok (Part_body p')
    /\ Part_headers p' = Part_headers p
    /\ Part_len p' = Part_len p
    /\ Part_headers_unread p' = false.
Proof.
  intros Hok Hfuel. unfold Part.write_to, pending.
  destruct (Part_headers_unread p) eqn:Hu.
  - rewrite append_bytes.
    cbn [bind Part_body Part_headers Part_headers_unread Part_len].
    destruct (write_to_loop_spec fuel (Part_body p)
                (BytesIO.mk (BytesIO.storage buffer ++ Part_headers p)
                            (BytesIO.pos buffer))
                size (0 + zlen (Part_headers p)) Hok Hfuel)
      as (body' & Hloop & Hun & Hok').
    rewrite Hloop. cbn [bind].
    exists (Part_headers p
            ++ body_chunk size (0 + zlen (Part_headers p))
                 (body_unread (Part_body p))).
    eexists. cbn [BytesIO.storage BytesIO.pos].
    rewrite zlen_app, <- app_assoc, Z.add_0_l. split; [reflexivity|].
    cbn [Part_headers Part_headers_unread Part_body Part_len app].
    rewrite Hun, <- app_assoc, Z.add_0_l, body_chunk_prefix. auto.
  - cbn [bind].
    destruct (write_to_loop_spec fuel (Part_body p) buffer size 0 Hok Hfuel)
      as (body' & Hloop & Hun & Hok').
    rewrite Hloop. cbn [bind].
    exists (body_chunk size 0 (body_unread (Part_body p))). eexists.
    rewrite Z.add_0_l. split; [reflexivity|].
    cbn [Part_headers Part_headers_unread Part_body Part_len app].
    rewrite Hu. cbn [app]. rewrite Hun, body_chunk_prefix. auto.
Qed.

(** X7.  However [write_to] is called on a part, with whatever budgets, the
    bytes it appends are, in order and without gap or repetition, a prefix of
    what the part had to write, and what the part still has to write is the
    rest; the numbers returned add up to the bytes appended, the buffer's
    position and earlier content are untouched, and [Part.len] stays what it
    was. *)
Theorem write_to_sequence_conserves (fuel : nat) (sizes : list Z) :
  forall (p : Part.t) (buffer : CustomBytesIO.t),
    body_ok (Part_body p) -> (1 <= fuel)%nat ->
    exists w p',
      write_many fuel p buffer sizes
      = Ok (zlen w, p',
            BytesIO.mk (BytesIO.storage buffer ++ w) (BytesIO.pos buffer))
      /\ w ++ pending p' = pending p
      /\ Part_len p' = Part_len p
      /\ body_ok (Part_body p').
Proof.
  induction sizes as [|size sizes IH]; intros p buffer Hok Hfuel.
  - exists [], p. cbn [write_many app]. rewrite app_nil_r.
    destruct buffer. auto.
  - cbn [write_many].
    destruct (write_to_conserves fuel p buffer size Hok Hfuel)
      as (w1 & p1 & Hw & Hcons & Hok1 & _ & Hlen1 & _).
    rewrite Hw. cbn [bind].
    destruct (IH p1 (BytesIO.mk (BytesIO.storage buffer ++ w1)
                                (BytesIO.pos buffer)) Hok1 Hfuel)
      as (w2 & p2 & Hw2 & Hcons2 & Hlen2 & Hok2).
    rewrite Hw2. cbn [bind BytesIO.storage BytesIO.pos].
    exists (w1 ++ w2), p2. rewrite zlen_app, <- !app_assoc.
    split; [reflexivity|]. rewrite Hcons2, Hcons. split; [reflexivity|].
    split; [congruence | exact Hok2].
Qed.

Lemma X7_witness :
  body_ok (Part_body example_part) /\ (1 <= 1)%nat
  /\ exists w p',
       write_many 1 example_part example_buffer [2; 5; 0; -1]
       = Ok (zlen w, p',
             BytesIO.mk (BytesIO.storage example_buffer ++ w)
                        (BytesIO.pos example_buffer))
       /\ w ++ pending p' = pending example_part
       /\ Part_len p' = Part_len example_part
       /\ body_ok (Part_body p').
Proof.
  split; [reflexivity|]. split; [lia|].
  apply (write_to_sequence_conserves 1 [2; 5; 0; -1] example_part
           example_buffer); [reflexivity | lia].
Defined.

(** X8.  An unbounded [write_to] writes all the part has pending and
    exhausts it: afterwards [bytes_left_to_write] answers False, and any
    further [write_to], whatever its budget and buffer, appends nothing and
    returns 0. *)
Theorem write_to_unbounded_exhausts (fuel : nat) (p : Part.t)
    (buffer : CustomBytesIO.t) :
  body_ok (Part_body p) -> (1 <= fuel)%nat ->
  exists p',
    Part.write_to fuel p buffer (-1)
    = Ok (zlen (pending p), p',
          BytesIO.mk (BytesIO.storage buffer ++ pending p)
                     (BytesIO.pos buffer))
    /\ pending p' = []
    /\ Part.bytes_left_to_write p' = Ok false
    /\ forall (size : Z) (buffer' : CustomBytesIO.t),
         Part.write_to fuel p' buffer' size = Ok (0, p', buffer').
Proof.
  intros Hok Hfuel.
  destruct (write_to_unbounded fuel p buffer Hok Hfuel)
    as (body' & Hw & Hun & Hok').
  eexists. split; [exact Hw|].
  assert (Hpend : pending (mkPart (Part_headers p) body' false (Part_len p))
                  = []).
  { unfold pending. cbn [Part_headers_unread Part_body]. now rewrite Hun. }
  split; [exact Hpend|]. split.
  - apply bytes_left_exhausted; [exact Hok' | exact Hpend].
  - intros size buffer'. unfold Part.write_to.
    cbn [Part_headers_unread Part_body Part_headers Part_len bind].
    rewrite write_to_loop_stop; [reflexivity | exact Hok' | now left].
Qed.

Lemma X8_witness :
  body_ok (Part_body example_part) /\ (1 <= 1)%nat
  /\ exists p',
       Part.write_to 1 example_part example_buffer (-1)
       = Ok (zlen (pending example_part), p',
             BytesIO.mk (BytesIO.storage example_buffer ++ pending example_part)
                        (BytesIO.pos example_buffer))
       /\ pending p' = []
       /\ Part.bytes_left_to_write p' = Ok false
       /\ forall (size : Z) (buffer' : CustomBytesIO.t),
            Part.write_to 1 p' buffer' size = Ok (0, p', buffer').
Proof.
  split; [reflexivity|]. split; [lia|].
  apply (write_to_unbounded_exhausts 1 example_part example_buffer);
    [reflexivity | lia].
Defined.

(** ** MultipartEncoder: load amount, length, closing bytes *)

Lemma total_len_buffer (s : CustomBytesIO.t) :
  total_len (OCustomBytesIO s) = Ok (CustomBytesIO.len s).
Proof. reflexivity. Qed.

Lemma buffer_len_unread (s : CustomBytesIO.t) :
  buffer_ok s -> CustomBytesIO.len s = zlen (BytesIO.unread s).
Proof.
  intros Hok. rewrite CustomBytesIO_len_eq.
  unfold buffer_ok, BytesIO.unread, zlen in *. rewrite length_skipn. lia.
Qed.

(** X9.  [_calculate_load_amount] never raises and returns the shortfall of
    the buffer against the request, never a negative number: with the
    position within the buffer it is the requested size less the unread
    bytes, and it is 0 exactly when the buffer already holds enough. *)
Theorem load_amount_is_shortfall (self : MultipartEncoder.t) (read_size : Z) :
  exists amount,
    MultipartEncoder._calculate_load_amount self read_size = Ok amount
    /\ amount
       = Z.max 0 (read_size
                  - CustomBytesIO.len (MultipartEncoder._buffer self))
    /\ 0 <= amount
    /\ (buffer_ok (MultipartEncoder._buffer self) ->
        amount
        = Z.max 0 (read_size
                   - zlen (BytesIO.unread (MultipartEncoder._buffer self)))
        /\ (amount = 0
            <-> read_size
                <= zlen (BytesIO.unread (MultipartEncoder._buffer self)))).
Proof.
  unfold MultipartEncoder._calculate_load_amount.
  rewrite total_len_buffer. cbn [bind]. eexists. split; [reflexivity|].
  rewrite Z.gtb_ltb.
  destruct (Z.ltb_spec 0
              (read_size - CustomBytesIO.len (MultipartEncoder._buffer self)))
    as [H|H].
  - split; [lia|]. split; [lia|]. intros Hok.
    rewrite <- (buffer_len_unread _ Hok). lia.
  - split; [lia|]. split; [lia|]. intros Hok.
    rewrite <- (buffer_len_unread _ Hok). lia.
Qed.

Lemma set_len_same (self : MultipartEncoder.t) :
  MultipartEncoder.set_len self (MultipartEncoder._len self) = self.
Proof. destruct self; reflexivity. Qed.

(** X10.  [__len__] never raises, changes nothing but the cached [_len], and
    answers the same on the object it leaves.  A cached value other than 0 is
    returned as it is, whatever the parts are by then; with nothing cached,
    or 0 cached, the length is computed from the parts and cached. *)
Theorem len_is_cached (self : MultipartEncoder.t) :
  exists n self',
    MultipartEncoder.__len__ self = Ok (n, self')
    /\ MultipartEncoder.__len__ self' = Ok (n, self')
    /\ self' = MultipartEncoder.set_len self (MultipartEncoder._len self')
    /\ (forall c, MultipartEncoder._len self = Some c -> c <> 0 ->
                  n = c /\ self' = self)
    /\ (MultipartEncoder._len self = None
        \/ MultipartEncoder._len self = Some 0 ->
        n = sum_Z (map Part_len (MultipartEncoder._parts self))
            + (Z.of_nat (String.length (MultipartEncoder._boundary self)) + 4)
              * (zlen (MultipartEncoder._parts self) + 1)
        /\ MultipartEncoder._len self' = Some n).
Proof.
  pose proof (calculate_length_eq self) as Hc. cbv zeta in Hc.
  set (n := sum_Z (map Part_len (MultipartEncoder._parts self))
            + (Z.of_nat (String.length (MultipartEncoder._boundary self)) + 4)
              * (zlen (MultipartEncoder._parts self) + 1)) in *.
  assert (Hagain :
            MultipartEncoder.__len__ (MultipartEncoder.set_len self (Some n))
            = Ok (n, MultipartEncoder.set_len self (Some n))).
  { unfold MultipartEncoder.__len__. cbn [MultipartEncoder._len
      MultipartEncoder.set_len].
    destruct (n =? 0); [|reflexivity].
    pose proof (calculate_length_eq
                  (MultipartEncoder.set_len self (Some n))) as Hc'.
    cbv zeta in Hc'. destruct self; exact Hc'. }
  unfold MultipartEncoder.__len__.
  destruct (MultipartEncoder._len self) as [c|] eqn:Hlen.
  - destruct (Z.eqb_spec c 0) as [Hz|Hz].
    + exists n, (MultipartEncoder.set_len self (Some n)).
      split; [exact Hc|]. split; [exact Hagain|].
      split; [destruct self; reflexivity|].
      split; [intros c' [= <-] Hne; contradiction|].
      intros _. split; reflexivity.
    + exists c, self. split; [reflexivity|].
      split; [rewrite Hlen; apply Z.eqb_neq in Hz; now rewrite Hz|].
      split; [rewrite Hlen, <- Hlen; symmetry; apply set_len_same|].
      split; [intros c' [= <-] _; split; reflexivity|].
      intros [H|H]; [discriminate | congruence].
  - exists n, (MultipartEncoder.set_len self (Some n)).
    split; [exact Hc|]. split; [exact Hagain|].
    split; [destruct self; reflexivity|].
    split; [intros c' H; discriminate|].
    intros _. split; reflexivity.
Qed.

Lemma closed_eq (st : bytes) :
  closed st = firstn (List.length st - 2) st ++ closing_bytes.
Proof.
  unfold closed, BytesIO.overwrite, zlen.
  replace (Z.to_nat (Z.of_nat (List.length st) + -2))
    with (List.length st - 2)%nat by lia.
  replace (List.length st - 2 - List.length st)%nat with O by lia.
  rewrite skipn_all2 by (cbn [List.length closing_bytes]; lia).
  cbn [repeat app]. now rewrite app_nil_r.
Qed.

Lemma closed_app (a b : bytes) :
  (2 <= List.length b)%nat -> closed (a ++ b) = a ++ closed b.
Proof.
  intros Hb. rewrite !closed_eq, length_app, firstn_app.
  replace (List.length a + List.length b - 2 - List.length a)%nat
    with (List.length b - 2)%nat by lia.
  rewrite firstn_all2 by lia. now rewrite app_assoc.
Qed.

(** X11.  [_write_closing_boundary] returns 2 and leaves the position where
    it was; it replaces the last two stored bytes, whatever they are, by
    [--\r\n], so a buffer that ends in CRLF ends in the closing bytes
    afterwards, and a buffer that holds fewer than two bytes holds the four
    closing bytes alone. *)
Theorem closing_boundary_replaces_last_two (self : MultipartEncoder.t) :
  let st := BytesIO.storage (MultipartEncoder._buffer self) in
  let after :=
    firstn (List.length st - 2) st ++ [DASH; DASH; CR; LF] in
  MultipartEncoder._write_closing_boundary self
  = (2, MultipartEncoder.set_buffer self
          (BytesIO.mk after (BytesIO.pos (MultipartEncoder._buffer self))))
  /\ (forall st0 x y, st = st0 ++ [x; y] ->
                      after = st0 ++ [DASH; DASH; CR; LF])
  /\ ((List.length st < 2)%nat -> after = [DASH; DASH; CR; LF])
  /\ (List.length st <= List.length after <= List.length st + 4)%nat.
Proof.
  cbv zeta. rewrite write_closing_boundary_eq, closed_eq.
  split; [reflexivity|]. split; [|split].
  - intros st0 x y ->. rewrite length_app. cbn [List.length].
    replace (List.length st0 + 2 - 2)%nat with (List.length st0 + 0)%nat by lia.
    rewrite firstn_app_2. cbn [firstn]. now rewrite app_nil_r.
  - intros Hlt.
    replace (List.length (BytesIO.storage (MultipartEncoder._buffer self)) - 2)%nat
      with O by lia.
    reflexivity.
  - rewrite length_app, length_firstn. cbn [List.length]. lia.
Qed.

(** ** MultipartEncoder.read: what it leaves alone *)

Lemma evolves_refl (self : MultipartEncoder.t) : evolves self self.
Proof. unfold evolves. repeat split; auto. Qed.

Lemma evolves_trans (a b c : MultipartEncoder.t) :
  evolves a b -> evolves b c -> evolves a c.
Proof.
  unfold evolves.
  intros (A1 & A2 & A3 & A4 & A5 & A6 & A7 & A8 & A9 & A10 & A11)
         (B1 & B2 & B3 & B4 & B5 & B6 & B7 & B8 & B9 & B10 & B11).
  repeat split; try congruence; [lia | auto].
Qed.

Lemma evolves_set_buffer (self : MultipartEncoder.t) (b : CustomBytesIO.t) :
  evolves self (MultipartEncoder.set_buffer self b).
Proof. unfold evolves. cbn. repeat split; auto. Qed.

Lemma evolves_set_finished (self : MultipartEncoder.t) :
  evolves self (MultipartEncoder.set_finished self true).
Proof. unfold evolves. cbn. repeat split; auto. Qed.

Lemma evolves_advance (self : MultipartEncoder.t) :
  evolves self (MultipartEncoder.advance self).
Proof. unfold evolves. cbn. repeat split; auto. Qed.

Lemma map_update {A B : Type} (f : A -> B) (l : list A) (i : nat) (x d : A) :
  f x = f (nth i l d) -> map f (MultipartEncoder.update l i x) = map f l.
Proof.
  revert i. induction l as [|y l IH]; intros [|i] H; cbn in *;
    try reflexivity.
  - now rewrite H.
  - now rewrite IH.
Qed.

Lemma evolves_set_part (self : MultipartEncoder.t) (i : nat) (p : Part.t) :
  Part_headers p = Part_headers (MultipartEncoder.part_at self i) ->
  Part_len p = Part_len (MultipartEncoder.part_at self i) ->
  evolves self (MultipartEncoder.set_part self i p).
Proof.
  intros Hh Hl. unfold evolves, MultipartEncoder.part_at in *.
  cbn -[MultipartEncoder.update map nth].
  repeat split; auto;
    apply map_update with (d := MultipartEncoder.null_part); assumption.
Qed.

Lemma evolves_next_part (self : MultipartEncoder.t) :
  evolves self (snd (MultipartEncoder._next_part self)).
Proof.
  unfold MultipartEncoder._next_part.
  destruct (nth_error _ _); cbn [snd];
    [apply evolves_advance | apply evolves_refl].
Qed.

(** Whenever [write_to] returns, the part keeps its headers and [len]. *)
Lemma write_to_keeps (fuel : nat) (p : Part.t) (buffer : CustomBytesIO.t)
    (size k : Z) (p' : Part.t) (buffer' : CustomBytesIO.t) :
  Part.write_to fuel p buffer size = Ok (k, p', buffer') ->
  Part_headers p' = Part_headers p /\ Part_len p' = Part_len p.
Proof.
  unfold Part.write_to.
  destruct (Part_headers_unread p); [rewrite append_bytes|]; cbn [bind];
    cbn [Part_headers Part_body Part_headers_unread Part_len];
    match goal with
    | |- context [Part.write_to_loop ?f ?b ?u ?s ?w] =>
        destruct (Part.write_to_loop f b u s w) as [[[k0 body'] buf']| |]
    end; cbn [bind]; try discriminate;
    intros [= _ <- _]; split; reflexivity.
Qed.

Lemma load_loop_evolves (fuel : nat) :
  forall (self : MultipartEncoder.t) (part : option nat) (amount : Z)
         (self' : MultipartEncoder.t),
    MultipartEncoder._load_loop fuel self part amount = Ok self' ->
    evolves self self'.
Proof.
  induction fuel as [|fuel IH]; intros self part amount self'.
  - cbn [MultipartEncoder._load_loop].
    destruct ((amount =? -1) || (amount >? 0)); [discriminate|].
    intros [= <-]. apply evolves_refl.
  - rewrite load_loop_eq.
    destruct ((amount =? -1) || (amount >? 0));
      [|intros [= <-]; apply evolves_refl].
    assert (Hrest : forall (self1 : MultipartEncoder.t) (part1 : option nat)
                           (written : Z),
               evolves self self1 ->
               match part1 with
               | None =>
                   let '(k, self2) :=
                     MultipartEncoder._write_closing_boundary self1 in
                   Ok (MultipartEncoder.set_finished self2 true)
               | Some i =>
                   '(k, p, b) <-
                     Part.write_to (S fuel) (MultipartEncoder.part_at self1 i)
                       (MultipartEncoder._buffer self1) amount ;;
                   MultipartEncoder._load_loop fuel
                     (MultipartEncoder.set_buffer
                        (MultipartEncoder.set_part self1 i p) b)
                     part1
                     (if negb (amount =? -1) then amount - (written + k)
                      else amount)
               end = Ok self' ->
               evolves self self').
    { intros self1 [i|] written Hev.
      - destruct (Part.write_to (S fuel) (MultipartEncoder.part_at self1 i)
                    (MultipartEncoder._buffer self1) amount)
          as [[[k p] b]| |] eqn:Hw; cbn [bind]; try discriminate.
        intros Hloop. apply IH in Hloop.
        destruct (write_to_keeps _ _ _ _ _ _ _ Hw) as [Hh Hl].
        eapply evolves_trans; [exact Hev|].
        eapply evolves_trans; [|exact Hloop].
        eapply evolves_trans; [apply (evolves_set_part self1 i p Hh Hl)|].
        apply evolves_set_buffer.
      - rewrite write_closing_boundary_eq. intros [= <-].
        eapply evolves_trans; [exact Hev|].
        eapply evolves_trans; [apply evolves_set_buffer|].
        apply evolves_set_finished. }
    destruct part as [i|].
    + destruct (Part.bytes_left_to_write (MultipartEncoder.part_at self i))
        as [left| |]; cbn [bind]; try discriminate.
      destruct left; cbn [negb].
      * cbn [bind]. apply (Hrest self (Some i) 0). apply evolves_refl.
      * rewrite write_bytes_eq. cbn [bind].
        unfold MultipartEncoder._write_boundary.
        cbn [MultipartEncoder._encoded_boundary MultipartEncoder.set_buffer].
        destruct (MultipartEncoder._encoded_boundary self) as [d|items] eqn:Hd.
        -- rewrite write_bytes_eq. cbn [bind].
           match goal with
           | |- context [MultipartEncoder._next_part ?s] =>
               pose proof (evolves_next_part s) as Hn;
               destruct (MultipartEncoder._next_part s) as [part1 self1]
           end.
           cbn [snd] in Hn. cbn [bind].
           apply (Hrest self1 part1 (0 + zlen CRLF + zlen d)).
           eapply evolves_trans; [|exact Hn].
           eapply evolves_trans; apply evolves_set_buffer.
        -- unfold MultipartEncoder._write. rewrite append_tuple.
           cbn [bind]. discriminate.
    + cbn [bind]. apply (Hrest self None 0). apply evolves_refl.
Qed.

Lemma load_evolves (fuel : nat) (self : MultipartEncoder.t) (amount : Z)
    (self' : MultipartEncoder.t) :
  MultipartEncoder._load fuel self amount = Ok self' -> evolves self self'.
Proof.
  unfold MultipartEncoder._load.
  set (self0 := MultipartEncoder.set_buffer self
                  (CustomBytesIO.smart_truncate (MultipartEncoder._buffer self))).
  assert (H0 : evolves self self0) by apply evolves_set_buffer.
  destruct (MultipartEncoder._current_part self0) as [i|].
  - intros Hl. apply load_loop_evolves in Hl.
    exact (evolves_trans _ _ _ H0 Hl).
  - pose proof (evolves_next_part self0) as Hn.
    destruct (MultipartEncoder._next_part self0) as [part self1].
    cbn [snd] in Hn. intros Hl. apply load_loop_evolves in Hl.
    exact (evolves_trans _ _ _ H0 (evolves_trans _ _ _ Hn Hl)).
Qed.

Lemma read_evolves (fuel : nat) (self : MultipartEncoder.t) (size : Z)
    (data : bytes) (self' : MultipartEncoder.t) :
  MultipartEncoder.read fuel self size = Ok (data, self') ->
  evolves self self'.
Proof.
  unfold MultipartEncoder.read.
  destruct (MultipartEncoder._finished self) eqn:Hf.
  - unfold BytesIO.read. intros [= _ <-]. apply evolves_set_buffer.
  - unfold MultipartEncoder._calculate_load_amount.
    rewrite total_len_buffer.
    destruct (negb (size =? -1)); cbn [bind];
      match goal with
      | |- context [MultipartEncoder._load fuel self ?a] =>
          destruct (MultipartEncoder._load fuel self a) as [self1| |] eqn:Hl
      end; cbn [bind]; try discriminate;
      apply load_evolves in Hl; unfold BytesIO.read; intros [= _ <-];
      (eapply evolves_trans; [exact Hl | apply evolves_set_buffer]).
Qed.

Lemma map_eq_length {A B : Type} (f : A -> B) (l l' : list A) :
  map f l = map f l' -> List.length l = List.length l'.
Proof. intros H. rewrite <- (length_map f l), H. apply length_map. Qed.

Lemma evolves_content_length (a b : MultipartEncoder.t) :
  evolves a b -> content_length_value b = content_length_value a.
Proof.
  intros (_ & Hb & _ & _ & _ & _ & Hlen & _ & Hpl & _).
  assert (Hz : zlen (MultipartEncoder._parts b)
               = zlen (MultipartEncoder._parts a)).
  { unfold zlen. f_equal. exact (map_eq_length _ _ _ Hpl). }
  unfold content_length_value, MultipartEncoder.content_length,
    MultipartEncoder.__len__.
  rewrite Hlen.
  destruct (MultipartEncoder._len a) as [n|];
    [destruct (n =? 0)|]; rewrite ?calculate_length_eq;
    rewrite ?Hb, ?Hpl, ?Hz; cbn [bind];
    match goal with |- context [?x <? 0] => destruct (x <? 0) end;
    reflexivity.
Qed.

Lemma reads_evolves (fuel : nat) (sizes : list Z) :
  forall (self : MultipartEncoder.t) (chunks : list bytes)
         (self' : MultipartEncoder.t),
    reads fuel self sizes = Ok (chunks, self') -> evolves self self'.
Proof.
  induction sizes as [|size sizes IH]; intros self chunks self'.
  - cbn [reads]. intros [= _ <-]. apply evolves_refl.
  - cbn [reads].
    destruct (MultipartEncoder.read fuel self size) as [[data self1]| |] eqn:Hr;
      cbn [bind]; try discriminate.
    destruct (reads fuel self1 sizes) as [[chunks1 self2]| |] eqn:Hrs;
      cbn [bind]; try discriminate.
    intros [= _ <-]. apply read_evolves in Hr. apply IH in Hrs.
    exact (evolves_trans _ _ _ Hr Hrs).
Qed.

(** X12.  Whatever is read from an encoder, in whatever state it is and with
    whatever sizes, when the reads return they have left alone the boundary,
    the codec, the stored delimiter, the fields, the cached length and, of
    every part, its header block and its [len]: so the number of parts, the
    [content_length] and the [content_type] the object reports are the same
    after the reads as before.  The iterator over the parts has not moved
    back, and an encoder that was finished is finished still. *)
Theorem reads_leave_length_alone (fuel : nat) (self : MultipartEncoder.t)
    (sizes : list Z) (chunks : list bytes) (self' : MultipartEncoder.t) :
  reads fuel self sizes = Ok (chunks, self') ->
  evolves self self'
  /\ List.length (MultipartEncoder._parts self')
     = List.length (MultipartEncoder._parts self)
  /\ content_length_value self' = content_length_value self
  /\ MultipartEncoder.content_type self' = MultipartEncoder.content_type self.
Proof.
  intros H. apply reads_evolves in H. split; [exact H|].
  split; [|split].
  - destruct H as (_ & _ & _ & _ & _ & _ & _ & _ & Hpl & _).
    exact (map_eq_length _ _ _ Hpl).
  - now apply evolves_content_length.
  - unfold MultipartEncoder.content_type. destruct H as (-> & _). reflexivity.
Qed.

Lemma X12_witness :
  exists chunks self',
    reads 3 example_encoder [4; 0; -1] = Ok (chunks, self')
    /\ evolves example_encoder self'
    /\ List.length (MultipartEncoder._parts self') = 1%nat
    /\ content_length_value self' = content_length_value example_encoder
    /\ MultipartEncoder.content_type self'
       = MultipartEncoder.content_type example_encoder.
Proof.
  destruct (reads 3 example_encoder [4; 0; -1]) as [[chunks self']| |] eqn:E.
  - exists chunks, self'. split; [reflexivity|].
    exact (reads_leave_length_alone 3 example_encoder [4; 0; -1] chunks self'
             E).
  - vm_compute in E. discriminate E.
  - vm_compute in E. discriminate E.
Defined.

(** ** MultipartEncoder.read: a request the buffer can serve *)

Lemma load_loop_zero (fuel : nat) (self : MultipartEncoder.t)
    (part : option nat) :
  MultipartEncoder._load_loop fuel self part 0 = Ok self.
Proof. destruct fuel; [reflexivity | now rewrite load_loop_eq]. Qed.

Lemma next_part_parts (self : MultipartEncoder.t) :
  MultipartEncoder._parts (snd (MultipartEncoder._next_part self))
  = MultipartEncoder._parts self
  /\ MultipartEncoder._buffer (snd (MultipartEncoder._next_part self))
     = MultipartEncoder._buffer self
  /\ MultipartEncoder._finished (snd (MultipartEncoder._next_part self))
     = MultipartEncoder._finished self.
Proof.
  unfold MultipartEncoder._next_part. destruct (nth_error _ _); auto.
Qed.

Lemma load_zero (fuel : nat) (self : MultipartEncoder.t) :
  exists self1,
    MultipartEncoder._load fuel self 0 = Ok self1
    /\ MultipartEncoder._buffer self1
       = CustomBytesIO.smart_truncate (MultipartEncoder._buffer self)
    /\ MultipartEncoder._parts self1 = MultipartEncoder._parts self
    /\ MultipartEncoder._finished self1 = MultipartEncoder._finished self.
Proof.
  unfold MultipartEncoder._load.
  set (self0 := MultipartEncoder.set_buffer self
                  (CustomBytesIO.smart_truncate (MultipartEncoder._buffer self))).
  destruct (MultipartEncoder._current_part self0) as [i|].
  - exists self0. rewrite load_loop_zero. repeat split.
  - destruct (next_part_parts self0) as (Hp & Hb & Hf).
    destruct (MultipartEncoder._next_part self0) as [part self1].
    cbn [snd] in *. exists self1. rewrite load_loop_zero.
    split; [reflexivity|]. rewrite Hp, Hb, Hf. repeat split.
Qed.

Lemma buffer_read_unread (s : BytesIO.t) (size : Z) :
  fst (BytesIO.read s size) = taken size (BytesIO.unread s)
  /\ BytesIO.unread (snd (BytesIO.read s size))
     = skipn (List.length (taken size (BytesIO.unread s))) (BytesIO.unread s)
  /\ BytesIO.storage (snd (BytesIO.read s size)) = BytesIO.storage s
  /\ (buffer_ok s -> buffer_ok (snd (BytesIO.read s size))).
Proof.
  unfold BytesIO.read, taken. cbn [fst snd].
  unfold BytesIO.unread at 3. cbn [BytesIO.storage BytesIO.pos].
  split; [reflexivity|]. split; [|split; [reflexivity|]].
  - unfold BytesIO.unread. cbn [BytesIO.storage BytesIO.pos].
    rewrite skipn_skipn. f_equal. apply Nat.add_comm.
  - unfold buffer_ok. cbn [BytesIO.storage BytesIO.pos]. intros Hok.
    pose proof (taken_length size (BytesIO.unread s)) as Hl.
    unfold taken, BytesIO.unread in Hl. rewrite length_skipn in Hl.
    unfold BytesIO.unread. lia.
Qed.

(** X13.  A read the buffer can serve loads nothing: on an unfinished
    encoder, a request for no more bytes than the buffer has unread returns
    exactly that many, the first of the unread bytes, with any amount of
    fuel; no part is written to, the encoder stays unfinished, and the rest
    of the unread bytes stay for the next read. *)
Theorem read_served_from_buffer (fuel : nat) (self : MultipartEncoder.t)
    (size : Z) :
  MultipartEncoder._finished self = false ->
  buffer_ok (MultipartEncoder._buffer self) ->
  0 <= size <= zlen (BytesIO.unread (MultipartEncoder._buffer self)) ->
  exists self',
    MultipartEncoder.read fuel self size
    = Ok (firstn (Z.to_nat size)
            (BytesIO.unread (MultipartEncoder._buffer self)), self')
    /\ MultipartEncoder._finished self' = false
    /\ MultipartEncoder._parts self' = MultipartEncoder._parts self
    /\ BytesIO.unread (MultipartEncoder._buffer self')
       = skipn (Z.to_nat size)
           (BytesIO.unread (MultipartEncoder._buffer self)).
Proof.
  intros Hf Hok Hsize. unfold MultipartEncoder.read. rewrite Hf.
  replace (negb (size =? -1)) with true
    by (symmetry; apply negb_true_iff, Z.eqb_neq; lia).
  unfold MultipartEncoder._calculate_load_amount.
  rewrite total_len_buffer, (buffer_len_unread _ Hok). cbn [bind].
  replace (size - zlen (BytesIO.unread (MultipartEncoder._buffer self)) >? 0)
    with false by (symmetry; rewrite Z.gtb_ltb; apply Z.ltb_ge; lia).
  destruct (load_zero fuel self) as (self1 & -> & Hb & Hp & Hf1).
  cbn [bind].
  destruct (smart_truncate_spec (MultipartEncoder._buffer self))
    as (Hun & _ & _).
  destruct (buffer_read_unread (MultipartEncoder._buffer self1) size)
    as (Hdata & Hrest & _).
  destruct (BytesIO.read (MultipartEncoder._buffer self1) size)
    as [data b] eqn:Hr.
  cbn [fst snd] in *. rewrite Hb, Hun in Hdata, Hrest.
  assert (Htaken : taken size (BytesIO.unread (MultipartEncoder._buffer self))
                   = firstn (Z.to_nat size)
                       (BytesIO.unread (MultipartEncoder._buffer self))).
  { unfold taken. destruct (Z.ltb_spec size 0); [lia | reflexivity]. }
  rewrite Htaken in *. subst data.
  eexists. split; [reflexivity|].
  cbn [MultipartEncoder._finished MultipartEncoder._parts
       MultipartEncoder._buffer MultipartEncoder.set_buffer].
  split; [congruence|]. split; [exact Hp|].
  rewrite Hrest, length_firstn. f_equal. unfold zlen in Hsize. lia.
Qed.

Lemma X13_witness :
  MultipartEncoder._finished example_encoder = false
  /\ buffer_ok (MultipartEncoder._buffer example_encoder)
  /\ exists self',
       MultipartEncoder.read 0 example_encoder 3
       = Ok ([DASH; DASH; x58], self')
       /\ MultipartEncoder._finished self' = false
       /\ MultipartEncoder._parts self' = [example_part]
       /\ BytesIO.unread (MultipartEncoder._buffer self') = [CR; LF].
Proof.
  split; [reflexivity|]. split; [unfold buffer_ok; cbn; lia|].
  apply (read_served_from_buffer 0 example_encoder 3);
    [reflexivity | unfold buffer_ok; cbn; lia | cbv; split; discriminate].
Defined.

(** ** Construction: a list or tuple of an unsupported length *)

Section ShapeErrors.

Variable render_headers : RequestField -> string.
Variable utf8_decode : bytes -> string.
Variable choose_boundary : string.



End ShapeErrors.


(** ** Streaming: reads in pieces *)

Lemma write_to_loop_nonneg (fuel : nat) :
  forall (body : sized_body) (buffer : CustomBytesIO.t) (size written k : Z)
         (body' : sized_body) (buffer' : CustomBytesIO.t),
    body_ok body -> 0 <= body_len body ->
    Part.write_to_loop fuel body buffer size written = Ok (k, body', buffer') ->
    0 <= body_len body'.
Proof.
  induction fuel as [|fuel IH];
    intros body buffer size written k body' buffer' Hok Hnn.
  - cbn [Part.write_to_loop]. rewrite total_len_body. cbn [bind].
    destruct (_ && _); [discriminate|]. now intros [= _ <- _].
  - rewrite write_to_loop_eq, total_len_body. cbn [bind].
    destruct (_ && _); [|now intros [= _ <- _]].
    set (amt := if negb (size =? -1) then size - written else size).
    destruct (body_read_spec body amt) as (_ & _ & Hok').
    pose proof (body_len_after_read body amt) as Hlen'.
    pose proof (body_len_unread body Hok Hnn) as Hlen.
    pose proof (taken_length amt (body_unread body)) as Htaken.
    destruct (body_read body amt) as [chunk body1]. cbn [snd] in *.
    rewrite append_bytes. cbn [bind]. intros Hloop.
    apply IH in Hloop; auto. rewrite Hlen', Hlen. unfold zlen. lia.
Qed.

(** One call of [write_to], with all it guarantees to the loader. *)
Lemma write_to_step (fuel : nat) (p : Part.t) (buffer : CustomBytesIO.t)
    (size : Z) :
  body_ok (Part_body p) -> 0 <= body_len (Part_body p) -> (1 <= fuel)%nat ->
  exists w p',
    Part.write_to fuel p buffer size
    = Ok (zlen w, p',
          BytesIO.mk (BytesIO.storage buffer ++ w) (BytesIO.pos buffer))
    /\ w ++ pending p' = pending p
    /\ body_ok (Part_body p')
    /\ 0 <= body_len (Part_body p')
    /\ (pending p' = [] \/ (size <> -1 /\ size <= zlen w))
    /\ (size = -1 \/ 0 < size -> pending p <> [] -> w <> []).
Proof.
  intros Hok Hnn Hfuel.
  set (hdr := if Part_headers_unread p then Part_headers p else []).
  set (chunk := body_chunk size (zlen hdr) (body_unread (Part_body p))).
  assert (Hw : exists body',
             Part.write_to fuel p buffer size
             = Ok (zlen (hdr ++ chunk),
                   mkPart (Part_headers p) body' false (Part_len p),
                   BytesIO.mk (BytesIO.storage buffer ++ hdr ++ chunk)
                              (BytesIO.pos buffer))
             /\ body_unread body'
                = skipn (List.length chunk) (body_unread (Part_body p))
             /\ body_ok body' /\ 0 <= body_len body').
  { unfold Part.write_to. subst chunk hdr.
    destruct (Part_headers_unread p) eqn:Hu.
    - rewrite append_bytes.
      cbn [bind Part_body Part_headers Part_headers_unread Part_len].
      destruct (write_to_loop_spec fuel (Part_body p)
                  (BytesIO.mk (BytesIO.storage buffer ++ Part_headers p)
                              (BytesIO.pos buffer))
                  size (0 + zlen (Part_headers p)) Hok Hfuel)
        as (body' & Hloop & Hun & Hok').
      pose proof (write_to_loop_nonneg _ _ _ _ _ _ _ _ Hok Hnn Hloop) as Hnn'.
      rewrite Hloop. cbn [bind BytesIO.storage BytesIO.pos].
      exists body'. rewrite zlen_app, <- app_assoc, Z.add_0_l in *.
      repeat split; auto.
    - cbn [bind].
      destruct (write_to_loop_spec fuel (Part_body p) buffer size 0 Hok Hfuel)
        as (body' & Hloop & Hun & Hok').
      pose proof (write_to_loop_nonneg _ _ _ _ _ _ _ _ Hok Hnn Hloop) as Hnn'.
      rewrite Hloop. cbn [bind app]. exists body'.
      change (zlen (@nil byte)) with 0 in *. rewrite Hu, Z.add_0_l.
      repeat split; auto. }
  destruct Hw as (body' & Hw & Hun & Hok' & Hnn').
  exists (hdr ++ chunk), (mkPart (Part_headers p) body' false (Part_len p)).
  split; [exact Hw|].
  assert (Hp' : pending (mkPart (Part_headers p) body' false (Part_len p))
                = skipn (List.length chunk) (body_unread (Part_body p))).
  { unfold pending. cbn [Part_headers_unread Part_body app]. exact Hun. }
  assert (Hp : pending p = hdr ++ body_unread (Part_body p)) by reflexivity.
  rewrite Hp', Hp. cbn [Part_body].
  destruct (body_chunk_bound size (zlen hdr) (body_unread (Part_body p)))
    as [Hb _]. fold chunk in Hb.
  split.
  { rewrite <- app_assoc. f_equal. apply body_chunk_prefix. }
  split; [exact Hok'|]. split; [exact Hnn'|]. split.
  { rewrite zlen_app. exact Hb. }
  intros Hsize Hpend Hnil. apply app_eq_nil in Hnil. destruct Hnil as [Hh Hc].
  apply Hpend. rewrite Hh. cbn [app].
  subst chunk. rewrite Hh in Hc. change (zlen (@nil byte)) with 0 in Hc.
  unfold body_chunk in Hc.
  destruct (Z.eqb_spec size (-1)) as [Hs|Hs]; [exact Hc|].
  destruct (body_unread (Part_body p)) as [|x rest]; [reflexivity|].
  destruct Hsize as [Hsize|Hsize]; [contradiction|].
  replace (Z.to_nat (size - 0)) with (S (Z.to_nat (size - 1))) in Hc by lia.
  discriminate Hc.
Qed.

Ltac proj_simpl :=
  cbn [MultipartEncoder._boundary_value MultipartEncoder._boundary
       MultipartEncoder._enc MultipartEncoder._encoded_boundary
       MultipartEncoder._fields MultipartEncoder._iter_read_size
       MultipartEncoder._finished MultipartEncoder._current_part
       MultipartEncoder._len MultipartEncoder._buffer MultipartEncoder._parts
       MultipartEncoder._iter_parts MultipartEncoder.set_buffer
       MultipartEncoder.set_part MultipartEncoder.set_parts
       MultipartEncoder.set_finished MultipartEncoder.advance
       BytesIO.storage BytesIO.pos] in *.

Lemma part_ready_at (self : MultipartEncoder.t) (i : nat) :
  Forall (fun p => body_ok (Part_body p) /\ 0 <= body_len (Part_body p))
         (MultipartEncoder._parts self) ->
  (i < List.length (MultipartEncoder._parts self))%nat ->
  body_ok (Part_body (MultipartEncoder.part_at self i))
  /\ 0 <= body_len (Part_body (MultipartEncoder.part_at self i)).
Proof.
  intros HF Hi. unfold MultipartEncoder.part_at.
  rewrite Forall_forall in HF. apply HF. now apply nth_In.
Qed.

Lemma Forall_update {A : Type} (P : A -> Prop) (l : list A) (i : nat) (x : A) :
  Forall P l -> P x -> Forall P (MultipartEncoder.update l i x).
Proof.
  intros HF Hx. revert i.
  induction HF as [|y l Hy HF IH]; intros [|i]; cbn; auto.
Qed.

Lemma update_length {A : Type} (l : list A) (i : nat) (x : A) :
  List.length (MultipartEncoder.update l i x) = List.length l.
Proof.
  revert i. induction l as [|y l IH]; intros [|i]; cbn; auto.
Qed.

Lemma unread_append (s : BytesIO.t) (w : bytes) :
  buffer_ok s ->
  BytesIO.unread (BytesIO.mk (BytesIO.storage s ++ w) (BytesIO.pos s))
  = BytesIO.unread s ++ w.
Proof.
  intros Hok. unfold BytesIO.unread, buffer_ok in *.
  cbn [BytesIO.storage BytesIO.pos]. rewrite skipn_app.
  replace (BytesIO.pos s - List.length (BytesIO.storage s))%nat with O by lia.
  reflexivity.
Qed.

Lemma transitions_length (d : bytes) (rest : list Part.t) :
  (2 <= List.length (transitions d rest))%nat.
Proof.
  destruct rest; cbn [transitions CRLF app List.length]; lia.
Qed.

Lemma nth_error_skipn {A : Type} (l : list A) (n : nat) (x : A) :
  nth_error l n = Some x -> skipn n l = x :: skipn (S n) l.
Proof.
  revert n. induction l as [|y l IH]; intros [|n] H; cbn in *;
    try discriminate.
  - now injection H as ->.
  - now apply IH.
Qed.

Lemma remaining_at_part (d : bytes) (self : MultipartEncoder.t) (i : nat) :
  MultipartEncoder._finished self = false ->
  MultipartEncoder._current_part self = Some i ->
  remaining d self
  = BytesIO.unread (MultipartEncoder._buffer self)
    ++ pending (MultipartEncoder.part_at self i)
    ++ closed (transitions d (skipn (S i) (MultipartEncoder._parts self))).
Proof. intros Hf Hc. unfold remaining, cursor. now rewrite Hf, Hc. Qed.

Lemma at_part_streaming (d : bytes) (self : MultipartEncoder.t) (i : nat) :
  at_part d self i -> streaming d self.
Proof.
  intros (Hd & Hbok & Hparts & Hfin & Hcur & Hi & Hiter).
  unfold streaming, cursor. rewrite Hcur. auto 10.
Qed.

Section Streaming.

Import MultipartEncoder.

(** The delimiter line. *)
Variable d : bytes.

(** The loader, at work on part [i] with enough fuel, returns; it keeps what
    the encoder has yet to return, and it stops only finished or with the
    amount asked for added to the buffer. *)
Lemma load_loop_streaming (fuel : nat) :
  forall (self : t) (i : nat) (amount : Z),
    at_part d self i ->
    ((if (amount =? -1)%Z then 0 else Z.to_nat amount)
     + 2 * (List.length (_parts self) - i)
     + (if is_nil (pending (part_at self i)) then 0 else 1) < fuel)%nat ->
    exists self',
      _load_loop fuel self (Some i) amount = Ok self'
      /\ streaming d self'
      /\ remaining d self' = remaining d self
      /\ List.length (_parts self') = List.length (_parts self)
      /\ (_finished self' = true
          \/ (amount <> -1
              /\ zlen (BytesIO.unread (_buffer self)) + amount
                 <= zlen (BytesIO.unread (_buffer self')))).
Proof.
  induction fuel as [|fuel IH]; intros self i amount Hat Hm; [lia|].
  rewrite load_loop_eq.
  destruct ((amount =? -1) || (amount >? 0)) eqn:Hc.
  2:{ apply orb_false_iff in Hc. destruct Hc as [Hc1 Hc2].
      apply Z.eqb_neq in Hc1. rewrite Z.gtb_ltb in Hc2. apply Z.ltb_ge in Hc2.
      exists self. split; [reflexivity|].
      split; [now apply at_part_streaming with (i := i)|].
      split; [reflexivity|]. split; [reflexivity|]. right. split; [exact Hc1|lia]. }
  assert (Hpos : amount = -1 \/ 0 < amount).
  { apply orb_true_iff in Hc. destruct Hc as [Hc|Hc].
    - left. now apply Z.eqb_eq.
    - right. rewrite Z.gtb_ltb in Hc. now apply Z.ltb_lt. }
  clear Hc.
  (* writing to the part the loader is at, and going round again *)
  assert (Hstep : forall (self1 : t) (j : nat) (written0 : Z),
             at_part d self1 j -> 0 <= written0 ->
             ((if (amount =? -1)%Z then 2 * (List.length (_parts self1) - j) + 1
               else Z.to_nat (amount - written0
                              - (if is_nil (pending (part_at self1 j))
                                 then 0 else 1))
                    + 2 * (List.length (_parts self1) - j) + 2) <= fuel)%nat ->
             exists self',
               ('(k, p, b) <-
                  Part.write_to (S fuel) (part_at self1 j) (_buffer self1)
                    amount ;;
                _load_loop fuel (set_buffer (set_part self1 j p) b) (Some j)
                  (if negb (amount =? -1) then amount - (written0 + k)
                   else amount)) = Ok self'
               /\ streaming d self'
               /\ remaining d self' = remaining d self1
               /\ List.length (_parts self') = List.length (_parts self1)
               /\ (_finished self' = true
                   \/ (amount <> -1
                       /\ zlen (BytesIO.unread (_buffer self1)) + amount
                          - written0
                          <= zlen (BytesIO.unread (_buffer self'))))).
  { intros self1 j written0 Hat1 Hw0 Hm1.
    pose proof Hat1 as (Hd & Hbok & Hparts & Hfin & Hcur & Hj & Hiter).
    destruct (part_ready_at self1 j Hparts Hj) as [Hok Hnn].
    destruct (write_to_step (S fuel) (part_at self1 j) (_buffer self1) amount
                Hok Hnn ltac:(lia))
      as (w & p' & Hw & Hcons & Hok' & Hnn' & Hdone & Hne).
    rewrite Hw. cbn [bind].
    set (b' := BytesIO.mk (BytesIO.storage (_buffer self1) ++ w)
                          (BytesIO.pos (_buffer self1))).
    set (self2 := set_buffer (set_part self1 j p') b').
    set (amount' := if negb (amount =? -1) then amount - (written0 + zlen w)
                    else amount).
    assert (Hpart2 : part_at self2 j = p').
    { unfold part_at, self2. proj_simpl. now apply update_nth_same. }
    assert (Hat2 : at_part d self2 j).
    { unfold at_part, self2, b', buffer_ok in *. proj_simpl.
      rewrite update_length, length_app.
      repeat split; auto; [lia|]. apply Forall_update; auto. }
    assert (Hun2 : BytesIO.unread (_buffer self2)
                   = BytesIO.unread (_buffer self1) ++ w).
    { unfold self2, b'. proj_simpl. now apply unread_append. }
    assert (Hrem2 : remaining d self2 = remaining d self1).
    { pose proof Hat2 as (_ & _ & _ & Hfin2 & Hcur2 & _).
      rewrite (remaining_at_part d self1 j Hfin Hcur).
      rewrite (remaining_at_part d self2 j Hfin2 Hcur2).
      rewrite Hpart2, Hun2, <- Hcons. unfold self2. proj_simpl.
      rewrite update_skipn by lia. now rewrite <- !app_assoc. }
    assert (Hwlen : is_nil (pending (part_at self1 j)) = false ->
                    1 <= zlen w).
    { intros Hnil. destruct w as [|x w].
      - exfalso. apply (Hne Hpos); [|reflexivity].
        intros Hp. now rewrite Hp in Hnil.
      - unfold zlen. cbn [List.length]. lia. }
    assert (Hm2 : ((if (amount' =? -1)%Z then 0 else Z.to_nat amount')
                   + 2 * (List.length (_parts self2) - j)
                   + (if is_nil (pending (part_at self2 j)) then 0 else 1)
                   < fuel)%nat).
    { rewrite Hpart2. unfold self2 at 1. proj_simpl. rewrite update_length.
      subst amount'. pose proof (Zle_0_nat (List.length w)) as Hwnn.
      fold (zlen w) in Hwnn.
      destruct (Z.eqb_spec amount (-1)) as [Ha|Ha]; cbn [negb].
      - replace (amount =? -1) with true by (symmetry; now apply Z.eqb_eq).
        destruct Hdone as [-> | [Hcontra _]]; [|contradiction].
        cbn [is_nil]. lia.
      - destruct Hpos as [Hpos|Hpos]; [contradiction|].
        destruct (is_nil (pending (part_at self1 j))) eqn:Hnil.
        + destruct (amount - (written0 + zlen w) =? -1);
            destruct (is_nil (pending p')); lia.
        + specialize (Hwlen eq_refl).
          destruct (amount - (written0 + zlen w) =? -1);
            destruct (is_nil (pending p')); lia. }
    destruct (IH self2 j amount' Hat2 Hm2)
      as (self' & Hl & Hs & Hrem & Hlen & Hload).
    exists self'. split; [exact Hl|]. split; [exact Hs|].
    split; [congruence|]. split.
    { rewrite Hlen. unfold self2. proj_simpl. apply update_length. }
    destruct Hload as [Hload | [Hne' Hload]]; [now left|].
    subst amount'. rewrite Hun2, zlen_app in Hload.
    destruct (Z.eqb_spec amount (-1)) as [Ha|Ha]; cbn [negb] in *.
    - contradiction.
    - right. split; [exact Ha | lia]. }
  pose proof Hat as (Hd & Hbok & Hparts & Hfin & Hcur & Hi & Hiter).
  destruct (part_ready_at self i Hparts Hi) as [Hok Hnn].
  rewrite (bytes_left_pending _ Hok Hnn). cbn [bind].
  destruct (pending (part_at self i)) as [|x rest] eqn:Hpend;
    cbn [is_nil negb] in *.
  - (* the part is exhausted: on to the next one, or to the end *)
    rewrite write_bytes_eq. cbn [bind]. unfold _write_boundary.
    proj_simpl. rewrite Hd, write_bytes_eq. cbn [bind].
    unfold _next_part. proj_simpl. rewrite Hiter.
    destruct (nth_error (_parts self) (S i)) as [q|] eqn:Hnth.
    + cbn [bind].
      set (self1 := advance _).
      assert (HSi : (S i < List.length (_parts self))%nat).
      { apply nth_error_Some. congruence. }
      assert (Hat1 : at_part d self1 (S i)).
      { unfold at_part, self1, buffer_ok in *. proj_simpl.
        rewrite !length_app. repeat split; auto; try lia. }
      assert (Hun1 : BytesIO.unread (_buffer self1)
                     = BytesIO.unread (_buffer self) ++ CRLF ++ d).
      { unfold self1. proj_simpl.
        rewrite <- app_assoc. now apply unread_append. }
      assert (Hrem1 : remaining d self1 = remaining d self).
      { pose proof Hat1 as (_ & _ & _ & Hfin1 & Hcur1 & _).
        rewrite (remaining_at_part d self i Hfin Hcur), Hpend.
        rewrite (remaining_at_part d self1 (S i) Hfin1 Hcur1).
        rewrite Hun1. unfold part_at, self1. proj_simpl.
        rewrite (nth_error_skipn _ _ _ Hnth). cbn [transitions app].
        rewrite (nth_error_nth _ _ null_part Hnth).
        change (CR :: LF :: d ++ pending q
                   ++ transitions d (skipn (S (S i)) (_parts self)))
          with (CRLF ++ d ++ pending q
                  ++ transitions d (skipn (S (S i)) (_parts self))).
        rewrite !app_assoc.
        rewrite closed_app by apply transitions_length.
        now rewrite <- !app_assoc. }
      destruct (Hstep self1 (S i) (0 + zlen CRLF + zlen d) Hat1) as
        (self' & Hl & Hs & Hrem & Hlen & Hload).
      { unfold zlen. cbn [CRLF List.length]. lia. }
      { unfold self1. proj_simpl.
        pose proof (Zle_0_nat (List.length d)) as Hdnn. fold (zlen d) in Hdnn.
        change (zlen CRLF) with 2.
        destruct (Z.eqb_spec amount (-1)) as [Ha|Ha]; [lia|].
        destruct Hpos as [Hpos|Hpos]; [contradiction|].
        destruct (is_nil _); lia. }
      exists self'. split; [exact Hl|]. split; [exact Hs|].
      split; [congruence|]. split; [exact Hlen|].
      destruct Hload as [Hload | [Hne' Hload]]; [now left|].
      right. split; [exact Hne'|]. rewrite Hun1, !zlen_app in Hload. lia.
    + (* no part is left: the closing bytes, and the encoder is finished *)
      cbn [bind]. rewrite write_closing_boundary_eq. proj_simpl.
      assert (Hlast : skipn (S i) (_parts self) = []).
      { apply skipn_all2. now apply nth_error_None. }
      assert (Hclosed : closed ((BytesIO.storage (_buffer self) ++ CRLF) ++ d)
                        = BytesIO.storage (_buffer self) ++ closed (CRLF ++ d)).
      { rewrite <- app_assoc. apply closed_app.
        rewrite length_app. cbn [CRLF List.length]. lia. }
      eexists. split; [reflexivity|]. rewrite Hclosed.
      split; [|split; [|split; [reflexivity | now left]]].
      * unfold streaming, buffer_ok in *. proj_simpl. rewrite length_app.
        repeat split; auto. lia.
      * rewrite (remaining_at_part d self i Hfin Hcur), Hpend, Hlast.
        unfold remaining. proj_simpl. rewrite app_nil_r.
        cbn [transitions app].
        now rewrite unread_append.
  - (* the part has bytes left *)
    cbn [bind].
    destruct (Hstep self i 0 Hat ltac:(lia)) as
      (self' & Hl & Hs & Hrem & Hlen & Hload).
    { rewrite Hpend. cbn [is_nil].
      destruct (Z.eqb_spec amount (-1)) as [Ha|Ha]; [lia|].
      destruct Hpos as [Hpos|Hpos]; [contradiction|]. lia. }
    exists self'. split; [exact Hl|]. split; [exact Hs|].
    split; [exact Hrem|]. split; [exact Hlen|].
    destruct Hload as [Hload | [Hne' Hload]]; [now left|].
    right. split; [exact Hne' | lia].
Qed.

(** [_load] on an unfinished encoder. *)
Lemma load_streaming (fuel : nat) (self : t) (amount : Z) :
  streaming d self -> _finished self = false ->
  ((if (amount =? -1)%Z then 0 else Z.to_nat amount)
   + 2 * List.length (_parts self) + 2 <= fuel)%nat ->
  exists self',
    _load fuel self amount = Ok self'
    /\ streaming d self'
    /\ remaining d self' = remaining d self
    /\ List.length (_parts self') = List.length (_parts self)
    /\ (_finished self' = true
        \/ (amount <> -1
            /\ zlen (BytesIO.unread (_buffer self)) + amount
               <= zlen (BytesIO.unread (_buffer self')))).
Proof.
  intros (Hd & Hbok & Hparts & Hstate) Hfin Hm.
  destruct Hstate as [Hcontra | [Hcur Hiter]]; [congruence|].
  unfold _load.
  set (self0 := set_buffer self (CustomBytesIO.smart_truncate (_buffer self))).
  destruct (smart_truncate_spec (_buffer self)) as (Hun & _ & Hshape).
  assert (Hbok0 : buffer_ok (_buffer self0)).
  { unfold self0, buffer_ok in *. proj_simpl.
    destruct Hshape as [[Hp _] | [-> _]]; [rewrite Hp; lia | exact Hbok]. }
  assert (Hgo : forall (self1 : t) (i : nat),
             at_part d self1 i ->
             remaining d self1 = remaining d self ->
             _parts self1 = _parts self ->
             BytesIO.unread (_buffer self1) = BytesIO.unread (_buffer self) ->
             exists self',
               _load_loop fuel self1 (Some i) amount = Ok self'
               /\ streaming d self'
               /\ remaining d self' = remaining d self
               /\ List.length (_parts self') = List.length (_parts self)
               /\ (_finished self' = true
                   \/ (amount <> -1
                       /\ zlen (BytesIO.unread (_buffer self)) + amount
                          <= zlen (BytesIO.unread (_buffer self'))))).
  { intros self1 i Hat Hrem Hp Hu.
    destruct (load_loop_streaming fuel self1 i amount Hat)
      as (self' & Hl & Hs & Hrem' & Hlen & Hload).
    { rewrite Hp. destruct (is_nil _); destruct (amount =? -1); lia. }
    exists self'. split; [exact Hl|]. split; [exact Hs|].
    split; [now rewrite Hrem'|]. split; [now rewrite Hlen, Hp|].
    destruct Hload as [Hload | [Hne Hload]]; [now left|].
    right. split; [exact Hne|]. now rewrite <- Hu. }
  unfold cursor in *.
  destruct (_current_part self) as [i|] eqn:Hc.
  - replace (_current_part self0) with (Some i) by (symmetry; exact Hc).
    apply Hgo; [|  |reflexivity | exact Hun].
    + unfold at_part, self0. proj_simpl. repeat split; auto.
    + unfold remaining, cursor, part_at, self0. proj_simpl.
      now rewrite Hun.
  - replace (_current_part self0) with (@None nat) by (symmetry; exact Hc).
    unfold _next_part. unfold self0 at 1 2. proj_simpl. rewrite Hiter.
    destruct (nth_error (_parts self) 0) as [q|] eqn:Hnth.
    2:{ apply nth_error_None in Hnth. lia. }
    apply Hgo; [|  |reflexivity | exact Hun].
    + unfold at_part, self0. proj_simpl. rewrite Hiter.
      repeat split; auto.
    + unfold remaining, cursor, part_at, self0. proj_simpl.
      now rewrite Hun, Hc, Hiter.
Qed.

Lemma taken_app (size : Z) (u rest : bytes) :
  rest = [] \/ (0 <= size /\ size <= zlen u) ->
  taken size (u ++ rest) = taken size u.
Proof.
  intros [-> | [H0 Hle]]; [now rewrite app_nil_r|].
  unfold taken. destruct (Z.ltb_spec size 0); [lia|].
  rewrite firstn_app. unfold zlen in Hle.
  replace (Z.to_nat size - List.length u)%nat with O by lia.
  cbn [firstn]. apply app_nil_r.
Qed.

(** One [read] on a streaming encoder: it returns the next bytes of what
    the encoder has yet to return, as many as asked for if there are as
    many. *)
Lemma read_streaming (fuel : nat) (self : t) (size : Z) :
  streaming d self -> -1 <= size ->
  (Z.to_nat size + 2 * List.length (_parts self) + 2 <= fuel)%nat ->
  exists self',
    read fuel self size = Ok (taken size (remaining d self), self')
    /\ streaming d self'
    /\ remaining d self'
       = skipn (List.length (taken size (remaining d self))) (remaining d self)
    /\ List.length (_parts self') = List.length (_parts self)
    /\ (_finished self = true -> _finished self' = true)
    /\ (size = -1 -> _finished self' = true).
Proof.
  intros Hs Hsize Hm. unfold read.
  (* the final read from the buffer of the encoder [self1] *)
  assert (Hfinal : forall self1 : t,
             streaming d self1 ->
             remaining d self1 = remaining d self ->
             List.length (_parts self1) = List.length (_parts self) ->
             (_finished self1 = true
              \/ (0 <= size
                  /\ size <= zlen (BytesIO.unread (_buffer self1)))) ->
             exists self',
               (let '(data, b) := BytesIO.read (_buffer self1) size in
                Ok (data, set_buffer self1 b))
               = Ok (taken size (remaining d self), self')
               /\ streaming d self'
               /\ remaining d self'
                  = skipn (List.length (taken size (remaining d self)))
                          (remaining d self)
               /\ List.length (_parts self') = List.length (_parts self)
               /\ _finished self' = _finished self1).
  { intros self1 (Hd1 & Hbok1 & Hparts1 & Hstate1) Hrem1 Hlen1 Henough.
    destruct (buffer_read_unread (_buffer self1) size)
      as (Hdata & Hrest & _ & Hbok').
    specialize (Hbok' Hbok1).
    destruct (BytesIO.read (_buffer self1) size) as [data b].
    cbn [fst snd] in *.
    assert (Htaken : taken size (remaining d self)
                     = taken size (BytesIO.unread (_buffer self1))).
    { rewrite <- Hrem1. unfold remaining. apply taken_app.
      destruct Henough as [-> | H]; [now left | now right]. }
    rewrite Htaken, <- Hdata.
    exists (set_buffer self1 b). split; [reflexivity|].
    split; [|split; [|split; [exact Hlen1 | reflexivity]]].
    - unfold streaming, cursor in *. proj_simpl. auto.
    - rewrite <- Hrem1. unfold remaining, cursor, part_at. proj_simpl.
      rewrite Hrest, <- Hdata, skipn_app.
      pose proof (taken_length size (BytesIO.unread (_buffer self1))) as Hl.
      rewrite <- Hdata in Hl.
      replace (List.length data
               - List.length (BytesIO.unread (_buffer self1)))%nat
        with O by lia.
      reflexivity. }
  pose proof Hs as (Hd & Hbok & Hparts & Hstate).
  destruct (_finished self) eqn:Hfin.
  - destruct (Hfinal self Hs eq_refl eq_refl (or_introl Hfin))
      as (self' & Hr & Hs' & Hrem & Hlen & Hf').
    exists self'. split; [exact Hr|]. split; [exact Hs'|].
    split; [exact Hrem|]. split; [exact Hlen|]. split; intros; congruence.
  - unfold _calculate_load_amount.
    rewrite total_len_buffer, (buffer_len_unread _ Hbok).
    destruct (Z.eqb_spec size (-1)) as [Hm1|Hm1]; cbn [negb bind].
    + subst size.
      destruct (load_streaming fuel self (-1) Hs Hfin)
        as (self1 & -> & Hs1 & Hrem1 & Hlen1 & Hload).
      { cbn. lia. }
      cbn [bind].
      destruct Hload as [Hload | [Hcontra _]]; [|contradiction].
      destruct (Hfinal self1 Hs1 Hrem1 Hlen1 (or_introl Hload))
        as (self' & Hr & Hs' & Hrem & Hlen & Hf').
      exists self'. split; [exact Hr|]. split; [exact Hs'|].
    split; [exact Hrem|]. split; [exact Hlen|]. split; intros; congruence.
    + set (amount := if size - zlen (BytesIO.unread (_buffer self)) >? 0
                     then size - zlen (BytesIO.unread (_buffer self))
                     else 0).
      assert (Ham : 0 <= amount <= size
                    /\ size - zlen (BytesIO.unread (_buffer self)) <= amount).
      { subst amount. rewrite Z.gtb_ltb.
        pose proof (Zle_0_nat (List.length (BytesIO.unread (_buffer self))))
          as Hnn. fold (zlen (BytesIO.unread (_buffer self))) in Hnn.
        destruct (Z.ltb_spec 0 (size - zlen (BytesIO.unread (_buffer self))));
          lia. }
      destruct (load_streaming fuel self amount Hs Hfin)
        as (self1 & -> & Hs1 & Hrem1 & Hlen1 & Hload).
      { destruct (amount =? -1); lia. }
      cbn [bind].
      destruct (Hfinal self1 Hs1 Hrem1 Hlen1)
        as (self' & Hr & Hs' & Hrem & Hlen & Hf').
      { destruct Hload as [Hload | [_ Hload]]; [now left|].
        right. lia. }
      exists self'. split; [exact Hr|]. split; [exact Hs'|].
    split; [exact Hrem|]. split; [exact Hlen|]. split; intros; congruence.
Qed.

(** X17.  On an encoder object in the course of streaming a body of at least
    one part, with its delimiter held as bytes, successive reads of any
    sizes (each at least 0, or -1 for the rest), given fuel for them, return
    the consecutive pieces of the bytes the encoder had yet to return: each
    read returns exactly the number of bytes asked for while that many are
    left, nothing is lost, repeated or reordered between the reads, however
    the sizes fall across headers, bodies, delimiters and the closing
    bytes, and the encoder is left in the course of streaming what
    follows. *)
Theorem reads_return_consecutive_pieces (fuel : nat) (sizes : list Z) :
  forall self : t,
    streaming d self ->
    Forall (fun size =>
              -1 <= size
              /\ (Z.to_nat size + 2 * List.length (_parts self) + 2
                  <= fuel)%nat) sizes ->
    exists self',
      reads fuel self sizes
      = Ok (split_stream sizes (remaining d self), self')
      /\ streaming d self'
      /\ List.concat (split_stream sizes (remaining d self))
           ++ remaining d self'
         = remaining d self.
Proof.
  induction sizes as [|size sizes IH]; intros self Hs Hsizes.
  - exists self. cbn [reads split_stream List.concat app]. auto.
  - apply Forall_cons_iff in Hsizes. destruct Hsizes as [[Hsize Hm] Hsizes].
    destruct (read_streaming fuel self size Hs Hsize Hm)
      as (self1 & Hr & Hs1 & Hrem1 & Hlen1 & _).
    destruct (IH self1 Hs1) as (self' & Hrs & Hs' & Hcat).
    { rewrite Hlen1. exact Hsizes. }
    exists self'. cbn [reads split_stream]. rewrite Hr. cbn [bind].
    rewrite <- Hrem1, Hrs. cbn [bind]. split; [reflexivity|].
    split; [exact Hs'|]. cbn [List.concat]. rewrite <- app_assoc, Hcat, Hrem1.
    rewrite (taken_prefix size (remaining d self)) at 1.
    apply firstn_skipn.
Qed.

Lemma taken_nil (c : Z) (R : bytes) :
  c = -1 \/ 0 < c -> taken c R = [] -> R = [].
Proof.
  unfold taken. intros [-> | Hc]; [now cbn|].
  destruct (Z.ltb_spec c 0); [lia|].
  replace (Z.to_nat c) with (S (Z.to_nat (c - 1))) by lia.
  destruct R; [reflexivity | discriminate].
Qed.

(** Reading in pieces until a read returns nothing gives all the encoder
    has yet to return. *)
Lemma read_until_empty_streaming (fuel : nat) (c : Z) :
  c = -1 \/ 0 < c ->
  forall (steps : nat) (self : t),
    streaming d self ->
    (Z.to_nat c + 2 * List.length (_parts self) + 2 <= fuel)%nat ->
    (List.length (remaining d self) < steps)%nat ->
    exists self',
      read_until_empty steps fuel self c = Ok (remaining d self, self')
      /\ remaining d self' = [].
Proof.
  intros Hc. induction steps as [|steps IH]; intros self Hs Hm Hsteps; [lia|].
  destruct (read_streaming fuel self c Hs ltac:(lia) Hm)
    as (self1 & Hr & Hs1 & Hrem1 & Hlen1 & _).
  cbn [read_until_empty]. rewrite Hr. cbn [bind].
  destruct (taken c (remaining d self)) as [|x data] eqn:Ht.
  - apply (taken_nil c _ Hc) in Ht. exists self1. rewrite Ht in *.
    split; [reflexivity | exact Hrem1].
  - destruct (IH self1 Hs1) as (self' & Hrs & Hend).
    { now rewrite Hlen1. }
    { pose proof (taken_length c (remaining d self)) as Hl.
      rewrite Ht in Hl. rewrite Hrem1, length_skipn.
      cbn [List.length] in *. lia. }
    exists self'. rewrite Hrs. cbn [bind]. split; [|exact Hend].
    rewrite Hrem1, <- Ht.
    rewrite (taken_prefix c (remaining d self)) at 1.
    now rewrite firstn_skipn.
Qed.

Lemma remaining_nonempty (self : t) :
  _finished self = false -> remaining d self <> [].
Proof.
  intros Hf H. apply (f_equal (@List.length byte)) in H.
  unfold remaining in H. rewrite Hf, closed_eq, !length_app in H.
  cbn [closing_bytes List.length] in H. lia.
Qed.

(** Iteration reads pieces of the iteration size until the encoder is
    finished: what it yields, followed by what is then still unread in the
    buffer, is what the encoder had yet to return. *)
Lemma iter_streaming (fuel : nat) :
  forall (steps : nat) (self : t),
    streaming d self ->
    _iter_read_size self = -1 \/ 0 < _iter_read_size self ->
    (Z.to_nat (_iter_read_size self) + 2 * List.length (_parts self) + 2
     <= fuel)%nat ->
    (List.length (remaining d self) < steps)%nat ->
    exists chunks self',
      __iter__ steps fuel self = Ok (chunks, self')
      /\ _finished self' = true
      /\ List.concat chunks ++ BytesIO.unread (_buffer self')
         = remaining d self.
Proof.
  induction steps as [|steps IH]; intros self Hs Hc Hm Hsteps; [lia|].
  cbn [__iter__]. destruct (_finished self) eqn:Hfin; cbn [negb].
  - exists [], self. split; [reflexivity|]. split; [exact Hfin|].
    unfold remaining. rewrite Hfin. cbn [List.concat app].
    now rewrite app_nil_r.
  - destruct (read_streaming fuel self (_iter_read_size self) Hs ltac:(lia) Hm)
      as (self1 & Hr & Hs1 & Hrem1 & Hlen1 & _).
    rewrite Hr. cbn [bind].
    pose proof (read_evolves _ _ _ _ _ Hr)
      as (_ & _ & _ & _ & _ & Hsize & _).
    pose proof (remaining_nonempty self Hfin) as Hne.
    assert (Hdata : taken (_iter_read_size self) (remaining d self) <> []).
    { intros Ht. apply Hne. exact (taken_nil _ _ Hc Ht). }
    destruct (IH self1 Hs1) as (chunks & self' & Hit & Hf' & Hcat).
    { now rewrite Hsize. }
    { now rewrite Hsize, Hlen1. }
    { pose proof (taken_length (_iter_read_size self) (remaining d self))
        as Hl.
      rewrite Hrem1, length_skipn.
      destruct (taken (_iter_read_size self) (remaining d self));
        [contradiction | cbn [List.length] in *; lia]. }
    exists (taken (_iter_read_size self) (remaining d self) :: chunks), self'.
    rewrite Hit. cbn [bind]. split; [reflexivity|]. split; [exact Hf'|].
    cbn [List.concat]. rewrite <- app_assoc, Hcat, Hrem1.
    rewrite (taken_prefix (_iter_read_size self) (remaining d self)) at 1.
    apply firstn_skipn.
Qed.

(** An encoder with the delimiter loaded and at least one part is streaming,
    with the whole stream yet to return. *)
Lemma loaded_streaming (self : t) :
  delimiter_loaded d self -> _parts self <> [] ->
  streaming d self /\ remaining d self = multipart_stream d (_parts self).
Proof.
  intros (Hd & Hb & Hf & Hc & Hi & Hparts) Hne.
  destruct (_parts self) as [|p rest] eqn:Hp; [contradiction|].
  split.
  - unfold streaming, cursor, buffer_ok. rewrite Hd, Hb, Hc, Hi, Hp.
    cbn [BytesIO.storage BytesIO.pos List.length].
    repeat split; auto; try lia.
  - unfold remaining, cursor, part_at, multipart_stream.
    rewrite Hf, Hc, Hb, Hp. unfold BytesIO.unread.
    cbn [BytesIO.storage BytesIO.pos skipn nth].
    rewrite <- transitions_flat_map.
    rewrite !app_assoc. rewrite closed_app by apply transitions_length.
    reflexivity.
Qed.

End Streaming.

Lemma example_encoder_loaded : delimiter_loaded delimiter_X example_encoder.
Proof.
  unfold delimiter_loaded. repeat split.
  constructor; [|constructor]. split; [reflexivity | cbv; discriminate].
Qed.

(** X15.  On an encoder object that holds its delimiter as a bytes object
    and has it loaded, one unbounded [read], given fuel for its parts,
    returns the whole stream: the delimiter, each part followed by CRLF and
    the delimiter, with the closing bytes over the last two bytes.  The
    encoder is then finished and its buffer drained: every later [read]
    returns no bytes and [__next__] raises StopIteration. *)
Theorem unbounded_read_returns_whole_stream (d : bytes)
    (self : MultipartEncoder.t) (fuel : nat) :
  delimiter_loaded d self ->
  (List.length (MultipartEncoder._parts self) + 2 <= fuel)%nat ->
  exists self',
    MultipartEncoder.read fuel self (-1)
    = Ok (multipart_stream d (MultipartEncoder._parts self), self')
    /\ MultipartEncoder._finished self' = true
    /\ (forall (fuel' : nat) (size : Z),
          exists self'',
            MultipartEncoder.read fuel' self' size = Ok ([], self'')
            /\ MultipartEncoder._finished self'' = true)
    /\ (forall fuel' : nat,
          MultipartEncoder.__next__ fuel' self' = Raise StopIteration).
Proof.
  intros Hl Hfuel.
  destruct (read_all_delimiter_loaded d self fuel Hl Hfuel)
    as (self' & Hr & Hf & Hun).
  exists self'. split; [exact Hr|]. split; [exact Hf|]. split.
  - intros fuel' size. rewrite (read_finished fuel' self' size Hf).
    cbv zeta. rewrite Hun. unfold taken.
    destruct (size <? 0); rewrite ?firstn_nil; eexists; split;
      reflexivity || exact Hf.
  - intros fuel'. now apply next_finished.
Qed.

Lemma X15_witness :
  delimiter_loaded delimiter_X example_encoder
  /\ (List.length (MultipartEncoder._parts example_encoder) + 2 <= 3)%nat
  /\ exists self',
       MultipartEncoder.read 3 example_encoder (-1)
       = Ok (delimiter_X ++ [x48; x3a; CR; LF] ++ [x6c; x6c; x6f] ++ CRLF
               ++ [DASH; DASH; x58; DASH; DASH; CR; LF], self')
       /\ MultipartEncoder._finished self' = true
       /\ (forall (fuel' : nat) (size : Z),
             exists self'',
               MultipartEncoder.read fuel' self' size = Ok ([], self'')
               /\ MultipartEncoder._finished self'' = true)
       /\ (forall fuel' : nat,
             MultipartEncoder.__next__ fuel' self' = Raise StopIteration).
Proof.
  split; [exact example_encoder_loaded|]. split; [cbn; lia|].
  exact (unbounded_read_returns_whole_stream delimiter_X example_encoder 3
           example_encoder_loaded ltac:(cbn; lia)).
Defined.

(** X16.  On an encoder object that holds the delimiter line
    [d0 ++ CRLF] as bytes and has it loaded, with parts as [Part.__init__]
    leaves them and no length cached, [__len__] returns the number of bytes
    of the stream plus, for the delimiter before each part and the closing
    one, the difference between the characters of the boundary and the
    bytes of its encoding [d0]: the computed length is the length of the
    stream exactly when the boundary encodes to one byte per character. *)
Theorem computed_length_against_stream (d0 : bytes)
    (self : MultipartEncoder.t) :
  delimiter_loaded (d0 ++ CRLF) self ->
  Forall fresh_part (MultipartEncoder._parts self) ->
  MultipartEncoder._len self = None ->
  exists n self',
    MultipartEncoder.__len__ self = Ok (n, self')
    /\ n = zlen (multipart_stream (d0 ++ CRLF) (MultipartEncoder._parts self))
           + (Z.of_nat (String.length (MultipartEncoder._boundary self))
              - zlen d0)
             * (zlen (MultipartEncoder._parts self) + 1).
Proof.
  intros (_ & _ & _ & _ & _ & Hparts) Hfresh Hlen.
  unfold MultipartEncoder.__len__. rewrite Hlen, calculate_length_eq.
  eexists. eexists. split; [reflexivity|].
  rewrite (multipart_stream_length d0 (MultipartEncoder._parts self)).
  rewrite zlen_app. change (zlen CRLF) with 2.
  assert (Hsum : sum_Z (map Part_len (MultipartEncoder._parts self))
                 = sum_Z (map (fun p => zlen (pending p))
                              (MultipartEncoder._parts self))).
  { induction Hparts as [|p ps [_ Hnn] _ IH]; [reflexivity|].
    apply Forall_cons_iff in Hfresh. destruct Hfresh as [Hp Hps].
    cbn [map sum_Z]. rewrite (IH Hps), (pending_fresh_length p Hp Hnn).
    reflexivity. }
  rewrite Hsum. lia.
Qed.

Lemma X16_witness :
  delimiter_loaded ([DASH; DASH; x58] ++ CRLF) example_encoder
  /\ Forall fresh_part (MultipartEncoder._parts example_encoder)
  /\ exists n self',
       MultipartEncoder.__len__ example_encoder = Ok (n, self')
       /\ n = zlen (multipart_stream ([DASH; DASH; x58] ++ CRLF)
                      (MultipartEncoder._parts example_encoder))
              + (3 - 3) * (1 + 1).
Proof.
  assert (Hfresh : Forall fresh_part (MultipartEncoder._parts example_encoder)).
  { constructor; [|constructor]. repeat split. }
  split; [exact example_encoder_loaded|]. split; [exact Hfresh|].
  exact (computed_length_against_stream [DASH; DASH; x58] example_encoder
           example_encoder_loaded Hfresh eq_refl).
Defined.

Lemma example_encoder_streaming : streaming delimiter_X example_encoder.
Proof.
  unfold streaming, buffer_ok, cursor.
  split; [reflexivity|]. split; [cbn; lia|]. split.
  - constructor; [|constructor]. split; [reflexivity | cbv; discriminate].
  - right. split; [cbn; lia | reflexivity].
Qed.

Lemma X17_witness :
  streaming delimiter_X example_encoder
  /\ exists self',
       reads 8 example_encoder [4; 0; 3; -1]
       = Ok (split_stream [4; 0; 3; -1]
               (remaining delimiter_X example_encoder), self')
       /\ streaming delimiter_X self'
       /\ List.concat (split_stream [4; 0; 3; -1]
                         (remaining delimiter_X example_encoder))
            ++ remaining delimiter_X self'
          = remaining delimiter_X example_encoder.
Proof.
  split; [exact example_encoder_streaming|].
  apply (reads_return_consecutive_pieces delimiter_X 8 [4; 0; 3; -1]
           example_encoder example_encoder_streaming).
  repeat constructor; cbn; lia.
Defined.

(** X18.  On an encoder object with at least one part that holds its
    delimiter as bytes and has it loaded, reading in pieces of a fixed
    positive size until a read returns nothing gives, joined, exactly the
    stream one unbounded read gives. *)
Theorem chunked_reading_gives_the_stream (d : bytes)
    (self : MultipartEncoder.t) (c : Z) (steps fuel : nat) :
  delimiter_loaded d self -> MultipartEncoder._parts self <> [] ->
  c = -1 \/ 0 < c ->
  (Z.to_nat c + 2 * List.length (MultipartEncoder._parts self) + 2
   <= fuel)%nat ->
  (List.length (multipart_stream d (MultipartEncoder._parts self))
   < steps)%nat ->
  exists self1 self2,
    read_until_empty steps fuel self c
    = Ok (multipart_stream d (MultipartEncoder._parts self), self1)
    /\ MultipartEncoder.read fuel self (-1)
       = Ok (multipart_stream d (MultipartEncoder._parts self), self2).
Proof.
  intros Hl Hne Hc Hfuel Hsteps.
  destruct (loaded_streaming d self Hl Hne) as [Hs Hrem].
  destruct (read_until_empty_streaming d fuel c Hc steps self Hs Hfuel)
    as (self1 & Hr & _); [now rewrite Hrem|].
  destruct (read_all_delimiter_loaded d self fuel Hl ltac:(lia))
    as (self2 & Hr2 & _).
  exists self1, self2. rewrite <- Hrem at 1. split; assumption.
Qed.

Lemma X18_witness :
  delimiter_loaded delimiter_X example_encoder
  /\ MultipartEncoder._parts example_encoder <> []
  /\ exists self1 self2,
       read_until_empty 22 8 example_encoder 4
       = Ok (multipart_stream delimiter_X
               (MultipartEncoder._parts example_encoder), self1)
       /\ MultipartEncoder.read 8 example_encoder (-1)
          = Ok (multipart_stream delimiter_X
                  (MultipartEncoder._parts example_encoder), self2).
Proof.
  split; [exact example_encoder_loaded|]. split; [discriminate|].
  apply (chunked_reading_gives_the_stream delimiter_X example_encoder 4 22 8
           example_encoder_loaded);
    [discriminate | lia | cbn; lia | vm_compute; lia].
Defined.

(** X19.  On an encoder object with at least one part that holds its
    delimiter as bytes and has it loaded, iteration with a positive read
    size ends, with the encoder finished; the chunks it yields, followed by
    the bytes then still unread in the buffer, are the stream.  Iteration
    stops as soon as the encoder is finished, so those unread bytes are not
    yielded, and [__next__] raises StopIteration from then on. *)
Theorem iteration_stops_when_finished (d : bytes)
    (self : MultipartEncoder.t) (steps fuel : nat) :
  delimiter_loaded d self -> MultipartEncoder._parts self <> [] ->
  MultipartEncoder._iter_read_size self = -1
  \/ 0 < MultipartEncoder._iter_read_size self ->
  (Z.to_nat (MultipartEncoder._iter_read_size self)
   + 2 * List.length (MultipartEncoder._parts self) + 2 <= fuel)%nat ->
  (List.length (multipart_stream d (MultipartEncoder._parts self))
   < steps)%nat ->
  exists chunks self',
    MultipartEncoder.__iter__ steps fuel self = Ok (chunks, self')
    /\ MultipartEncoder._finished self' = true
    /\ List.concat chunks ++ BytesIO.unread (MultipartEncoder._buffer self')
       = multipart_stream d (MultipartEncoder._parts self)
    /\ MultipartEncoder.__next__ fuel self' = Raise StopIteration.
Proof.
  intros Hl Hne Hc Hfuel Hsteps.
  destruct (loaded_streaming d self Hl Hne) as [Hs Hrem].
  destruct (iter_streaming d fuel steps self Hs Hc Hfuel)
    as (chunks & self' & Hit & Hf & Hcat); [now rewrite Hrem|].
  exists chunks, self'. split; [exact Hit|]. split; [exact Hf|].
  split; [now rewrite Hcat|]. now apply next_finished.
Qed.

Lemma X19_witness :
  delimiter_loaded delimiter_X example_encoder
  /\ MultipartEncoder._parts example_encoder <> []
  /\ exists chunks self',
       MultipartEncoder.__iter__ 22 8 example_encoder = Ok (chunks, self')
       /\ MultipartEncoder._finished self' = true
       /\ List.concat chunks
            ++ BytesIO.unread (MultipartEncoder._buffer self')
          = multipart_stream delimiter_X
              (MultipartEncoder._parts example_encoder)
       /\ MultipartEncoder.__next__ 8 self' = Raise StopIteration.
Proof.
  split; [exact example_encoder_loaded|]. split; [discriminate|].
  apply (iteration_stops_when_finished delimiter_X example_encoder 22 8
           example_encoder_loaded);
    [discriminate | right; cbn; lia | cbn; lia | vm_compute; lia].
Defined.

(** ** readable_data *)

(** X20.  Whenever [coerce_data] returns a body for the data of a field, the
    object [readable_data] returns delivers, read to the end, the bytes that
    body delivers, with one exception: of an [io.BytesIO] [readable_data]
    delivers what is left to read, [coerce_data] the whole value. *)
Theorem readable_data_against_coerce_data (d : data) (enc : codec)
    (b : sized_body) :
  coerce_data d enc = Ok b ->
  match d with
  | DBytesIO s =>
      fst (readable_read (readable_data d enc) (-1)) = BytesIO.unread s
      /\ body_unread b = BytesIO.getvalue s
  | _ => fst (readable_read (readable_data d enc) (-1)) = body_unread b
  end.
Proof.
  destruct d as [s|bs|s|s|f]; cbn [coerce_data readable_data readable_read].
  - intros [= <-]. reflexivity.
  - intros [= <-]. reflexivity.
  - intros [= <-]. split; reflexivity.
  - intros [= <-]. reflexivity.
  - unfold FileWrapper_init.
    destruct (total_len (OBinaryIO f)); cbn [bind]; try discriminate.
    intros [= <-]. reflexivity.
Qed.

Lemma X20_witness :
  coerce_data (DBytesIO (BytesIO.mk [x68; x69] 1)) Utf8
  = Ok (BCustomBytesIO (BytesIO.mk [x68; x69] 0))
  /\ fst (readable_read
            (readable_data (DBytesIO (BytesIO.mk [x68; x69] 1)) Utf8) (-1))
     = [x69]
  /\ body_unread (BCustomBytesIO (BytesIO.mk [x68; x69] 0)) = [x68; x69].
Proof.
  split; [reflexivity|].
  exact (readable_data_against_coerce_data
           (DBytesIO (BytesIO.mk [x68; x69] 1)) Utf8
           (BCustomBytesIO (BytesIO.mk [x68; x69] 0)) eq_refl).
Defined.
